(** * velour/bridge: the relay engine, its correlation log and the Telegram
      event mapping, embedded from the Go sources.

    - [chat]     : the event and message types of package chat;
    - [bridge]   : src/bridge/bridge.go (log, fan-out, relay, local sends,
                   the poll / mux / recv goroutines and Close);
    - [telegram] : chatEvent and chatUser of src/telegram/channel.go;
    - [bridge_more]   : vocabulary for further properties of the Bridge;
    - [telegram_more] : biggestPhoto, the loop of poll, getMediaURL and
                        the queue of a channel of the Telegram client;
    - [chat0], [irc]  : User.DisplayName of src/unnamed/part_002, and next
                        and channel.Send of src/chat/irc/client.go. *)

From Stdlib Require Import ZArith String Ascii DecimalString DecimalPos DecimalZ.
From Stdlib Require Import Sorted.
From stdpp Require Import base decidable option list sets strings.

(** ** Package strconv: decimal printing of integers and its inverse *)
Module strconv.

Definition Itoa (z : Z) : string := NilZero.string_of_int (Z.to_int z).

Definition Atoi (s : string) : option Z :=
  option_map Z.of_int (NilZero.int_of_string s).

End strconv.

(** ** Package chat *)
Module chat.

Definition MessageID := string.
Definition UserID := string.

(** chat.User as bridge.go and telegram/channel.go build it. *)
Record User := mkUser {
  User_ID : UserID;
  User_Nick : string;
  User_FullName : string;
  User_DisplayName : string;
  User_PhotoURL : string
}.

Record Message := mkMessage {
  Message_ID : MessageID;
  Message_From : User;
  Message_Text : string
}.

Definition zeroUser : User := mkUser "" "" "" "" "".
Definition zeroMessage : Message := mkMessage "" zeroUser "".

(** The values a Channel's Receive hands out as [interface{}]:
    the event structs of package chat, and anything else. *)
Inductive Event :=
| EvMessage (m : Message)
| EvReply (ReplyTo Reply : Message)
| EvDelete (ID : MessageID)
| EvEdit (ID NewID : MessageID) (Text : string)
| EvJoin (Who : User)
| EvLeave (Who : User)
| EvRename (From To : User)
| EvOther.

(** Go error values.  The sentinels are compared with [==] by the code;
    [errors_New] stands for a value made by errors.New or fmt.Errorf,
    [backend_error] for any other failure a backend hands back. *)
Inductive error :=
| context_Canceled
| context_DeadlineExceeded
| io_EOF
| errors_New (text : string)
| backend_error (text : string).

Definition Error (e : error) : string :=
  match e with
  | context_Canceled => "context canceled"
  | context_DeadlineExceeded => "context deadline exceeded"
  | io_EOF => "EOF"
  | errors_New t => t
  | backend_error t => t
  end.

#[global] Instance User_eq_dec : EqDecision User.
Proof. solve_decision. Defined.
#[global] Instance Message_eq_dec : EqDecision Message.
Proof. solve_decision. Defined.
#[global] Instance error_eq_dec : EqDecision error.
Proof. solve_decision. Defined.

End chat.

(** ** Package bridge *)
Module bridge.
Import chat strconv.

Definition maxHistory : nat := 500.

(** A chat.Channel value held by the Bridge: one of the bridged
    backends, or the Bridge itself (which is a chat.Channel too). *)
Inductive Channel :=
| Backend (n : nat)
| Self.

#[global] Instance Channel_eq_dec : EqDecision Channel.
Proof. solve_decision. Defined.

(** [to] is an interface field: [None] is the nil of a zero [message]. *)
Record message := mkmessage {
  to : option Channel;
  msg : Message
}.

Record logEntry := mklogEntry {
  origin : Channel;
  copies : list message
}.

#[global] Instance message_eq_dec : EqDecision message.
Proof. solve_decision. Defined.
#[global] Instance logEntry_eq_dec : EqDecision logEntry.
Proof. solve_decision. Defined.

Definition zeromessage : message := mkmessage None zeroMessage.

(** The fields of Bridge that the relay and the send methods read and
    write.  [b_nextID] is a Go int, kept in [Z] with its 64-bit
    wrap-around written out in [nextID]. *)
Record Bridge := mkBridge {
  b_channels : list Channel;
  b_nextID : Z;
  b_log : list logEntry
}.

Definition set_log (b : Bridge) (l : list logEntry) : Bridge :=
  mkBridge (b_channels b) (b_nextID b) l.

(** logMessage: append, then cut back to the first maxHistory entries. *)
Definition logMessage (b : Bridge) (entry : logEntry) : Bridge :=
  let l := b_log b ++ [entry] in
  if decide (maxHistory < length l) then set_log b (take maxHistory l)
  else set_log b l.

(** Go int arithmetic. *)
Definition wrapInt (z : Z) : Z := ((z + 2 ^ 63) mod 2 ^ 64 - 2 ^ 63)%Z.

Definition nextID (b : Bridge) : Bridge * MessageID :=
  let n := wrapInt (b_nextID b + 1) in
  (mkBridge (b_channels b) n (b_log b), Itoa (wrapInt (n - 1))).

Definition me (b : Bridge) : User :=
  mkUser "bridge" "bridge" "bridge" "bridge" "".

Fixpoint allChannelsExceptFrom (chs : list Channel) (exclude : Channel)
  : list Channel :=
  match chs with
  | [] => []
  | ch :: rest =>
      if decide (ch ≠ exclude) then ch :: allChannelsExceptFrom rest exclude
      else allChannelsExceptFrom rest exclude
  end.

Definition allChannelsExcept (b : Bridge) (exclude : Channel) : list Channel :=
  allChannelsExceptFrom (b_channels b) exclude.

(** *** makeFindMessage *)

(** Inner loop of the search: some copy of the entry is on [origin]
    and carries [id]. *)
Fixpoint hasCopy (cs : list message) (origin : Channel) (id : MessageID) : bool :=
  match cs with
  | [] => false
  | c :: rest =>
      if decide (to c = Some origin ∧ Message_ID (msg c) = id) then true
      else hasCopy rest origin id
  end.

(** Outer loop: the first entry of the log with such a copy. *)
Fixpoint findEntry (l : list logEntry) (origin : Channel) (id : MessageID)
  : option logEntry :=
  match l with
  | [] => None
  | e :: rest =>
      if hasCopy (copies e) origin id then Some e
      else findEntry rest origin id
  end.

(** The loop of the returned closure: the first copy sent to [ch]. *)
Fixpoint findCopy (cs : list message) (ch : Channel) : option message :=
  match cs with
  | [] => None
  | c :: rest => if decide (to c = Some ch) then Some c else findCopy rest ch
  end.

(** The closure returns [&c.msg], where [c] is the range variable: a
    copy of the slice element.  The variable escapes, so it is a cell
    of its own on the heap; a pointer is the index of the cell. *)
Abbreviation Heap := (list message).

Definition deref (h : Heap) (p : nat) : Message :=
  msg (default zeromessage (h !! p)).

Definition setID (h : Heap) (p : nat) (id : MessageID) : Heap :=
  match h !! p with
  | Some c =>
      <[p := mkmessage (to c)
               (mkMessage id (Message_From (msg c)) (Message_Text (msg c)))]> h
  | None => h
  end.

Definition findMessageFunc := Channel → Heap → Heap * option nat.

(** [entry] is a [*logEntry] of the log; the closure only reads it, so
    the entry's value stands for the pointer. *)

Definition makeFindMessage (b : Bridge) (origin : Channel) (id : MessageID)
  : findMessageFunc :=
  let entry := findEntry (b_log b) origin id in
  fun ch h =>
    match entry with
    | None => (h, None)
    | Some e =>
        match findCopy (copies e) ch with
        | Some c => (h ++ [c], Some (length h))
        | None => (h, None)
        end
    end.

(** *** The bridged backends *)

(** The four send-style methods of chat.Channel. *)
Inductive SendOp :=
| OpSend (text : string)
| OpSendAs (sendAs : User) (text : string)
| OpReply (replyTo : Message) (text : string)
| OpReplyAs (sendAs : User) (replyTo : Message) (text : string).

(** What the Bridge is given from outside: implementations of the
    chat.Channel interface for the bridged channels, acting on a [World]
    of their own, and chat.User's Name method. *)
Class Backends := {
  World : Type;
  User_Name : User → string;
  backendName : nat → string;
  backendServiceName : nat → string;
  Send : Channel → SendOp → World → World * (error + Message);
  Edit : Channel → MessageID → string → World → World * (MessageID * option error);
  Delete : Channel → MessageID → World → World * option error
}.

(** A backend call together with what it returned. *)
Inductive Call :=
| CallSend (ch : Channel) (op : SendOp) (r : error + Message)
| CallEdit (ch : Channel) (id : MessageID) (text : string) (r : MessageID * option error)
| CallDelete (ch : Channel) (id : MessageID) (r : option error).

Definition callee (c : Call) : Channel :=
  match c with
  | CallSend ch _ _ => ch
  | CallEdit ch _ _ _ => ch
  | CallDelete ch _ _ => ch
  end.

(** The order in which the goroutines of one errgroup get to run: at
    each step one of the goroutines still waiting is picked. *)
Fixpoint pickOrder {A} (n : nat) (picks : list nat) (waiting : list A) : list A :=
  match n with
  | 0 => []
  | S n' =>
      let k := hd 0 picks `mod` length waiting in
      match waiting !! k with
      | Some x => x :: pickOrder n' (tl picks) (delete k waiting)
      | None => []
      end
  end.

Definition schedule {A} (picks : list nat) (l : list A) : list A :=
  pickOrder (length l) picks l.

(** A step of a goroutine: it cannot run now, it panics, or it runs. *)
Inductive Outcome (A : Type) :=
| Blocked
| Panics
| Ret (a : A).
Arguments Blocked {A}.
Arguments Panics {A}.
Arguments Ret {A} a.

Section Relay.
Context `{B : Backends}.

Definition Name (ch : Channel) : string :=
  match ch with Self => "bridge" | Backend n => backendName n end.

Definition ServiceName (ch : Channel) : string :=
  match ch with Self => "bridge" | Backend n => backendServiceName n end.

(** Everything outside the Bridge struct that a relay touches. *)
Record IO := mkIO {
  world : World;
  trace : list Call;
  heap : Heap
}.

(** The body of one goroutine of sendMessage. *)
Definition sendBody (sendAs : option User) (findMessage : findMessageFunc)
    (text : string) (ch : Channel) (io : IO) : IO * (error + Message) :=
  let '(h, replyTo) := findMessage ch (heap io) in
  let op :=
    match replyTo, sendAs with
    | Some p, None => OpReply (deref h p) text
    | Some p, Some u => OpReplyAs u (deref h p) text
    | None, None => OpSend text
    | None, Some u => OpSendAs u text
    end in
  let '(w, r) := Send ch op (world io) in
  (mkIO w (trace io ++ [CallSend ch op r]) h, r).

(** The goroutines of sendMessage in the order they run; [first] is the
    error the errgroup keeps (the first one returned). *)
Fixpoint sendAll (sendAs : option User) (findMessage : findMessageFunc)
    (text : string) (jobs : list (nat * Channel)) (io : IO)
    (messages : list message) (first : option error)
  : IO * list message * option error :=
  match jobs with
  | [] => (io, messages, first)
  | (i, ch) :: rest =>
      let '(io', r) := sendBody sendAs findMessage text ch io in
      match r with
      | inl err =>
          sendAll sendAs findMessage text rest io' messages
                  (match first with None => Some err | Some _ => first end)
      | inr m =>
          sendAll sendAs findMessage text rest io'
                  (<[i := mkmessage (Some ch) m]> messages) first
      end
  end.

Definition sendMessage (picks : list nat) (channels : list Channel)
    (sendAs : option User) (findMessage : option findMessageFunc)
    (text : string) (io : IO) : IO * (error + list message) :=
  let findMessage := default (fun _ h => (h, None)) findMessage in
  let messages := replicate (length channels) zeromessage in
  let '(io', messages', err) :=
    sendAll sendAs findMessage text (schedule picks (imap pair channels))
            io messages None in
  match err with
  | Some e => (io', inl e)
  | None => (io', inr messages')
  end.

Definition keepFirst (first new : option error) : option error :=
  match first with None => new | Some _ => first end.

(** The body of one goroutine of editMessage.  [msg.ID, err = ch.Edit(..)]
    stores the returned identifier through the pointer. *)
Definition editBody (findMessage : findMessageFunc) (text : string)
    (ch : Channel) (io : IO) : IO * option error :=
  let '(h, m) := findMessage ch (heap io) in
  match m with
  | None => (mkIO (world io) (trace io) h, None)
  | Some p =>
      let id := Message_ID (deref h p) in
      let '(w, r) := Edit ch id text (world io) in
      let io' := mkIO w (trace io ++ [CallEdit ch id text r]) (setID h p (fst r)) in
      match snd r with
      | Some err =>
          (io', Some (errors_New ("failed to send edit to " +:+ Name ch +:+ " on "
                                  +:+ ServiceName ch +:+ ": " +:+ Error err)))
      | None => (io', None)
      end
  end.

Definition deleteBody (findMessage : findMessageFunc)
    (ch : Channel) (io : IO) : IO * option error :=
  let '(h, m) := findMessage ch (heap io) in
  match m with
  | None => (mkIO (world io) (trace io) h, None)
  | Some p =>
      let id := Message_ID (deref h p) in
      let '(w, r) := Delete ch id (world io) in
      let io' := mkIO w (trace io ++ [CallDelete ch id r]) h in
      match r with
      | Some err =>
          (io', Some (errors_New ("failed to send delete to " +:+ Name ch +:+ " on "
                                  +:+ ServiceName ch +:+ ": " +:+ Error err)))
      | None => (io', None)
      end
  end.

(** An errgroup whose goroutines return only an error. *)
Fixpoint runGroup (body : Channel → IO → IO * option error)
    (jobs : list Channel) (io : IO) (first : option error) : IO * option error :=
  match jobs with
  | [] => (io, first)
  | ch :: rest =>
      let '(io', r) := body ch io in
      runGroup body rest io' (keepFirst first r)
  end.

Definition editMessage (picks : list nat) (channels : list Channel)
    (findMessage : findMessageFunc) (text : string) (io : IO) : IO * option error :=
  runGroup (editBody findMessage text) (schedule picks channels) io None.

Definition deleteMessage (picks : list nat) (channels : list Channel)
    (findMessage : findMessageFunc) (io : IO) : IO * option error :=
  runGroup (deleteBody findMessage) (schedule picks channels) io None.

Record event := mkevent {
  ev_origin : Channel;
  what : Event
}.

(** relay; [picks] schedules the goroutines of its one broadcast. *)
Definition relay (picks : list nat) (b : Bridge) (event : event) (io : IO)
  : Bridge * IO * option error :=
  let origin := ev_origin event in
  let origName := Name origin +:+ " on " +:+ ServiceName origin in
  let to := allChannelsExcept b origin in
  match what event with
  | EvMessage ev =>
      let '(io', r) :=
        sendMessage picks to (Some (Message_From ev)) None (Message_Text ev) io in
      match r with
      | inl err => (b, io', Some err)
      | inr msgs =>
          (logMessage b (mklogEntry origin (msgs ++ [mkmessage (Some origin) ev])),
           io', None)
      end
  | EvReply replyTo reply =>
      let findMessage := makeFindMessage b origin (Message_ID replyTo) in
      let '(io', r) :=
        sendMessage picks to None (Some findMessage) (Message_Text reply) io in
      match r with
      | inl err => (b, io', Some err)
      | inr msgs =>
          (logMessage b (mklogEntry Self (msgs ++ [mkmessage (Some origin) reply])),
           io', None)
      end
  | EvDelete id =>
      let findMessage := makeFindMessage b origin id in
      let '(io', r) := deleteMessage picks to findMessage io in
      (b, io', r)
  | EvEdit id _ text =>
      let findMessage := makeFindMessage b origin id in
      let '(io', r) := editMessage picks to findMessage text io in
      (b, io', r)
  | EvJoin who =>
      let msg := User_Name who +:+ " joined " +:+ origName in
      let '(io', r) := sendMessage picks to None None msg io in
      (b, io', match r with inl err => Some err | inr _ => None end)
  | EvLeave who =>
      let msg := User_Name who +:+ " left " +:+ origName in
      let '(io', r) := sendMessage picks to None None msg io in
      (b, io', match r with inl err => Some err | inr _ => None end)
  | EvRename from to' =>
      let old := User_Name from in
      let new := User_Name to' in
      if decide (old = new) then (b, io, None)
      else
        let msg := old +:+ " renamed to " +:+ new +:+ " in " +:+ origName in
        let '(io', r) := sendMessage picks to None None msg io in
        (b, io', match r with inl err => Some err | inr _ => None end)
  | EvOther => (b, io, None)
  end.

(** *** The Bridge as a chat.Channel: Send, SendAs, Reply, ReplyAs *)

Definition Bridge_Send (picks : list nat) (b : Bridge) (text : string) (io : IO)
  : Bridge * IO * (error + Message) :=
  let '(io', r) := sendMessage picks (b_channels b) None None text io in
  match r with
  | inl err => (b, io', inl err)
  | inr msgs =>
      let '(b1, id) := nextID b in
      let msg := mkMessage id (me b) text in
      (logMessage b1 (mklogEntry Self (msgs ++ [mkmessage (Some Self) msg])),
       io', inr msg)
  end.

Definition Bridge_SendAs (picks : list nat) (b : Bridge) (sendAs : User)
    (text : string) (io : IO) : Bridge * IO * (error + Message) :=
  let '(io', r) := sendMessage picks (b_channels b) (Some sendAs) None text io in
  match r with
  | inl err => (b, io', inl err)
  | inr msgs =>
      let '(b1, id) := nextID b in
      let msg := mkMessage id (me b) text in
      (logMessage b1 (mklogEntry Self (msgs ++ [mkmessage (Some Self) msg])),
       io', inr msg)
  end.

Definition Bridge_Reply (picks : list nat) (b : Bridge) (replyTo : Message)
    (text : string) (io : IO) : Bridge * IO * (error + Message) :=
  let findMessage := makeFindMessage b Self (Message_ID replyTo) in
  let '(io', r) := sendMessage picks (b_channels b) None (Some findMessage) text io in
  match r with
  | inl err => (b, io', inl err)
  | inr msgs =>
      let '(b1, id) := nextID b in
      let msg := mkMessage id (me b) text in
      (logMessage b1 (mklogEntry Self (msgs ++ [mkmessage (Some Self) msg])),
       io', inr msg)
  end.

Definition Bridge_ReplyAs (picks : list nat) (b : Bridge) (sendAs : User)
    (replyTo : Message) (text : string) (io : IO)
  : Bridge * IO * (error + Message) :=
  let findMessage := makeFindMessage b Self (Message_ID replyTo) in
  let '(io', r) :=
    sendMessage picks (b_channels b) (Some sendAs) (Some findMessage) text io in
  match r with
  | inl err => (b, io', inl err)
  | inr msgs =>
      let '(b1, id) := nextID b in
      let msg := mkMessage id (me b) text in
      (logMessage b1 (mklogEntry Self (msgs ++ [mkmessage (Some Self) msg])),
       io', inr msg)
  end.

(** Delete and Edit on the Bridge itself. *)
Definition Bridge_Delete (b : Bridge) (id : MessageID) : option error := None.
Definition Bridge_Edit (b : Bridge) (id : MessageID) (text : string)
  : MessageID * option error := (id, None).

(** **** Concurrent callers

    A call of one of the four methods, cut at the places where the
    Bridge's lock is taken: the broadcast, then nextID (one critical
    section), then logMessage (another).  Callers interleave between
    these steps. *)
Inductive LocalCall :=
| callSend (text : string)
| callSendAs (sendAs : User) (text : string)
| callReply (replyTo : Message) (text : string)
| callReplyAs (sendAs : User) (replyTo : Message) (text : string).

Inductive Caller :=
| atBroadcast (c : LocalCall)
| atNextID (text : string) (msgs : list message)
| atLogMessage (msgs : list message) (msg : Message)
| returned (r : error + Message).

Definition broadcast (picks : list nat) (b : Bridge) (c : LocalCall) (io : IO)
  : IO * (error + list message) * string :=
  match c with
  | callSend text =>
      (sendMessage picks (b_channels b) None None text io, text)
  | callSendAs u text =>
      (sendMessage picks (b_channels b) (Some u) None text io, text)
  | callReply replyTo text =>
      (sendMessage picks (b_channels b) None
         (Some (makeFindMessage b Self (Message_ID replyTo))) text io, text)
  | callReplyAs u replyTo text =>
      (sendMessage picks (b_channels b) (Some u)
         (Some (makeFindMessage b Self (Message_ID replyTo))) text io, text)
  end.

(** One step of one caller; the third component is the identifier the
    step took from nextID, if it is that step. *)
Definition callerStep (picks : list nat) (t : Caller) (b : Bridge) (io : IO)
  : Caller * Bridge * IO * option MessageID :=
  match t with
  | atBroadcast c =>
      let '(io', r, text) := broadcast picks b c io in
      match r with
      | inl err => (returned (inl err), b, io', None)
      | inr msgs => (atNextID text msgs, b, io', None)
      end
  | atNextID text msgs =>
      let '(b1, id) := nextID b in
      (atLogMessage msgs (mkMessage id (me b) text), b1, io, Some id)
  | atLogMessage msgs msg =>
      (returned (inr msg),
       logMessage b (mklogEntry Self (msgs ++ [mkmessage (Some Self) msg])),
       io, None)
  | returned r => (returned r, b, io, None)
  end.

(** The callers under a scheduler: each item names the caller that
    steps next and the order of the goroutines of its broadcast.
    [issued] collects the identifiers in the order nextID gave them out,
    [completed] the identifiers of the returned Messages in the order
    the calls returned. *)
Record Callers := mkCallers {
  callers : list Caller;
  c_bridge : Bridge;
  c_io : IO;
  issued : list MessageID;
  completed : list MessageID
}.

Definition stepCaller (item : nat * list nat) (s : Callers) : Callers :=
  match callers s !! item.1 with
  | None => s
  | Some t =>
      let '(t', b', io', id) := callerStep item.2 t (c_bridge s) (c_io s) in
      mkCallers (<[item.1 := t']> (callers s)) b' io'
                (issued s ++ match id with Some i => [i] | None => [] end)
                (completed s ++
                 match t with
                 | atLogMessage _ msg => [Message_ID msg]
                 | _ => []
                 end)
  end.

Definition runCallers (sched : list (nat * list nat)) (s : Callers) : Callers :=
  foldl (fun s item => stepCaller item s) s sched.

(** The identifier a caller holds once nextID has answered it. *)
Definition heldID (t : Caller) : option MessageID :=
  match t with
  | atLogMessage _ msg => Some (Message_ID msg)
  | returned (inr msg) => Some (Message_ID msg)
  | _ => None
  end.

(** The identifier of the Message a caller has returned. *)
Definition returnedID (t : Caller) : option MessageID :=
  match t with
  | returned (inr msg) => Some (Message_ID msg)
  | _ => None
  end.

(** The four methods as one function of the call, and calls made one
    after the other, each returning before the next begins. *)
Definition method (picks : list nat) (c : LocalCall) (b : Bridge) (io : IO)
  : Bridge * IO * (error + Message) :=
  match c with
  | callSend text => Bridge_Send picks b text io
  | callSendAs u text => Bridge_SendAs picks b u text io
  | callReply replyTo text => Bridge_Reply picks b replyTo text io
  | callReplyAs u replyTo text => Bridge_ReplyAs picks b u replyTo text io
  end.

Fixpoint callInTurn (cs : list (list nat * LocalCall)) (b : Bridge) (io : IO)
  : list (error + Message) * Bridge * IO :=
  match cs with
  | [] => ([], b, io)
  | (picks, c) :: rest =>
      let '(b1, io1, r) := method picks c b io in
      let '(rs, b2, io2) := callInTurn rest b1 io1 in
      (r :: rs, b2, io2)
  end.

Definition okID (r : error + Message) : option MessageID :=
  match r with inr m => Some (Message_ID m) | inl _ => None end.

(** *** The goroutines of a Bridge and its Go channels

    [eventsMux] has capacity 100, [recvIn], [pollError] and [closeError]
    capacity 1; [recvOut] is unbuffered, so a value passes from recv to
    Receive in one step.  A closed channel is a flag.  [recvBatch] is the
    slice recv is ranging over; [polling] lists the poll goroutines that
    have not returned.  mux returns exactly when it closes closeError and
    cancels the context (its two deferred calls). *)
Record Sys := mkSys {
  bridge : Bridge;
  sio : IO;
  eventsMux : list event;
  recvIn : option (list Event);
  recvBatch : list Event;
  recvOut_closed : bool;
  pollError : option error;
  closeError : option error;
  closeError_closed : bool;
  closed : bool;
  cancelled : bool;
  polling : list Channel
}.

Definition set_bridge (v : Bridge) (s : Sys) : Sys :=
  mkSys v (sio s) (eventsMux s) (recvIn s) (recvBatch s) (recvOut_closed s) (pollError s) (closeError s) (closeError_closed s) (closed s) (cancelled s) (polling s).

Definition set_eventsMux (v : list event) (s : Sys) : Sys :=
  mkSys (bridge s) (sio s) v (recvIn s) (recvBatch s) (recvOut_closed s) (pollError s) (closeError s) (closeError_closed s) (closed s) (cancelled s) (polling s).

Definition set_recvIn (v : option (list Event)) (s : Sys) : Sys :=
  mkSys (bridge s) (sio s) (eventsMux s) v (recvBatch s) (recvOut_closed s) (pollError s) (closeError s) (closeError_closed s) (closed s) (cancelled s) (polling s).

Definition set_recvBatch (v : list Event) (s : Sys) : Sys :=
  mkSys (bridge s) (sio s) (eventsMux s) (recvIn s) v (recvOut_closed s) (pollError s) (closeError s) (closeError_closed s) (closed s) (cancelled s) (polling s).

Definition set_recvOut_closed (v : bool) (s : Sys) : Sys :=
  mkSys (bridge s) (sio s) (eventsMux s) (recvIn s) (recvBatch s) v (pollError s) (closeError s) (closeError_closed s) (closed s) (cancelled s) (polling s).

Definition set_pollError (v : option error) (s : Sys) : Sys :=
  mkSys (bridge s) (sio s) (eventsMux s) (recvIn s) (recvBatch s) (recvOut_closed s) v (closeError s) (closeError_closed s) (closed s) (cancelled s) (polling s).

Definition set_closeError (v : option error) (s : Sys) : Sys :=
  mkSys (bridge s) (sio s) (eventsMux s) (recvIn s) (recvBatch s) (recvOut_closed s) (pollError s) v (closeError_closed s) (closed s) (cancelled s) (polling s).

Definition set_closeError_closed (v : bool) (s : Sys) : Sys :=
  mkSys (bridge s) (sio s) (eventsMux s) (recvIn s) (recvBatch s) (recvOut_closed s) (pollError s) (closeError s) v (closed s) (cancelled s) (polling s).

Definition set_closed (v : bool) (s : Sys) : Sys :=
  mkSys (bridge s) (sio s) (eventsMux s) (recvIn s) (recvBatch s) (recvOut_closed s) (pollError s) (closeError s) (closeError_closed s) v (cancelled s) (polling s).

Definition set_cancelled (v : bool) (s : Sys) : Sys :=
  mkSys (bridge s) (sio s) (eventsMux s) (recvIn s) (recvBatch s) (recvOut_closed s) (pollError s) (closeError s) (closeError_closed s) (closed s) v (polling s).

Definition set_polling (v : list Channel) (s : Sys) : Sys :=
  mkSys (bridge s) (sio s) (eventsMux s) (recvIn s) (recvBatch s) (recvOut_closed s) (pollError s) (closeError s) (closeError_closed s) (closed s) (cancelled s) v.

Definition set_sio (v : IO) (s : Sys) : Sys :=
  mkSys (bridge s) v (eventsMux s) (recvIn s) (recvBatch s) (recvOut_closed s)
        (pollError s) (closeError s) (closeError_closed s) (closed s)
        (cancelled s) (polling s).

(** New: the Bridge and its channels before any goroutine has run. *)
Definition New (channels : list Channel) (w : World) : Sys :=
  mkSys (mkBridge channels 0 []) (mkIO w [] []) [] None [] false
        None None false false false channels.

Fixpoint stopPolling (ch : Channel) (l : list Channel) : list Channel :=
  match l with
  | [] => []
  | c :: rest => if decide (c = ch) then rest else c :: stopPolling ch rest
  end.

(** One turn of the loop of poll for [ch], whose Receive returned [r]. *)
Definition poll (ch : Channel) (r : error + Event) (s : Sys) : Outcome Sys :=
  if decide (ch ∈ polling s) then
    match r with
    | inl err =>
        if decide (err = context_Canceled ∨ err = context_DeadlineExceeded)
        then Ret (set_polling (stopPolling ch (polling s)) s)
        else
          let s' :=
            match pollError s with
            | None => set_pollError (Some err) s
            | Some _ => s
            end in
          Ret (set_polling (stopPolling ch (polling s)) s')
    | inr ev =>
        if decide (length (eventsMux s) < 100)
        then Ret (set_eventsMux (eventsMux s ++ [mkevent ch ev]) s)
        else Blocked
    end
  else Blocked.

(** The case a select statement takes. *)
Inductive muxCase := mux_closed | mux_pollError | mux_eventsMux.
Inductive recvCase := recv_Done | recv_recvIn.
Inductive ReceiveCase := Receive_Done (ctxErr : error) | Receive_recvOut.

Definition muxReturn (s : Sys) : Sys :=
  set_cancelled true (set_closeError_closed true s).

(** One turn of the loop of mux. *)
Definition mux (c : muxCase) (picks : list nat) (s : Sys) : Outcome Sys :=
  if closeError_closed s then Blocked
  else
    match c with
    | mux_closed => if closed s then Ret (muxReturn s) else Blocked
    | mux_pollError =>
        match pollError s with
        | Some err => Ret (muxReturn (set_closeError (Some err) (set_pollError None s)))
        | None => Blocked
        end
    | mux_eventsMux =>
        match eventsMux s with
        | [] => Blocked
        | ev :: rest =>
            let '(b', io', r) := relay picks (bridge s) ev (sio s) in
            let s1 := set_eventsMux rest (set_sio io' (set_bridge b' s)) in
            match r with
            | Some err => Ret (muxReturn (set_closeError (Some err) s1))
            | None =>
                Ret (set_recvIn (Some (default [] (recvIn s1) ++ [what ev])) s1)
            end
        end
    end.

(** recv at its outer select; the inner send on recvOut is [Receive]. *)
Definition recv (c : recvCase) (s : Sys) : Outcome Sys :=
  if recvOut_closed s then Blocked
  else
    match c with
    | recv_Done =>
        if cancelled s then Ret (set_recvOut_closed true (set_recvBatch [] s))
        else Blocked
    | recv_recvIn =>
        match recvBatch s, recvIn s with
        | [], Some evs => Ret (set_recvBatch evs (set_recvIn None s))
        | _, _ => Blocked
        end
    end.

(** Bridge.Receive. *)
Definition Receive (c : ReceiveCase) (s : Sys) : Outcome (Sys * (error + Event)) :=
  match c with
  | Receive_Done ctxErr => Ret (s, inl ctxErr)
  | Receive_recvOut =>
      if recvOut_closed s then Ret (s, inl io_EOF)
      else
        match recvBatch s with
        | ev :: rest => Ret (set_recvBatch rest s, inr ev)
        | [] => Blocked
        end
  end.

(** Bridge.Close, in its two halves: [close(b.closed)], then the receive
    from closeError and the rewriting of io.EOF. *)
Definition Close_signal (s : Sys) : Outcome Sys :=
  if closed s then Panics else Ret (set_closed true s).

Definition Close_wait (s : Sys) : Outcome (Sys * option error) :=
  match closeError s with
  | Some err =>
      Ret (set_closeError None s,
           Some (if decide (err = io_EOF) then errors_New "unexpected EOF" else err))
  | None => if closeError_closed s then Ret (s, None) else Blocked
  end.

(** Runs of the whole system. *)
Inductive Label :=
| LPoll (ch : Channel) (r : error + Event)
| LMux (c : muxCase) (picks : list nat)
| LRecv (c : recvCase)
| LReceive (c : ReceiveCase)
| LCloseSignal
| LCloseWait.

Inductive Obs :=
| ObsReceive (r : error + Event)
| ObsClose (r : option error).

Definition step (l : Label) (s : Sys) : Outcome (Sys * list Obs) :=
  match l with
  | LPoll ch r =>
      match poll ch r s with
      | Ret s' => Ret (s', []) | Blocked => Blocked | Panics => Panics
      end
  | LMux c picks =>
      match mux c picks s with
      | Ret s' => Ret (s', []) | Blocked => Blocked | Panics => Panics
      end
  | LRecv c =>
      match recv c s with
      | Ret s' => Ret (s', []) | Blocked => Blocked | Panics => Panics
      end
  | LReceive c =>
      match Receive c s with
      | Ret (s', r) => Ret (s', [ObsReceive r]) | Blocked => Blocked | Panics => Panics
      end
  | LCloseSignal =>
      match Close_signal s with
      | Ret s' => Ret (s', []) | Blocked => Blocked | Panics => Panics
      end
  | LCloseWait =>
      match Close_wait s with
      | Ret (s', r) => Ret (s', [ObsClose r]) | Blocked => Blocked | Panics => Panics
      end
  end.

Fixpoint run (ls : list Label) (s : Sys) : Outcome (Sys * list Obs) :=
  match ls with
  | [] => Ret (s, [])
  | l :: rest =>
      match step l s with
      | Ret (s', o) =>
          match run rest s' with
          | Ret (s'', o') => Ret (s'', o ++ o')
          | Blocked => Blocked
          | Panics => Panics
          end
      | Blocked => Blocked
      | Panics => Panics
      end
  end.

(** The events mux has published and Receive has not handed out yet. *)
Definition unreceived (s : Sys) : list Event :=
  recvBatch s ++ default [] (recvIn s).

(** The steps that hand out everything unreceived: Receive takes what
    recv holds, recv fetches the batch waiting in recvIn, Receive takes
    that too. *)
Definition drainLabels (s : Sys) : list Label :=
  replicate (length (recvBatch s)) (LReceive Receive_recvOut) ++
  match recvIn s with
  | Some evs =>
      LRecv recv_recvIn :: replicate (length evs) (LReceive Receive_recvOut)
  | None => []
  end.

End Relay.

(** *** Vocabulary for stating what the relay does *)
Section Vocabulary.
Context `{B : Backends}.

(** The copy of the message [id] of [origin] that the log records for
    [ch]: the closure of makeFindMessage, as a value. *)
Definition copyOn (b : Bridge) (origin : Channel) (id : MessageID)
    (ch : Channel) : option Message :=
  match findEntry (b_log b) origin id with
  | None => None
  | Some e => msg <$> findCopy (copies e) ch
  end.

(** A closure answers [f] when, on any heap, it points at [f ch]. *)
Definition answers (fm : findMessageFunc) (f : Channel → option Message) : Prop :=
  ∀ ch h, deref (fm ch h).1 <$> (fm ch h).2 = f ch.

(** The method sendMessage calls on a target, from [sendAs] and the
    closure's answer. *)
Definition opFor (sendAs : option User) (replyTo : option Message)
    (text : string) : SendOp :=
  match replyTo, sendAs with
  | Some m, None => OpReply m text
  | Some m, Some u => OpReplyAs u m text
  | None, None => OpSend text
  | None, Some u => OpSendAs u text
  end.

Definition firstError {A} (results : list (error + A)) : option error :=
  head (omap (fun r => match r with inl e => Some e | inr _ => None end) results).

Definition mkCall sendAs (f : Channel → option Message) text
    (j : nat * Channel) (r : error + Message) : Call :=
  CallSend j.2 (opFor sendAs (f j.2) text) r.

(** The request part of a call: who was asked what. *)
Inductive Request :=
| ReqSend (ch : Channel) (op : SendOp)
| ReqEdit (ch : Channel) (id : MessageID) (text : string)
| ReqDelete (ch : Channel) (id : MessageID).

Definition request (c : Call) : Request :=
  match c with
  | CallSend ch op _ => ReqSend ch op
  | CallEdit ch id text _ => ReqEdit ch id text
  | CallDelete ch id _ => ReqDelete ch id
  end.

(** The error a call came back with, if it failed. *)
Definition failure (c : Call) : option error :=
  match c with
  | CallSend _ _ (inl e) => Some e
  | CallSend _ _ (inr _) => None
  | CallEdit _ _ _ r => r.2
  | CallDelete _ _ r => r
  end.

(** The method a Reply relay calls on a target: Reply against the copy
    the resolved entry holds for it, or a plain Send when it holds none. *)
Definition replyOp (entry : logEntry) (text : string) (ch : Channel) : SendOp :=
  match findCopy (copies entry) ch with
  | Some c => OpReply (msg c) text
  | None => OpSend text
  end.

(** What one goroutine of an errgroup asks of its channel, if anything. *)
Definition bodySpec (body : Channel → IO → IO * option error)
    (req : Channel → option Request) : Prop :=
  ∀ ch io,
    match req ch with
    | None => trace (body ch io).1 = trace io ∧ (body ch io).2 = None
    | Some q =>
        ∃ c, trace (body ch io).1 = trace io ++ [c] ∧ request c = q ∧
             callee c = ch ∧
             ((body ch io).2 = None ↔ failure c = None)
    end.

Definition editReq (f : Channel → option Message) (text : string) (ch : Channel)
  : option Request :=
  (fun m => ReqEdit ch (Message_ID m) text) <$> f ch.

Definition deleteReq (f : Channel → option Message) (ch : Channel) : option Request :=
  (fun m => ReqDelete ch (Message_ID m)) <$> f ch.

(** What Close returns for the error mux left in closeError. *)
Definition closeResult (err : error) : error :=
  if decide (err = io_EOF) then errors_New "unexpected EOF" else err.

Definition isPoll (l : Label) : Prop :=
  match l with LPoll _ _ => True | _ => False end.

(** The error a step reports to pollError, if it is a poller failing
    with something other than a context error. *)
Definition reports (l : Label) : option error :=
  match l with
  | LPoll _ (inl err) =>
      if decide (err = context_Canceled ∨ err = context_DeadlineExceeded)
      then None else Some err
  | _ => None
  end.

Definition firstReport (ls : list Label) : option error :=
  head (omap reports ls).

(** What the scheduler keeps true of the callers: nextID has moved by
    the number of identifiers given out, these are the decimal strings
    of consecutive numbers from [n0] on, and they are what the callers
    hold. *)
Definition callersInv (n0 : Z) (N : nat) (s : Callers) : Prop :=
  length (callers s) = N ∧
  b_nextID (c_bridge s) = (n0 + Z.of_nat (length (issued s)))%Z ∧
  issued s = (fun k => Itoa (n0 + Z.of_nat k)) <$> seq 0 (length (issued s)) ∧
  omap heldID (callers s) ≡ₚ issued s ∧
  omap returnedID (callers s) ≡ₚ completed s.

(** A caller stepped three times on its own is the method it stands for. *)
Definition callerRun (picks : list nat) (c : LocalCall) (b : Bridge) (io : IO)
  : Caller * Bridge * IO :=
  let '(t1, b1, io1, _) := callerStep picks (atBroadcast c) b io in
  let '(t2, b2, io2, _) := callerStep [] t1 b1 io1 in
  let '(t3, b3, io3, _) := callerStep [] t2 b2 io2 in
  (t3, b3, io3).

End Vocabulary.
End bridge.

(** ** Package telegram: the event mapping of the channel adapter *)
Module telegram.
Import strconv.

(** Modelled from the spec: the Telegram API structs (User, Document,
    Sticker, Message, Update) are declared outside the available sources;
    these records carry the fields that channel.go reads, a pointer field
    as an [option]. *)
Record User := mkUser {
  User_ID : Z;
  FirstName : string;
  LastName : string;
  Username : string
}.

Record Document := mkDocument { Document_FileID : string }.
Record Sticker := mkSticker { Sticker_FileID : string }.

#[local] Set Warnings "-register-all".
Inductive Message := mkMessage {
  MessageID : Z;
  From : option User;
  Date : Z;
  ReplyToMessage : option Message;
  NewChatMember : option User;
  LeftChatMember : option User;
  Message_Document : option Document;
  Message_Sticker : option Sticker;
  Text : option string
}.

Record Update := mkUpdate {
  UpdateID : Z;
  Update_Message : option Message;
  EditedMessage : option Message
}.

(** Modelled from the spec: Message.Time is declared outside the available
    sources; it is the origination time of the message, here the number
    in [Date], and a channel's [created] is a number on the same scale. *)
Definition Time (m : Message) : Z := Date m.

(** The fields of Client and channel that the mapping reads: the local
    URL prefix, and the photo file of each known user. *)
Record Client := mkClient {
  localURL : option string;
  users : list (Z * string)
}.

Record channel := mkchannel {
  client : Client;
  created : Z
}.

(** A Go computation that may panic (here: on a nil pointer). *)
Inductive Go (A : Type) :=
| Panic
| Ok (a : A).
Arguments Panic {A}.
Arguments Ok {A} a.

#[global] Instance Go_bind : MBind Go :=
  fun A B f m => match m with Panic => Panic | Ok a => f a end.

Definition notNil {A} (p : option A) : bool :=
  match p with Some _ => true | None => false end.

Section Mapping.
(** Library functions: strings.TrimSpace, and the URL made by url.Parse,
    path.Join and URL.String from a prefix and a file name. *)
Variable TrimSpace : string → string.
Variable joinURL : string → string → string.

Fixpoint lookupUser (us : list (Z * string)) (id : Z) : option string :=
  match us with
  | [] => None
  | (k, photo) :: rest => if decide (k = id) then Some photo else lookupUser rest id
  end.

Definition userPhotoURL (c : Client) (userID : Z) : string * bool :=
  match localURL c, lookupUser (users c) userID with
  | Some url, Some photo => (joinURL url photo, true)
  | _, _ => (EmptyString, false)
  end.

Definition mediaURL (c : Client) (fileID : string) : string * bool :=
  match localURL c with
  | None => (EmptyString, false)
  | Some url => (joinURL url fileID, true)
  end.

(** chatUser assumes that u != nil: it reads [user.FirstName] at once. *)
Definition chatUser (c : Client) (user : option User) : Go chat.User :=
  match user with
  | None => Panic
  | Some user =>
      let name := TrimSpace (FirstName user +:+ " " +:+ LastName user) in
      let nick := if decide (Username user = EmptyString) then name else Username user in
      let photoURL := fst (userPhotoURL c (User_ID user)) in
      Ok (chat.mkUser (Itoa (User_ID user)) nick name name photoURL)
  end.

Definition chatMessageID (m : Message) : chat.MessageID := Itoa (MessageID m).

Definition messageText (m : Message) : string :=
  match Text m with Some t => t | None => EmptyString end.

(** chatMessage assumes that m.From != nil. *)
Definition chatMessage (c : Client) (m : Message) : Go chat.Message :=
  from ← chatUser c (From m);
  Ok (chat.mkMessage (chatMessageID m) from (messageText m)).

Definition hasFrom (m : option Message) : bool :=
  match m with
  | Some r => notNil (From r)
  | None => false
  end.

(** chatEvent: [Ok None] is the nil event of an ignored Update. *)
Definition chatEvent (ch : channel) (u : Update) : Go (option chat.Event) :=
  match Update_Message u, EditedMessage u with
  | Some m, _ =>
      if decide (Time m < created ch)%Z then Ok None
      else if match EditedMessage u with
              | Some e => bool_decide (Time e < created ch)%Z
              | None => false
              end then Ok None
      else if negb (notNil (From m)) then Ok None
      else
        let msg := m in
        if hasFrom (ReplyToMessage msg) then
          match ReplyToMessage msg with
          | Some r =>
              replyTo ← chatMessage (client ch) r;
              reply ← chatMessage (client ch) msg;
              Ok (Some (chat.EvReply replyTo reply))
          | None => Ok None
          end
        else if notNil (NewChatMember msg) then
          who ← chatUser (client ch) (NewChatMember msg);
          Ok (Some (chat.EvJoin who))
        else if notNil (LeftChatMember msg) then
          who ← chatUser (client ch) (NewChatMember msg);
          Ok (Some (chat.EvLeave who))
        else
          match Message_Document msg, Message_Sticker msg, Text msg with
          | Some d, _, _ =>
              let '(url, ok) := mediaURL (client ch) (Document_FileID d) in
              if ok then
                from ← chatUser (client ch) (From msg);
                Ok (Some (chat.EvMessage
                            (chat.mkMessage (chatMessageID msg) from
                               ("/me shared a file: " +:+ url))))
              else Ok None
          | None, Some st, _ =>
              let '(url, ok) := mediaURL (client ch) (Sticker_FileID st) in
              if ok then
                from ← chatUser (client ch) (From msg);
                Ok (Some (chat.EvMessage
                            (chat.mkMessage (chatMessageID msg) from
                               ("/me sent a sticker: " +:+ url))))
              else Ok None
          | None, None, Some _ =>
              m' ← chatMessage (client ch) msg;
              Ok (Some (chat.EvMessage m'))
          | None, None, None => Ok None
          end
  | None, Some e =>
      if decide (Time e < created ch)%Z then Ok None
      else
        let id := chatMessageID e in
        Ok (Some (chat.EvEdit id id (messageText e)))
  | None, None => Ok None
  end.

End Mapping.
End telegram.

(** ** Worked examples: small bridges, backends and updates *)
Module Examples.
Import chat strconv bridge.

(** The text and the sender a send-style call carries. *)
Definition textOf (op : SendOp) : string :=
  match op with
  | OpSend t | OpSendAs _ t | OpReply _ t | OpReplyAs _ _ t => t
  end.

Definition senderOf (op : SendOp) : User :=
  match op with
  | OpSendAs u _ | OpReplyAs u _ _ => u
  | _ => zeroUser
  end.

(** Backends that answer every call: the n-th call of the run returns
    identifier n for a Send, and the old identifier with a plus sign
    appended for an Edit. *)
Definition healthy : Backends := {|
  World := nat;
  User_Name := User_DisplayName;
  backendName := fun n => "room" +:+ Itoa (Z.of_nat n);
  backendServiceName := fun _ => "demo";
  Send := fun ch op w =>
    (S w, inr (mkMessage (Itoa (Z.of_nat w)) (senderOf op) (textOf op)));
  Edit := fun ch id text w => (S w, (id +:+ "+", None));
  Delete := fun ch id w => (S w, None)
|}.

(** The same, but every Send on backend [n] fails with [e]. *)
Definition failing (n : nat) (e : error) : Backends := {|
  World := nat;
  User_Name := User_DisplayName;
  backendName := fun n => "room" +:+ Itoa (Z.of_nat n);
  backendServiceName := fun _ => "demo";
  Send := fun ch op w =>
    if decide (ch = Backend n) then (S w, inl e)
    else (S w, inr (mkMessage (Itoa (Z.of_nat w)) (senderOf op) (textOf op)));
  Edit := fun ch id text w => (S w, (id +:+ "+", None));
  Delete := fun ch id w => (S w, None)
|}.

(** Four bridged channels, two users and a message of each. *)
Definition chA : Channel := Backend 0.
Definition chB : Channel := Backend 1.
Definition chC : Channel := Backend 2.
Definition chD : Channel := Backend 3.

Definition alice : User := mkUser "u1" "alice" "Alice A" "Alice" "".
Definition hi : Message := mkMessage "1" alice "hi".

Definition bob : User := mkUser "u2" "bob" "Bob B" "Bob" "".
Definition hey : Message := mkMessage "7" bob "hey".

(** A Bridge over A, B and C with the Message [hi] of A at the head of
    the queue of mux. *)
Definition startABC `{B : Backends} (w : World) : Sys :=
  set_eventsMux [mkevent chA (EvMessage hi)] (New [chA; chB; chC] w).

(** The copies of [hi] on B and C, and the log entry of its relay from A. *)
Definition hiOnB : Message := mkMessage "0" alice "hi".
Definition hiOnC : Message := mkMessage "1" alice "hi".

Definition hiEntry : logEntry :=
  mklogEntry chA [mkmessage (Some chB) hiOnB; mkmessage (Some chC) hiOnC;
                  mkmessage (Some chA) hi].

(** A Bridge over A, B, C and D whose log holds that entry, without a
    copy on D. *)
Definition bridgeABCD : Bridge := mkBridge [chA; chB; chC; chD] 0 [hiEntry].

(** The healthy backends before any call. *)
Definition io0 : @IO healthy := @mkIO healthy 0 [] [].

(** A new Bridge over A, B and C after the relay of [hi] from A. *)
Definition afterHi : Bridge * @IO healthy * option error :=
  relay (B := healthy) [] (mkBridge [chA; chB; chC] 0 [])
        (mkevent chA (EvMessage hi)) io0.

(** Two callers, a Send and a Reply, taking turns. *)
Definition twoCallers : Callers :=
  mkCallers (B := healthy)
    (atBroadcast <$> [callSend "a"; callReply hi "b"])
    (mkBridge [chA; chB] 0 []) io0 [] [].

(** A Bridge over A and B whose log records [hi] of A with its copy
    [b1] on B. *)
Definition hiOnB1 : Message := mkMessage "b1" alice "hi".

Definition bridgeAB : Bridge :=
  mkBridge [chA; chB] 0
           [mklogEntry chA [mkmessage (Some chB) hiOnB1; mkmessage (Some chA) hi]].

(** The edit of [hi] on A, relayed. *)
Definition afterEdit : Bridge * @IO healthy * option error :=
  relay (B := healthy) [] bridgeAB (mkevent chA (EvEdit "1" "1" "hi!")) io0.

(** The error of a backend that is down. *)
Definition boom : error := backend_error "boom".

End Examples.

Module TelegramExamples.
Import strconv telegram.

Definition carol : User := mkUser 7 "Carol" "C" "carol".
Definition dave : User := mkUser 8 "Dave" "D" "dave".

(** [carol] leaves the chat and [dave] joins it: the messages of the
    Updates Telegram sends, dated after the channel [room] was created. *)
Definition leaveMessage : Message :=
  mkMessage 41 (Some carol) 100 None None (Some carol) None None None.

Definition joinMessage : Message :=
  mkMessage 42 (Some dave) 100 None (Some dave) None None None None.

Definition room : channel := mkchannel (mkClient None []) 50.

(** Stand-ins for the two library functions of the mapping. *)
Definition trim (s : string) : string := s.
Definition join (url file : string) : string := url +:+ "/" +:+ file.

End TelegramExamples.

(** ** More vocabulary for the relay engine *)
Module bridge_more.
Import chat strconv bridge.

(** The channel a request is addressed to. *)
Definition target (q : Request) : Channel :=
  match q with
  | ReqSend ch _ => ch
  | ReqEdit ch _ _ => ch
  | ReqDelete ch _ => ch
  end.

(** The arguments of a call of Send, SendAs, Reply or ReplyAs on the
    Bridge: the user it is sent as, its text, and the Message replied to. *)
Definition sendAsOf (c : LocalCall) : option User :=
  match c with
  | callSend _ => None
  | callSendAs u _ => Some u
  | callReply _ _ => None
  | callReplyAs u _ _ => Some u
  end.

Definition textOfCall (c : LocalCall) : string :=
  match c with
  | callSend t => t
  | callSendAs _ t => t
  | callReply _ t => t
  | callReplyAs _ _ t => t
  end.

Definition replyToOf (c : LocalCall) : option Message :=
  match c with
  | callSend _ => None
  | callSendAs _ _ => None
  | callReply r _ => Some r
  | callReplyAs _ r _ => Some r
  end.

(** The copy a call on the Bridge replies to on channel [ch]: the one the
    log resolves from the Bridge's own copy of the Message replied to. *)
Definition replyCopy (b : Bridge) (c : LocalCall) (ch : Channel) : option Message :=
  match replyToOf c with
  | Some r => copyOn b Self (Message_ID r) ch
  | None => None
  end.

(** The copies the log holds for the Bridge itself carry identifiers the
    counter has already passed. *)
Definition selfFresh (b : Bridge) : Prop :=
  ∀ e c, e ∈ b_log b → c ∈ copies e → to c = Some Self →
         ∃ k, (0 ≤ k < b_nextID b)%Z ∧ Message_ID (msg c) = Itoa k.

(** An entry holds one copy for each bridged channel, and one more for
    the Bridge itself when the Bridge sent the message. *)
Definition complete (b : Bridge) (e : logEntry) : Prop :=
  to <$> copies e ≡ₚ Some <$> b_channels b ∨
  to <$> copies e ≡ₚ Some <$> (b_channels b ++ [Self]).

Definition logComplete (b : Bridge) : Prop := Forall (complete b) (b_log b).


Section Texts.
Context `{B : Backends}.

(** The name relay gives the origin of an event. *)
Definition origName (origin : Channel) : string :=
  Name origin +:+ " on " +:+ ServiceName origin.

(** The texts relay broadcasts for a Join, a Leave and a Rename. *)
Definition joinedText (who : User) (origin : Channel) : string :=
  User_Name who +:+ " joined " +:+ origName origin.

Definition leftText (who : User) (origin : Channel) : string :=
  User_Name who +:+ " left " +:+ origName origin.

Definition renamedText (from to' : User) (origin : Channel) : string :=
  User_Name from +:+ " renamed to " +:+ User_Name to' +:+ " in " +:+ origName origin.

(** The errors editMessage and deleteMessage make of a failed call. *)
Definition editFailed (ch : Channel) (err : error) : error :=
  errors_New ("failed to send edit to " +:+ Name ch +:+ " on "
              +:+ ServiceName ch +:+ ": " +:+ Error err).

Definition deleteFailed (ch : Channel) (err : error) : error :=
  errors_New ("failed to send delete to " +:+ Name ch +:+ " on "
              +:+ ServiceName ch +:+ ": " +:+ Error err).

(** The error a group of Edit or Delete goroutines returns for a call. *)
Definition wrapped (c : Call) : option error :=
  match c with
  | CallSend _ _ _ => None
  | CallEdit ch _ _ r => editFailed ch <$> r.2
  | CallDelete ch _ r => deleteFailed ch <$> r
  end.

(** What a broadcast returns for the calls it made: the error of the
    first call that failed, if any. *)
Definition firstFailure (calls : list Call) (r : option error) : Prop :=
  match r with
  | Some e => ∃ pre c post, calls = pre ++ c :: post ∧ failure c = Some e ∧
                            Forall (fun c => failure c = None) pre
  | None => Forall (fun c => failure c = None) calls
  end.

(** What a group of Edit or Delete goroutines returns for the calls it
    made: nil when none failed, and otherwise what [wrap] makes of the
    channel and the error of the first call that failed. *)
Definition groupError (wrap : Channel → error → error) (calls : list Call)
    (r : option error) : Prop :=
  match r with
  | Some e => ∃ pre c post err,
                calls = pre ++ c :: post ∧
                Forall (fun c => failure c = None) pre ∧
                failure c = Some err ∧ e = wrap (callee c) err
  | None => Forall (fun c => failure c = None) calls
  end.

(** The events the Receive calls of a run handed out, and the events
    its pollers put on eventsMux, each in the order of the run. *)
Definition received (o : list Obs) : list Event :=
  omap (fun ob => match ob with ObsReceive (inr ev) => Some ev | _ => None end) o.

Definition polled (ls : list Label) : list event :=
  omap (fun l => match l with LPoll ch (inr ev) => Some (mkevent ch ev) | _ => None end) ls.

(** What Receive can still hand out: nothing once recv has returned. *)
Definition pending (s : Sys) : list Event :=
  if recvOut_closed s then [] else unreceived s.

(** The context is cancelled by mux returning only, recv returns on a
    cancelled context only, and the events received ([R]), the ones
    pending and the ones still queued for mux make up, in this order, the
    events polled ([P]); once mux has returned, what is queued stays. *)
Definition inOrder (s : Sys) (R P : list Event) : Prop :=
  (cancelled s = true → closeError_closed s = true) ∧
  (recvOut_closed s = true → cancelled s = true) ∧
  ∃ rest, R ++ pending s ++ rest = P ∧
          (closeError_closed s = false → rest = what <$> eventsMux s).

End Texts.
End bridge_more.

(** ** The Telegram client: photos, polling, and the queue of a channel *)
Module telegram_more.
Import strconv chat telegram.

(** Modelled from the spec: PhotoSize is declared outside the available
    sources; the record carries the fields biggestPhoto reads, the
    pointer FileSize as an [option]. *)
Record PhotoSize := mkPhotoSize {
  PhotoSize_FileID : string;
  Width : Z;
  Height : Z;
  FileSize : option Z
}.

Definition megabyte : Z := 1000000.
Definition fileSizeLimit : Z := 20 * megabyte.

(** The guard of the loop of biggestPhoto, and the product it compares. *)
Definition overLimit (ps : PhotoSize) : bool :=
  match FileSize ps with
  | Some n => bool_decide (fileSizeLimit ≤ n)%Z
  | None => false
  end.

Definition area (ps : PhotoSize) : Z := bridge.wrapInt (Width ps * Height ps).

Definition biggestPhoto (photos : list PhotoSize) : string :=
  let '(size, photo) :=
    foldl (fun '(size, photo) ps =>
             if overLimit ps then (size, photo)
             else
               let sz := area ps in
               if decide (size < sz)%Z then (sz, PhotoSize_FileID ps)
               else (size, photo))
          (0%Z, EmptyString) photos in
  if decide (photo = EmptyString) then
    match photos with
    | first :: _ => PhotoSize_FileID first
    | [] => photo
    end
  else photo.

(** Arithmetic of uint64. *)
Definition uint64 (z : Z) : Z := (z mod 2 ^ 64)%Z.

Section Poll.
Context {C : Type}.
(** What update does to the Client for one Update. *)
Variable update : Update → C → C.

(** The loop of poll over the Updates of one response, from the offset
    of the request: the offset of the next request and the Client.
    update itself does not panic here: it sends on the channel in of a
    channel, which Close closes only after poll has returned. *)
Fixpoint pollUpdates (updates : list Update) (offset : Z) (c : C) : Go (Z * C) :=
  match updates with
  | [] => Ok (offset, c)
  | u :: rest =>
      if decide (UpdateID u < offset)%Z then Panic
      else pollUpdates rest (uint64 (UpdateID u + 1)) (update u c)
  end.

End Poll.

(** *** Media files

    Modelled from the spec: File is declared outside the available
    sources; of its fields getMediaURL reads FilePath, a pointer.  A
    time is a number of nanoseconds since the zero Time, which is what
    [expires] holds in a new [media]. *)
Record File := mkFile { FilePath : option string }.

Record media := mkmedia {
  media_File : File;
  expires : Z
}.

Definition zeroMedia : media := mkmedia (mkFile None) 0.

Definition minute : Z := 60 * 1000000000.

(** The map Client.media, and an assignment to one of its keys. *)
Definition Media : Type := string → option media.

Definition setMedia (fileID : string) (m : media) (c : Media) : Media :=
  fun k => if decide (k = fileID) then Some m else c k.

(** The URL getMediaURL makes of an entry. *)
Definition mediaURLOf (token : string) (m : media) : string :=
  match FilePath (media_File m) with
  | Some p => "https://api.telegram.org/file/bot" +:+ token +:+ "/" +:+ p
  | None => EmptyString
  end.

(** getMediaURL at time [now]; [getFile] is what getFile returns if it
    is called, [now'] the time when it has returned. *)
Definition getMediaURL (token : string) (getFile : error + File) (now now' : Z)
    (fileID : string) (c : Media) : Media * (string * option error) :=
  let ok := bool_decide (is_Some (c fileID)) in
  let m := default zeroMedia (c fileID) in
  let c := if ok then c else setMedia fileID m c in
  if negb ok || bool_decide (now < expires m)%Z then
    match getFile with
    | inl err =>
        (setMedia fileID (mkmedia (mkFile None) (expires m)) c,
         (EmptyString, Some err))
    | inr f =>
        let m' := mkmedia f (now' + 50 * minute) in
        (setMedia fileID m' c, (mediaURLOf token m', None))
    end
  else (c, (mediaURLOf token m, None)).

(** *** The queue of a channel

    [cin] is the channel in, of capacity 1, [cbatch] the slice the
    goroutine of newChannel ranges over; out is unbuffered, so an Update
    passes from that goroutine to Receive in one step. *)
Record chanState := mkchanState {
  cin : option (list Update);
  cin_closed : bool;
  cbatch : list Update;
  cout_closed : bool
}.

Definition newChannel : chanState := mkchanState None false [] false.

(** The select at the end of update: the Update joins the slice in [cin].
    Either case of it sends on the channel, which panics once closed. *)
Definition publish (u : Update) (s : chanState) : bridge.Outcome chanState :=
  if cin_closed s then bridge.Panics
  else bridge.Ret (mkchanState (Some (default [] (cin s) ++ [u])) (cin_closed s)
                               (cbatch s) (cout_closed s)).

(** The close of in, by Client.Close. *)
Definition closeIn (s : chanState) : bridge.Outcome chanState :=
  if cin_closed s then bridge.Panics
  else bridge.Ret (mkchanState (cin s) true (cbatch s) (cout_closed s)).

(** The goroutine of newChannel at its range over in; its sends on out
    are [Receive]. *)
Definition forward (s : chanState) : bridge.Outcome chanState :=
  if cout_closed s then bridge.Blocked
  else
    match cbatch s, cin s with
    | [], Some us => bridge.Ret (mkchanState None (cin_closed s) us (cout_closed s))
    | [], None =>
        if cin_closed s
        then bridge.Ret (mkchanState None true [] true)
        else bridge.Blocked
    | _ :: _, _ => bridge.Blocked
    end.

(** One turn of the loop of Receive: it goes round again or returns. *)
Inductive Turn :=
| Continue
| Return (r : error + Event).

Inductive ReceiveCase :=
| Receive_Done (ctxErr : error)
| Receive_out.

Section Receive.
Variable TrimSpace : string → string.
Variable joinURL : string → string → string.

Definition Receive (c : ReceiveCase) (ch : channel) (s : chanState)
  : bridge.Outcome (chanState * Turn) :=
  match c with
  | Receive_Done ctxErr => bridge.Ret (s, Return (inl ctxErr))
  | Receive_out =>
      match cbatch s with
      | u :: rest =>
          let s' := mkchanState (cin s) (cin_closed s) rest (cout_closed s) in
          match chatEvent TrimSpace joinURL ch u with
          | Panic => bridge.Panics
          | Ok None => bridge.Ret (s', Continue)
          | Ok (Some ev) => bridge.Ret (s', Return (inr ev))
          end
      | [] =>
          if cout_closed s then bridge.Ret (s, Return (inl io_EOF))
          else bridge.Blocked
      end
  end.

(** Runs of a channel: the Client publishes and closes, the goroutine
    forwards, and a caller of Receive takes turns of its loop, each with
    the Client and creation time the channel has then. *)
Inductive Action :=
| APublish (u : Update)
| ACloseIn
| AForward
| AReceive (c : ReceiveCase) (ch : channel).

(** What a turn of Receive took off the queue, if anything, and did. *)
Definition Took : Type := option (channel * Update) * Turn.

Definition act (a : Action) (s : chanState) : bridge.Outcome (chanState * list Took) :=
  match a with
  | APublish u =>
      match publish u s with
      | bridge.Ret s' => bridge.Ret (s', [])
      | bridge.Blocked => bridge.Blocked
      | bridge.Panics => bridge.Panics
      end
  | ACloseIn =>
      match closeIn s with
      | bridge.Ret s' => bridge.Ret (s', [])
      | bridge.Blocked => bridge.Blocked
      | bridge.Panics => bridge.Panics
      end
  | AForward =>
      match forward s with
      | bridge.Ret s' => bridge.Ret (s', [])
      | bridge.Blocked => bridge.Blocked
      | bridge.Panics => bridge.Panics
      end
  | AReceive c ch =>
      match Receive c ch s with
      | bridge.Ret (s', t) =>
          bridge.Ret (s', [(match c, cbatch s with
                            | Receive_out, u :: _ => Some (ch, u)
                            | _, _ => None
                            end, t)])
      | bridge.Blocked => bridge.Blocked
      | bridge.Panics => bridge.Panics
      end
  end.

Fixpoint acts (l : list Action) (s : chanState) : bridge.Outcome (chanState * list Took) :=
  match l with
  | [] => bridge.Ret (s, [])
  | a :: rest =>
      match act a s with
      | bridge.Ret (s', o) =>
          match acts rest s' with
          | bridge.Ret (s'', o') => bridge.Ret (s'', o ++ o')
          | bridge.Blocked => bridge.Blocked
          | bridge.Panics => bridge.Panics
          end
      | bridge.Blocked => bridge.Blocked
      | bridge.Panics => bridge.Panics
      end
  end.

(** The event chatEvent makes of an Update, if it makes one. *)
Definition eventOf (cu : channel * Update) : option Event :=
  match chatEvent TrimSpace joinURL cu.1 cu.2 with
  | Ok (Some ev) => Some ev
  | _ => None
  end.

End Receive.

(** The Updates published in a run, the ones the turns of Receive took
    and the events Receive returned. *)
Definition published (l : list Action) : list Update :=
  omap (fun a => match a with APublish u => Some u | _ => None end) l.

Definition taken (o : list Took) : list (channel * Update) := omap fst o.

Definition returned (o : list Took) : list Event :=
  omap (fun t => match t.2 with Return (inr ev) => Some ev | _ => None end) o.

End telegram_more.

(** ** Package chat as the IRC client has it (src/unnamed/part_002) *)
Module chat0.

Record User := mkUser {
  ID : string;
  Nick : string;
  Name : string
}.

Record Message := mkMessage {
  Message_ID : string;
  From : User;
  Text : string
}.


End chat0.

(** ** The IRC client and its channels (src/chat/irc/client.go) *)
Module irc.
Import chat.

(** Modelled from the spec: the IRC Message and the command names are
    declared outside the available sources; the record carries the
    fields the client reads, the commands are parameters below. *)
Record Message := mkMessage {
  Origin : string;
  Command : string;
  Arguments : list string
}.

(** strings.Split(s, "\n"), and strings.Join(l, "\n"). *)
Definition newline : ascii := "010"%char.

Fixpoint Split (s : string) : list string :=
  match s with
  | EmptyString => [EmptyString]
  | String a rest =>
      if decide (a = newline) then EmptyString :: Split rest
      else
        match Split rest with
        | l :: ls => String a l :: ls
        | [] => [String a EmptyString]
        end
  end.


Definition chatUser (nick : string) : chat0.User := chat0.mkUser nick nick nick.

Section Client.
(** The connection; [write cmd args] is what send does to it for one
    message and the error it returns.  [conn] keeps the calls of send. *)
Context {W : Type}.
Variable write : string → list string → W → W * option error.
Variables PING PONG PRIVMSG : string.

Record conn := mkconn {
  world : W;
  sent : list (string * list string)
}.

Definition send (cmd : string) (args : list string) (c : conn) : conn * option error :=
  let '(w, r) := write cmd args (world c) in
  (mkconn w (sent c ++ [(cmd, args)]), r).

(** The connection after the calls [sends] of send. *)
Definition after (sends : list (string * list string)) (w : W) : W :=
  foldl (fun w s => (write s.1 s.2 w).1) w sends.


(** The loop of channel.Send over the lines of the text. *)
Fixpoint sendLines (name : string) (lines : list string) (c : conn)
  : conn * option error :=
  match lines with
  | [] => (c, None)
  | t :: rest =>
      let '(c', r) := send PRIVMSG [name; t] c in
      match r with
      | Some err => (c', Some err)
      | None => sendLines name rest c'
      end
  end.

(** channel.Send, for the channel [name] of a client whose nick is [nick]. *)
Definition Send (name nick text : string) (c : conn) : conn * (error + chat0.Message) :=
  let '(c', r) := sendLines name (Split text) c in
  match r with
  | Some err => (c', inl err)
  | None => (c', inr (chat0.mkMessage text (chatUser nick) text))
  end.

End Client.



End irc.

(** * Properties of the relay engine *)
Module BridgeTheory.
Import chat strconv bridge Examples.

(** ** The correlation log *)

Lemma logMessage_log (b : Bridge) (e : logEntry) :
  b_log (logMessage b e) = take maxHistory (b_log b ++ [e]).
Proof.
  unfold logMessage. case_decide; simpl; [done|].
  rewrite take_ge; [done | lia].
Qed.

Lemma logMessage_channels (b : Bridge) (e : logEntry) :
  b_channels (logMessage b e) = b_channels b.
Proof. unfold logMessage. by case_decide. Qed.

Lemma logMessage_nextID (b : Bridge) (e : logEntry) :
  b_nextID (logMessage b e) = b_nextID b.
Proof. unfold logMessage. by case_decide. Qed.

Lemma logMessage_room (b : Bridge) (e : logEntry) :
  length (b_log b) < maxHistory → b_log (logMessage b e) = b_log b ++ [e].
Proof.
  intros Hlen. rewrite logMessage_log, take_ge; [done|].
  rewrite length_app. simpl. lia.
Qed.

Lemma logMessage_full (b : Bridge) (e : logEntry) :
  length (b_log b) = maxHistory → b_log (logMessage b e) = b_log b.
Proof.
  intros Hlen. rewrite logMessage_log, take_app_le by lia.
  apply take_ge. lia.
Qed.

Lemma logMessage_bound (b : Bridge) (e : logEntry) :
  length (b_log (logMessage b e)) ≤ maxHistory.
Proof. rewrite logMessage_log, length_take. lia. Qed.

Lemma logMessage_frozen (es : list logEntry) (b : Bridge) :
  length (b_log b) = maxHistory → b_log (foldl logMessage b es) = b_log b.
Proof.
  revert b. induction es as [|e es IH]; intros b Hlen; simpl; [done|].
  rewrite IH; rewrite logMessage_full; done.
Qed.

(** ** Scheduling of goroutines *)

Lemma pickOrder_perm {A} (n : nat) (picks : list nat) (l : list A) :
  length l = n → pickOrder n picks l ≡ₚ l.
Proof.
  revert picks l. induction n as [|n IH]; intros picks l Hlen; simpl.
  - by destruct l.
  - assert (Hk : hd 0 picks `mod` length l < length l)
      by (apply Nat.mod_upper_bound; lia).
    destruct (lookup_lt_is_Some_2 _ _ Hk) as [x Hx]. rewrite Hx.
    etrans; [|symmetry; exact (delete_Permutation l _ x Hx)].
    constructor. apply IH.
    rewrite length_delete by eauto. lia.
Qed.

Lemma schedule_perm {A} (picks : list nat) (l : list A) : schedule picks l ≡ₚ l.
Proof. by apply pickOrder_perm. Qed.

Section RelayTheory.
Context `{B : Backends}.

(** ** What a findMessage closure answers *)

Lemma deref_fresh (h : Heap) (c : message) : deref (h ++ [c]) (length h) = msg c.
Proof.
  unfold deref. rewrite lookup_app_r by lia. by rewrite Nat.sub_diag.
Qed.

Lemma makeFindMessage_answers (b : Bridge) (origin : Channel) (id : MessageID) :
  answers (makeFindMessage b origin id) (copyOn b origin id).
Proof.
  intros ch h. unfold makeFindMessage, copyOn.
  destruct (findEntry _ _ _) as [e|]; [|done].
  destruct (findCopy _ _) as [c|]; [|done].
  simpl. by rewrite deref_fresh.
Qed.

Lemma nil_answers : answers (fun _ h => (h, None)) (fun _ => None).
Proof. by intros ch h. Qed.

Lemma sendBody_spec sendAs fm f text ch io :
  answers fm f →
  ∃ r, (sendBody sendAs fm text ch io).2 = r
       ∧ trace (sendBody sendAs fm text ch io).1
         = trace io ++ [CallSend ch (opFor sendAs (f ch) text) r].
Proof.
  intros Hf. unfold sendBody. specialize (Hf ch (heap io)).
  destruct (fm ch (heap io)) as [h p]. simpl in Hf.
  set (op := match p with Some _ => _ | None => _ end).
  assert (op = opFor sendAs (f ch) text) as ->.
  { subst op. rewrite <- Hf. by destruct p, sendAs. }
  destruct (Send _ _ _) as [w r]. by exists r.
Qed.

Lemma keepFirst_assoc a b c : keepFirst (keepFirst a b) c = keepFirst a (keepFirst b c).
Proof. by destruct a. Qed.

(** ** The fan-out of sendMessage *)

Lemma sendAll_spec sendAs fm f text :
  answers fm f →
  ∀ jobs io msgs first,
    NoDup jobs.*1 →
    Forall (fun j => j.1 < length msgs) jobs →
    ∃ results,
      length results = length jobs ∧
      trace (sendAll sendAs fm text jobs io msgs first).1.1
        = trace io ++ zip_with (mkCall sendAs f text) jobs results ∧
      (sendAll sendAs fm text jobs io msgs first).2
        = keepFirst first (firstError results) ∧
      length (sendAll sendAs fm text jobs io msgs first).1.2 = length msgs ∧
      (∀ i, i ∉ jobs.*1 →
            (sendAll sendAs fm text jobs io msgs first).1.2 !! i = msgs !! i) ∧
      (∀ k i ch m,
          jobs !! k = Some (i, ch) → results !! k = Some (inr m) →
          (sendAll sendAs fm text jobs io msgs first).1.2 !! i
          = Some (mkmessage (Some ch) m)).
Proof.
  intros Hf jobs. induction jobs as [|[i ch] jobs IH]; intros io msgs first Hnd Hlt.
  - exists []. simpl. rewrite app_nil_r. unfold firstError. simpl.
    destruct first; repeat split; try done.
  - simpl in Hnd. apply NoDup_cons in Hnd as [Hi Hnd].
    apply Forall_cons in Hlt as [Hilt Hlt]. simpl in Hilt.
    destruct (sendBody_spec sendAs fm f text ch io Hf) as (r & Hr & Htr).
    simpl. destruct (sendBody sendAs fm text ch io) as [io1 r1].
    simpl in Hr, Htr. subst r1.
    destruct r as [err|m].
    + destruct (IH io1 msgs (match first with None => Some err | Some _ => first end)
                  Hnd Hlt) as (results & Hlen & Ht & Hfst & Hl & Hout & Hin).
      exists (inl err :: results). simpl.
      split; [lia|]. split.
      { rewrite Ht, Htr, <- app_assoc. done. }
      split.
      { rewrite Hfst. unfold firstError. simpl. by destruct first. }
      split; [done|]. split.
      { intros i' Hi'. apply Hout. simpl in Hi'.
        by apply not_elem_of_cons in Hi' as [_ ?]. }
      intros [|k] i' ch' m Hj Hres; simpl in *; [done|]. eauto.
    + assert (Hlt' : Forall (fun j => j.1 < length (<[i:=mkmessage (Some ch) m]> msgs)) jobs)
        by (by rewrite length_insert).
      destruct (IH io1 (<[i:=mkmessage (Some ch) m]> msgs) first Hnd Hlt')
        as (results & Hlen & Ht & Hfst & Hl & Hout & Hin).
      exists (inr m :: results). simpl.
      split; [lia|]. split.
      { rewrite Ht, Htr, <- app_assoc. done. }
      split.
      { rewrite Hfst. unfold firstError. simpl. done. }
      split; [by rewrite Hl, length_insert|]. split.
      { intros i' Hi'. simpl in Hi'. apply not_elem_of_cons in Hi' as [Hne Hi'].
        rewrite Hout by done. by apply list_lookup_insert_ne. }
      intros [|k] i' ch' m' Hj Hres; simpl in *.
      * simplify_eq. rewrite Hout by done. by apply list_lookup_insert_eq.
      * eauto.
Qed.

Lemma firstError_None {A} (results : list (error + A)) :
  firstError results = None → ∀ k r, results !! k = Some r → ∃ m, r = inr m.
Proof.
  unfold firstError. induction results as [|[e|m] results IH]; intros Hnone k r Hk.
  - done.
  - done.
  - destruct k as [|k]; simpl in *; [simplify_eq; eauto|]. eauto.
Qed.

Lemma firstError_Some {A} (results : list (error + A)) e :
  firstError results = Some e →
  ∃ k, results !! k = Some (inl e) ∧
       ∀ k' r, k' < k → results !! k' = Some r → ∃ m, r = inr m.
Proof.
  unfold firstError. induction results as [|[e'|m] results IH]; intros Hsome.
  - done.
  - simpl in Hsome. simplify_eq. exists 0. split; [done|]. intros; lia.
  - simpl in Hsome. destruct (IH Hsome) as (k & Hk & Hbefore).
    exists (S k). split; [done|].
    intros [|k'] r Hlt Hr; simpl in *; [simplify_eq; eauto|].
    apply (Hbefore k'); [lia | done].
Qed.

Lemma request_zip sendAs f text (jobs : list (nat * Channel)) results :
  length results = length jobs →
  request <$> zip_with (mkCall sendAs f text) jobs results
  = (fun j => ReqSend j.2 (opFor sendAs (f j.2) text)) <$> jobs.
Proof.
  revert results. induction jobs as [|j jobs IH]; intros [|r results] Hlen;
    simpl in *; try done.
  f_equal. apply IH. lia.
Qed.

Lemma jobs_lookup (channels : list Channel) k i ch :
  imap pair channels !! k = Some (i, ch) ↔ k = i ∧ channels !! i = Some ch.
Proof.
  rewrite list_lookup_imap. destruct (channels !! k) as [c|] eqn:Hk; simpl.
  - split; [intros; by simplify_eq | intros [-> ?]; congruence].
  - split; [done | intros [-> ?]; congruence].
Qed.

Lemma jobs_NoDup (channels : list Channel) : NoDup (imap pair channels).*1.
Proof.
  apply NoDup_alt. intros k1 k2 i H1 H2.
  rewrite list_lookup_fmap in H1, H2.
  destruct (imap pair channels !! k1) as [[i1 c1]|] eqn:E1; [|done].
  destruct (imap pair channels !! k2) as [[i2 c2]|] eqn:E2; [|done].
  apply jobs_lookup in E1 as [-> _]. apply jobs_lookup in E2 as [-> _].
  simpl in *. congruence.
Qed.

Lemma jobs_bound (channels : list Channel) :
  Forall (fun j : nat * Channel => j.1 < length channels) (imap pair channels).
Proof.
  apply Forall_lookup. intros k [i ch] Hk.
  apply jobs_lookup in Hk as [-> Hk]. simpl. by eapply lookup_lt_Some.
Qed.

Lemma jobs_snd (channels : list Channel) : (imap pair channels).*2 = channels.
Proof.
  apply list_eq. intros k. rewrite list_lookup_fmap, list_lookup_imap.
  by destruct (channels !! k).
Qed.

Lemma sendMessage_spec picks channels sendAs fmo f text io :
  answers (default (fun _ h => (h, None)) fmo) f →
  ∃ calls,
    trace (sendMessage picks channels sendAs fmo text io).1 = trace io ++ calls ∧
    request <$> calls ≡ₚ (fun ch => ReqSend ch (opFor sendAs (f ch) text)) <$> channels ∧
    match (sendMessage picks channels sendAs fmo text io).2 with
    | inr msgs =>
        Forall (fun c => failure c = None) calls ∧
        length msgs = length channels ∧
        ∀ i ch, channels !! i = Some ch →
                ∃ m, msgs !! i = Some (mkmessage (Some ch) m) ∧
                     CallSend ch (opFor sendAs (f ch) text) (inr m) ∈ calls
    | inl e =>
        ∃ pre c post, calls = pre ++ c :: post ∧ failure c = Some e ∧
                      Forall (fun c => failure c = None) pre
    end.
Proof.
  intros Hf. unfold sendMessage.
  set (fm := default _ fmo) in *.
  set (jobs := schedule picks (imap pair channels)).
  assert (Hperm : jobs ≡ₚ imap pair channels) by apply schedule_perm.
  assert (Hnd : NoDup jobs.*1) by (rewrite Hperm; apply jobs_NoDup).
  assert (Hlt : Forall (fun j : nat * Channel =>
                          j.1 < length (replicate (length channels) zeromessage)) jobs).
  { rewrite Hperm, length_replicate. apply jobs_bound. }
  destruct (sendAll_spec sendAs fm f text Hf jobs io _ None Hnd Hlt)
    as (results & Hlen & Htr & Hfst & Hl & _ & Hin).
  destruct (sendAll _ _ _ _ _ _ _) as [[io' msgs'] first']. simpl in *.
  exists (zip_with (mkCall sendAs f text) jobs results).
  assert (Hreq : request <$> zip_with (mkCall sendAs f text) jobs results
                 ≡ₚ (fun ch => ReqSend ch (opFor sendAs (f ch) text)) <$> channels).
  { rewrite request_zip by done.
    etrans; [by apply fmap_Permutation|].
    rewrite <- (jobs_snd channels) at 2. by rewrite <- list_fmap_compose. }
  subst first'. destruct (firstError results) as [e|] eqn:Hfe; simpl.
  - split; [done|]. split; [done|].
    destruct (firstError_Some _ _ Hfe) as (k & Hk & Hbefore).
    assert (is_Some (jobs !! k)) as [j Hj].
    { apply lookup_lt_is_Some. rewrite <- Hlen. by eapply lookup_lt_Some. }
    exists (zip_with (mkCall sendAs f text) (take k jobs) (take k results)),
           (mkCall sendAs f text j (inl e)),
           (zip_with (mkCall sendAs f text) (drop (S k) jobs) (drop (S k) results)).
    split.
    { rewrite <- (take_drop_middle jobs k j Hj) at 1.
      rewrite <- (take_drop_middle results k _ Hk) at 1.
      rewrite zip_with_app; [done|].
      rewrite !length_take. lia. }
    split; [done|].
    apply Forall_lookup. intros n c Hn.
    apply lookup_zip_with_Some in Hn as (j' & r' & -> & Hj' & Hr').
    apply lookup_take_Some in Hr' as [Hr' Hnk].
    destruct (Hbefore n r' Hnk Hr') as [m ->]. done.
  - split; [done|]. split; [done|]. split.
    { apply Forall_lookup. intros n c Hn.
      apply lookup_zip_with_Some in Hn as (j' & r' & -> & Hj' & Hr').
      destruct (firstError_None _ Hfe n r' Hr') as [m ->]. done. }
    split; [by rewrite Hl, length_replicate|].
    intros i ch Hi.
    assert ((i, ch) ∈ jobs) as Hjob.
    { rewrite Hperm. apply list_elem_of_lookup. exists i. by apply jobs_lookup. }
    apply list_elem_of_lookup in Hjob as [k Hk].
    assert (is_Some (results !! k)) as [r Hr].
    { apply lookup_lt_is_Some. rewrite Hlen. by eapply lookup_lt_Some. }
    destruct (firstError_None _ Hfe k r Hr) as [m ->].
    exists m. split; [by eapply Hin|].
    apply list_elem_of_lookup. exists k.
    apply lookup_zip_with_Some. by exists (i, ch), (inr m).
Qed.

(** ** The targets of a relay *)

Lemma allChannelsExceptFrom_filter chs exclude :
  allChannelsExceptFrom chs exclude = filter (fun ch => ch ≠ exclude) chs.
Proof.
  induction chs as [|ch chs IH]; simpl; [done|].
  rewrite filter_cons. case_decide; by rewrite IH.
Qed.

Lemma elem_of_allChannelsExcept b exclude ch :
  ch ∈ allChannelsExcept b exclude ↔ ch ∈ b_channels b ∧ ch ≠ exclude.
Proof.
  unfold allChannelsExcept. rewrite allChannelsExceptFrom_filter.
  rewrite list_elem_of_filter. tauto.
Qed.

Lemma NoDup_allChannelsExcept b exclude :
  NoDup (b_channels b) → NoDup (allChannelsExcept b exclude).
Proof.
  unfold allChannelsExcept. rewrite allChannelsExceptFrom_filter.
  apply NoDup_filter.
Qed.

Lemma length_allChannelsExceptFrom chs exclude :
  NoDup chs → exclude ∈ chs →
  length (allChannelsExceptFrom chs exclude) = length chs - 1.
Proof.
  induction chs as [|ch chs IH]; intros Hnd Hin; simpl; [done|].
  apply NoDup_cons in Hnd as [Hch Hnd].
  case_decide as Hne.
  - apply elem_of_cons in Hin as [->|Hin]; [done|].
    simpl. rewrite IH by done.
    destruct chs; [by apply elem_of_nil in Hin | simpl; lia].
  - assert (ch = exclude) as -> by (destruct (decide (ch = exclude)); tauto).
    rewrite allChannelsExceptFrom_filter.
    assert (filter (fun c => c ≠ exclude) chs = chs) as ->; [|lia].
    clear IH Hnd Hin Hne. induction chs as [|c cs IH]; [done|].
    apply not_elem_of_cons in Hch as [Hc Hcs].
    rewrite filter_cons_True by done. by rewrite IH.
Qed.

(** ** Receive hands out what mux has published *)

Lemma run_app ls1 ls2 s :
  run (ls1 ++ ls2) s =
  match run ls1 s with
  | Ret (s', o) =>
      match run ls2 s' with
      | Ret (s'', o') => Ret (s'', o ++ o')
      | Blocked => Blocked
      | Panics => Panics
      end
  | Blocked => Blocked
  | Panics => Panics
  end.
Proof.
  revert s. induction ls1 as [|l ls1 IH]; intros s; simpl.
  - by destruct (run ls2 s) as [| |[s' o]].
  - destruct (step l s) as [| |[s1 o1]]; [done..|].
    rewrite IH. destruct (run ls1 s1) as [| |[s2 o2]]; [done..|].
    destruct (run ls2 s2) as [| |[s3 o3]]; [done..|].
    by rewrite app_assoc.
Qed.

Lemma receive_batch (batch : list Event) (s : Sys) :
  recvOut_closed s = false → recvBatch s = batch →
  run (replicate (length batch) (LReceive Receive_recvOut)) s
  = Ret (set_recvBatch [] s, ObsReceive ∘ inr <$> batch).
Proof.
  revert s. induction batch as [|ev batch IH]; intros s Hopen Hb; simpl.
  - destruct s; simpl in *; by subst.
  - unfold Receive. rewrite Hopen, Hb.
    rewrite (IH (set_recvBatch batch s)) by done. done.
Qed.

Lemma drain_spec (s : Sys) :
  recvOut_closed s = false →
  ∃ s', run (drainLabels s) s = Ret (s', ObsReceive ∘ inr <$> unreceived s)
        ∧ unreceived s' = [] ∧ bridge s' = bridge s ∧ sio s' = sio s.
Proof.
  intros Hopen. unfold drainLabels, unreceived. rewrite run_app.
  rewrite (receive_batch (recvBatch s) s) by done.
  destruct (recvIn s) as [evs|] eqn:Hin; simpl.
  - unfold recv. simpl. rewrite Hopen, Hin.
    rewrite (receive_batch evs) by done. simpl.
    eexists. split; [by rewrite fmap_app|]. done.
  - eexists. split; [by rewrite !app_nil_r|]. simpl. by rewrite Hin.
Qed.

(** ** Relay of a Message *)

(** C1: when mux takes a Message event of origin [A] off its queue, the
    relay calls SendAs (with the original From and Text) exactly once on
    each of the N-1 other channels and on nothing else; if all of them
    return a Message, one entry goes through logMessage, holding each
    target's returned Message in target order and then the original one
    as [A]'s copy, the event is published, and the Receive calls that
    follow hand out everything unreceived, the original event last. *)
Theorem C1_message_broadcast_complete
    (picks : list nat) (s : Sys) (ev : event) (rest : list event) (m : Message) :
  closeError_closed s = false →
  eventsMux s = ev :: rest →
  what ev = EvMessage m →
  NoDup (b_channels (bridge s)) →
  ev_origin ev ∈ b_channels (bridge s) →
  let A := ev_origin ev in
  let targets := allChannelsExcept (bridge s) A in
  let op := OpSendAs (Message_From m) (Message_Text m) in
  length targets = length (b_channels (bridge s)) - 1 ∧
  NoDup targets ∧
  (∀ ch, ch ∈ targets ↔ ch ∈ b_channels (bridge s) ∧ ch ≠ A) ∧
  ∃ s' calls,
    mux mux_eventsMux picks s = Ret s' ∧
    trace (sio s') = trace (sio s) ++ calls ∧
    request <$> calls ≡ₚ (fun ch => ReqSend ch op) <$> targets ∧
    (Forall (fun c => failure c = None) calls →
     ∃ msgs s'',
       length msgs = length targets ∧
       (∀ i ch, targets !! i = Some ch →
                ∃ r, msgs !! i = Some (mkmessage (Some ch) r) ∧
                     CallSend ch op (inr r) ∈ calls) ∧
       bridge s' = logMessage (bridge s)
                     (mklogEntry A (msgs ++ [mkmessage (Some A) m])) ∧
       unreceived s' = unreceived s ++ [EvMessage m] ∧
       (recvOut_closed s = false →
        run (drainLabels s') s'
        = Ret (s'', ObsReceive ∘ inr <$> (unreceived s ++ [EvMessage m])))).
Proof.
  intros Hrun Hq Hwhat Hnd Hin A targets op.
  split; [by apply length_allChannelsExceptFrom|].
  split; [by apply NoDup_allChannelsExcept|].
  split; [apply elem_of_allChannelsExcept|].
  unfold mux. rewrite Hrun, Hq. unfold relay. rewrite Hwhat.
  fold A. fold targets.
  destruct (sendMessage_spec picks targets (Some (Message_From m)) None
              (fun _ => None) (Message_Text m) (sio s) nil_answers)
    as (calls & Htr & Hreq & Hres).
  destruct (sendMessage _ _ _ _ _ _) as [io' [err|msgs]]; simpl in *.
  - eexists _, calls. split; [done|]. split; [done|]. split; [done|].
    intros Hall. destruct Hres as (pre & c & post & -> & Hc & _).
    apply Forall_app in Hall as [_ Hall]. apply Forall_cons in Hall as [Hall _].
    congruence.
  - destruct Hres as (Hok & Hlen & Hmsgs).
    eexists _, calls. split; [done|]. split; [done|]. split; [done|].
    intros _.
    set (s' := set_recvIn _ _).
    assert (Hun : unreceived s' = unreceived s ++ [EvMessage m]).
    { subst s'. unfold unreceived. simpl. by rewrite app_assoc. }
    destruct (recvOut_closed s) eqn:Hopen.
    + exists msgs, s'. by repeat split.
    + destruct (drain_spec s') as (s'' & Hdrain & _); [done|].
      exists msgs, s''. repeat split; try done.
      intros _. by rewrite Hdrain, Hun.
Qed.

(** ** Resolving a message through the log *)

Lemma hasCopy_true cs origin id :
  hasCopy cs origin id = true ↔
  ∃ c, c ∈ cs ∧ to c = Some origin ∧ Message_ID (msg c) = id.
Proof.
  induction cs as [|c cs IH]; simpl.
  - split; [done | intros (c & Hc & _); by apply elem_of_nil in Hc].
  - case_decide as Hc.
    + split; [|done]. intros _. exists c. split; [left | done].
    + rewrite IH. split.
      * intros (c' & Hin & H'). exists c'. split; [by right | done].
      * intros (c' & Hin & H'). apply elem_of_cons in Hin as [->|Hin]; [done|].
        by exists c'.
Qed.

Lemma findEntry_first pre e post origin id :
  Forall (fun e' => hasCopy (copies e') origin id = false) pre →
  hasCopy (copies e) origin id = true →
  findEntry (pre ++ e :: post) origin id = Some e.
Proof.
  intros Hpre He. induction Hpre as [|e' pre Hf _ IH]; simpl.
  - by rewrite He.
  - by rewrite Hf.
Qed.

Lemma findEntry_None l origin id :
  findEntry l origin id = None ↔
  Forall (fun e => hasCopy (copies e) origin id = false) l.
Proof.
  induction l as [|e l IH]; simpl.
  - split; [constructor | done].
  - destruct (hasCopy (copies e) origin id) eqn:He.
    + split; [done|]. intros H. apply Forall_cons in H as [H _]. congruence.
    + rewrite IH. split; [by constructor | by intros [_ ?]%Forall_cons].
Qed.

Lemma findCopy_NoDup cs c ch :
  NoDup (to <$> cs) → c ∈ cs → to c = Some ch → findCopy cs ch = Some c.
Proof.
  induction cs as [|c' cs IH]; intros Hnd Hin Hto; simpl.
  - by apply elem_of_nil in Hin.
  - simpl in Hnd. apply NoDup_cons in Hnd as [Hc' Hnd].
    apply elem_of_cons in Hin as [->|Hin].
    + by rewrite decide_True.
    + rewrite decide_False; [by apply IH|].
      intros Hc. apply Hc'. rewrite Hc, <- Hto. by apply list_elem_of_fmap_2.
Qed.

Lemma findCopy_None cs ch :
  findCopy cs ch = None ↔ ∀ c, c ∈ cs → to c ≠ Some ch.
Proof.
  induction cs as [|c cs IH]; simpl.
  - split; [intros _ c Hc; by apply elem_of_nil in Hc | done].
  - case_decide as Hc.
    + split; [done|]. intros H. exfalso. apply (H c); [left | done].
    + rewrite IH. split.
      * intros H c' [->|Hin]%elem_of_cons; auto.
      * intros H c' Hin. apply H. by right.
Qed.

Lemma findCopy_Some cs ch c :
  findCopy cs ch = Some c → c ∈ cs ∧ to c = Some ch.
Proof.
  induction cs as [|c' cs IH]; simpl; [done|].
  case_decide as Hc.
  - intros [= ->]. split; [left | done].
  - intros H. destruct (IH H). split; [by right | done].
Qed.

(** ** Relay of a Reply *)

(** C2: let the log (in any state) hold the entry of a relayed Message
    with copies [mB] on [B] and [mC] on [C], one copy per channel, and let
    no earlier entry hold a copy on [B] with the identifier of [mB].  A
    Reply then arriving from [B] with that identifier as its target makes
    the relay call, on every target, Reply against the entry's copy for
    it and a plain Send where the entry has none; on [C] that is Reply
    with [mC] and not Send.  When all the calls succeed, an entry for the
    reply broadcast goes through logMessage. *)
Theorem C2_reply_resolves_recorded_copies
    (picks : list nat) (b : Bridge) (io : IO) (B' C : Channel)
    (pre post : list logEntry) (entry : logEntry) (mB mC replyTo reply : Message) :
  b_log b = pre ++ entry :: post →
  Forall (fun e => hasCopy (copies e) B' (Message_ID mB) = false) pre →
  NoDup (to <$> copies entry) →
  mkmessage (Some B') mB ∈ copies entry →
  mkmessage (Some C) mC ∈ copies entry →
  Message_ID replyTo = Message_ID mB →
  NoDup (b_channels b) →
  let targets := allChannelsExcept b B' in
  let text := Message_Text reply in
  let result := relay picks b (mkevent B' (EvReply replyTo reply)) io in
  NoDup targets ∧
  ∃ calls,
    trace result.1.2 = trace io ++ calls ∧
    request <$> calls ≡ₚ (fun ch => ReqSend ch (replyOp entry text ch)) <$> targets ∧
    (C ∈ targets →
     ReqSend C (OpReply mC text) ∈ request <$> calls ∧
     ∀ c, c ∈ calls → callee c = C → request c = ReqSend C (OpReply mC text)) ∧
    (∀ T, T ∈ targets → findCopy (copies entry) T = None →
          ReqSend T (OpSend text) ∈ request <$> calls ∧
          ∀ c, c ∈ calls → callee c = T → request c = ReqSend T (OpSend text)) ∧
    (Forall (fun c => failure c = None) calls →
     ∃ msgs,
       result.2 = None ∧
       length msgs = length targets ∧
       (∀ i ch, targets !! i = Some ch →
                ∃ r, msgs !! i = Some (mkmessage (Some ch) r) ∧
                     CallSend ch (replyOp entry text ch) (inr r) ∈ calls) ∧
       result.1.1 = logMessage b (mklogEntry Self (msgs ++ [mkmessage (Some B') reply]))).
Proof.
  intros Hlog Hpre Hnd HB HC Hid Hchs targets text result.
  split; [by apply NoDup_allChannelsExcept|].
  assert (Hentry : findEntry (b_log b) B' (Message_ID replyTo) = Some entry).
  { rewrite Hlog, Hid. apply findEntry_first; [done|].
    apply hasCopy_true. by exists (mkmessage (Some B') mB). }
  assert (Hcopy : ∀ ch, opFor None (copyOn b B' (Message_ID replyTo) ch) text
                        = replyOp entry text ch).
  { intros ch. unfold copyOn, replyOp. rewrite Hentry.
    by destruct (findCopy (copies entry) ch). }
  assert (HopC : replyOp entry text C = OpReply mC text).
  { unfold replyOp. by rewrite (findCopy_NoDup _ (mkmessage (Some C) mC) C). }
  destruct (sendMessage_spec picks targets None
              (Some (makeFindMessage b B' (Message_ID replyTo)))
              (copyOn b B' (Message_ID replyTo)) text io
              (makeFindMessage_answers b B' (Message_ID replyTo)))
    as (calls & Htr & Hreq & Hres).
  assert (Hreq' : request <$> calls
                  ≡ₚ (fun ch => ReqSend ch (replyOp entry text ch)) <$> targets).
  { rewrite Hreq.
    assert ((fun ch => ReqSend ch (opFor None (copyOn b B' (Message_ID replyTo) ch) text))
              <$> targets
            = (fun ch => ReqSend ch (replyOp entry text ch)) <$> targets) as ->; [|done].
    apply list_fmap_ext. intros i ch _. by rewrite Hcopy. }
  assert (Hwho : ∀ c, c ∈ calls →
                      request c = ReqSend (callee c) (replyOp entry text (callee c))).
  { intros c Hc. apply (list_elem_of_fmap_2 request) in Hc.
    rewrite Hreq' in Hc. apply list_elem_of_fmap in Hc as (ch & Hc & _).
    destruct c; simpl in *; by simplify_eq. }
  assert (Hmem : ∀ T, T ∈ targets →
                      ReqSend T (replyOp entry text T) ∈ request <$> calls).
  { intros T HT. rewrite Hreq'.
    by apply (list_elem_of_fmap_2 (fun ch => ReqSend ch (replyOp entry text ch))). }
  subst result. unfold relay. simpl. fold targets. fold text.
  destruct (sendMessage _ _ _ _ _ _) as [io' [err|msgs]]; simpl in *;
    exists calls; (split; [done|]); (split; [done|]).
  - split.
    { intros HCt. split.
      - rewrite <- HopC. by apply Hmem.
      - intros c Hc <-. by rewrite (Hwho c Hc), HopC. }
    split.
    { intros T HT Hnone.
      assert (replyOp entry text T = OpSend text) as HopT
        by (unfold replyOp; by rewrite Hnone).
      split.
      - rewrite <- HopT. by apply Hmem.
      - intros c Hc <-. by rewrite (Hwho c Hc), HopT. }
    intros Hall. destruct Hres as (p & c & q & -> & Hc & _).
    apply Forall_app in Hall as [_ Hall]. apply Forall_cons in Hall as [Hall _].
    congruence.
  - split.
    { intros HCt. split.
      - rewrite <- HopC. by apply Hmem.
      - intros c Hc <-. by rewrite (Hwho c Hc), HopC. }
    split.
    { intros T HT Hnone.
      assert (replyOp entry text T = OpSend text) as HopT
        by (unfold replyOp; by rewrite Hnone).
      split.
      - rewrite <- HopT. by apply Hmem.
      - intros c Hc <-. by rewrite (Hwho c Hc), HopT. }
    intros _. destruct Hres as (_ & Hlen & Hmsgs).
    exists msgs. repeat split; try done.
    intros i ch Hi. destruct (Hmsgs i ch Hi) as (r & Hr & Hcall).
    exists r. by rewrite <- Hcopy.
Qed.

(** ** Relay of an Edit or a Delete *)

Lemma findEntry_miss l origin id :
  (∀ e c, e ∈ l → c ∈ copies e → ¬ (to c = Some origin ∧ Message_ID (msg c) = id)) →
  findEntry l origin id = None.
Proof.
  intros Hno. apply findEntry_None, Forall_forall. intros e He.
  destruct (hasCopy (copies e) origin id) eqn:Hc; [|done].
  apply hasCopy_true in Hc as (c & Hin & Hc). by destruct (Hno e c He Hin).
Qed.

Lemma runGroup_noop body jobs io first :
  (∀ ch io, body ch io = (io, None)) → runGroup body jobs io first = (io, first).
Proof.
  intros Hbody. revert io first. induction jobs as [|ch jobs IH]; intros io first.
  - done.
  - simpl. rewrite Hbody, IH. by destruct first.
Qed.

Lemma editBody_miss b origin id text ch io :
  findEntry (b_log b) origin id = None →
  editBody (makeFindMessage b origin id) text ch io = (io, None).
Proof.
  intros Hmiss. unfold editBody, makeFindMessage. rewrite Hmiss. by destruct io.
Qed.

Lemma deleteBody_miss b origin id ch io :
  findEntry (b_log b) origin id = None →
  deleteBody (makeFindMessage b origin id) ch io = (io, None).
Proof.
  intros Hmiss. unfold deleteBody, makeFindMessage. rewrite Hmiss. by destruct io.
Qed.

Lemma runGroup_spec body req :
  bodySpec body req →
  ∀ jobs io first,
    ∃ calls,
      trace (runGroup body jobs io first).1 = trace io ++ calls ∧
      request <$> calls = omap req jobs ∧
      (∀ c, c ∈ calls → callee c ∈ jobs ∧ req (callee c) = Some (request c)) ∧
      (Forall (fun c => failure c = None) calls →
       (runGroup body jobs io first).2 = first).
Proof.
  intros Hbody jobs. induction jobs as [|ch jobs IH]; intros io first; simpl.
  - exists []. rewrite app_nil_r. split; [done|]. split; [done|].
    split; [|done]. intros c Hc; by apply elem_of_nil in Hc.
  - pose proof (Hbody ch io) as Hb.
    destruct (body ch io) as [io1 r] eqn:Hbd. simpl in Hb.
    destruct (IH io1 (keepFirst first r)) as (calls & Htr & Hreq & Hwho & Hok).
    destruct (req ch) as [q|] eqn:Hq.
    + destruct Hb as (c0 & Hc & Hrc & Hcc & Hfail).
      exists (c0 :: calls). split; [by rewrite Htr, Hc, <- app_assoc|].
      split; [by rewrite fmap_cons, Hrc, Hreq|].
      split.
      { intros c' [->|Hin]%elem_of_cons.
        - rewrite Hcc. split; [left | by rewrite Hrc].
        - destruct (Hwho c' Hin). split; [by right | done]. }
      intros Hall. apply Forall_cons in Hall as [Hc0 Hall].
      rewrite Hok by done. apply Hfail in Hc0. subst r. by destruct first.
    + destruct Hb as [Hc Hr]. subst r.
      exists calls. split; [by rewrite Htr, Hc|]. split; [done|].
      split.
      { intros c' Hin. destruct (Hwho c' Hin). split; [by right | done]. }
      intros Hall. rewrite Hok by done. by destruct first.
Qed.

Lemma editBody_spec fm f text :
  answers fm f → bodySpec (editBody fm text) (editReq f text).
Proof.
  intros Hf ch io. unfold editBody, editReq.
  specialize (Hf ch (heap io)). destruct (fm ch (heap io)) as [h [p|]];
    simpl in Hf; rewrite <- Hf; simpl; [|done].
  destruct (Edit _ _ _ _) as [w [id' [err|]]]; simpl;
    eexists; (split; [done|]); (split; [done|]); (split; [done|]); done.
Qed.

Lemma deleteBody_spec fm f :
  answers fm f → bodySpec (deleteBody fm) (deleteReq f).
Proof.
  intros Hf ch io. unfold deleteBody, deleteReq.
  specialize (Hf ch (heap io)). destruct (fm ch (heap io)) as [h [p|]];
    simpl in Hf; rewrite <- Hf; simpl; [|done].
  destruct (Delete _ _ _) as [w [err|]]; simpl;
    eexists; (split; [done|]); (split; [done|]); (split; [done|]); done.
Qed.

Lemma group_calls body req picks channels io :
  bodySpec body req →
  ∃ calls,
    trace (runGroup body (schedule picks channels) io None).1 = trace io ++ calls ∧
    request <$> calls ≡ₚ omap req channels ∧
    (∀ T, req T = None → ∀ c, c ∈ calls → callee c ≠ T) ∧
    (Forall (fun c => failure c = None) calls →
     (runGroup body (schedule picks channels) io None).2 = None).
Proof.
  intros Hbody.
  destruct (runGroup_spec body req Hbody (schedule picks channels) io None)
    as (calls & Htr & Hreq & Hwho & Hok).
  exists calls. split; [done|]. split.
  { rewrite Hreq. apply omap_Permutation, schedule_perm. }
  split; [|done].
  intros T HT c Hc <-. destruct (Hwho c Hc) as [_ Hsome]. congruence.
Qed.

(** C6: an Edit or Delete whose identifier is on no copy of its origin
    channel in any log entry is relayed with no backend call at all and
    without error, leaving Bridge and backends as they were.  In any
    case the relay calls Edit (Delete) once on each target for which the
    resolved entry holds a copy, on that copy's identifier, and makes no
    call on a target without a copy; it returns no error when the calls
    it made succeeded. *)
Theorem C6_edit_delete_miss_is_noop
    (picks : list nat) (b : Bridge) (origin : Channel) (id newID : MessageID)
    (text : string) (io : IO) :
  let edit := relay picks b (mkevent origin (EvEdit id newID text)) io in
  let del := relay picks b (mkevent origin (EvDelete id)) io in
  let targets := allChannelsExcept b origin in
  let copy := copyOn b origin id in
  ((∀ e c, e ∈ b_log b → c ∈ copies e →
           ¬ (to c = Some origin ∧ Message_ID (msg c) = id)) →
   edit = (b, io, None) ∧ del = (b, io, None)) ∧
  (∃ calls,
     trace edit.1.2 = trace io ++ calls ∧
     request <$> calls ≡ₚ omap (editReq copy text) targets ∧
     (∀ T, copy T = None → ∀ c, c ∈ calls → callee c ≠ T) ∧
     (Forall (fun c => failure c = None) calls → edit.2 = None)) ∧
  (∃ calls,
     trace del.1.2 = trace io ++ calls ∧
     request <$> calls ≡ₚ omap (deleteReq copy) targets ∧
     (∀ T, copy T = None → ∀ c, c ∈ calls → callee c ≠ T) ∧
     (Forall (fun c => failure c = None) calls → del.2 = None)).
Proof.
  intros edit del targets copy. split; [|split].
  - intros Hno. apply findEntry_miss in Hno.
    subst edit del. unfold relay, editMessage, deleteMessage. simpl.
    rewrite !runGroup_noop; [done | |].
    + intros ch io0. by apply deleteBody_miss.
    + intros ch io0. by apply editBody_miss.
  - destruct (group_calls _ _ picks targets io
                (editBody_spec _ _ text (makeFindMessage_answers b origin id)))
      as (calls & Htr & Hreq & Hnone & Hok).
    exists calls. subst edit. unfold relay, editMessage. simpl. fold targets.
    destruct (runGroup _ _ _ _) as [io' r]. simpl in *.
    split; [done|]. split; [done|]. split; [|done].
    intros T HT. apply Hnone. unfold editReq. subst copy. by rewrite HT.
  - destruct (group_calls _ _ picks targets io
                (deleteBody_spec _ _ (makeFindMessage_answers b origin id)))
      as (calls & Htr & Hreq & Hnone & Hok).
    exists calls. subst del. unfold relay, deleteMessage. simpl. fold targets.
    destruct (runGroup _ _ _ _) as [io' r]. simpl in *.
    split; [done|]. split; [done|]. split; [|done].
    intros T HT. apply Hnone. unfold deleteReq. subst copy. by rewrite HT.
Qed.

(** An Edit relay hands the Bridge back as it took it: nothing of what
    the targets' Edit calls returned reaches the log. *)
Lemma relay_Edit_bridge picks b origin id newID text io :
  (relay picks b (mkevent origin (EvEdit id newID text)) io).1.1 = b.
Proof.
  unfold relay. simpl. by destruct (editMessage _ _ _ _ _).
Qed.

(** ** Once mux has returned *)

Lemma step_after_mux l s s' o :
  closeError_closed s = true → step l s = Ret (s', o) →
  closeError_closed s' = true ∧ sio s' = sio s ∧ bridge s' = bridge s ∧
  (closeError s' = closeError s ∨ closeError s' = None).
Proof.
  intros Hret Hstep. destruct l as [ch r|c picks|c|c| |]; simpl in Hstep.
  - unfold poll in Hstep. case_decide; [|done].
    destruct r as [err|ev].
    + case_decide; simplify_eq; simpl; [by auto|].
      destruct (pollError s); simpl; by auto.
    + case_decide; simplify_eq; simpl; by auto.
  - unfold mux in Hstep. by rewrite Hret in Hstep.
  - unfold recv in Hstep. destruct (recvOut_closed s); [done|].
    destruct c.
    + destruct (cancelled s); simplify_eq; simpl; by auto.
    + destruct (recvBatch s), (recvIn s); simplify_eq; simpl; by auto.
  - unfold Receive in Hstep. destruct c; [simplify_eq; by auto|].
    destruct (recvOut_closed s); [simplify_eq; by auto|].
    destruct (recvBatch s); simplify_eq; simpl; by auto.
  - unfold Close_signal in Hstep. destruct (closed s); simplify_eq; simpl; by auto.
  - unfold Close_wait in Hstep. destruct (closeError s) eqn:Hce.
    + simplify_eq; simpl; by auto.
    + rewrite Hret in Hstep. simplify_eq; by auto.
Qed.

Lemma run_after_mux ls s s' o :
  closeError_closed s = true → run ls s = Ret (s', o) →
  closeError_closed s' = true ∧ sio s' = sio s ∧ bridge s' = bridge s ∧
  (closeError s' = closeError s ∨ closeError s' = None).
Proof.
  revert s o. induction ls as [|l ls IH]; intros s o Hret Hrun; simpl in Hrun.
  - simplify_eq. by auto.
  - destruct (step l s) as [| |[s1 o1]] eqn:Hstep; [done..|].
    destruct (run ls s1) as [| |[s2 o2]] eqn:Hrest; [done..|]. simplify_eq.
    destruct (step_after_mux _ _ _ _ Hret Hstep) as (H1 & H2 & H3 & H4).
    destruct (IH _ _ H1 Hrest) as (H1' & H2' & H3' & H4').
    split; [done|]. split; [congruence|]. split; [congruence|].
    destruct H4' as [H4'|H4']; [|by right].
    destruct H4 as [H4|H4]; [left | right]; congruence.
Qed.

(** C5, as the code has it: when a target's send fails during a Message
    broadcast, the relay returns the error of the first call that
    failed; mux puts it into closeError and returns (closing closeError
    and cancelling the context) without logging or publishing the event;
    from then on no turn of mux runs, so whatever else is queued is never
    relayed and no backend is called again, and closeError is never
    written again.  Close then returns that error, except that io.EOF
    comes back as the new error with text unexpected EOF. *)
Theorem C5_send_failure_is_terminal
    (picks : list nat) (s : Sys) (ev : event) (rest : list event) (m : Message) :
  closeError_closed s = false →
  eventsMux s = ev :: rest →
  what ev = EvMessage m →
  ∃ s' calls,
    mux mux_eventsMux picks s = Ret s' ∧
    trace (sio s') = trace (sio s) ++ calls ∧
    (Exists (fun c => failure c ≠ None) calls →
     ∃ err pre c post,
       calls = pre ++ c :: post ∧ failure c = Some err ∧
       Forall (fun c => failure c = None) pre ∧
       (relay picks (bridge s) ev (sio s)).2 = Some err ∧
       closeError s' = Some err ∧ closeError_closed s' = true ∧
       cancelled s' = true ∧
       bridge s' = bridge s ∧ recvIn s' = recvIn s ∧ eventsMux s' = rest ∧
       (∀ c' picks', mux c' picks' s' = Blocked) ∧
       (∀ ls s'' o, run ls s' = Ret (s'', o) →
                    (∀ c' picks', mux c' picks' s'' = Blocked) ∧
                    sio s'' = sio s' ∧ bridge s'' = bridge s' ∧
                    (closeError s'' = Some err ∨ closeError s'' = None)) ∧
       Close_wait (set_closed true s')
       = Ret (set_closeError None (set_closed true s'), Some (closeResult err)) ∧
       (err ≠ io_EOF → closeResult err = err) ∧
       (err = io_EOF → closeResult err = errors_New "unexpected EOF")).
Proof.
  intros Hrun Hq Hwhat.
  unfold mux. rewrite Hrun, Hq. unfold relay. rewrite Hwhat.
  destruct (sendMessage_spec picks (allChannelsExcept (bridge s) (ev_origin ev))
              (Some (Message_From m)) None (fun _ => None) (Message_Text m)
              (sio s) nil_answers) as (calls & Htr & _ & Hres).
  destruct (sendMessage _ _ _ _ _ _) as [io' [err|msgs]]; simpl in *.
  - eexists _, calls. split; [done|]. split; [done|]. intros _.
    destruct Hres as (pre & c & post & Hcalls & Hc & Hpre).
    exists err, pre, c, post. split_and!; try done;
      try (intros Herr; unfold closeResult; by case_decide).
    intros ls s'' o Hls.
    apply run_after_mux in Hls as (Hret & Hio & Hb & Hce); [|done].
    split_and!; try done.
    intros c' picks'. unfold mux. by rewrite Hret.
  - eexists _, calls. split; [done|]. split; [done|]. intros Hex.
    destruct Hres as (Hok & _). apply Exists_exists in Hex as (c & Hin & Hc).
    rewrite Forall_forall in Hok. by destruct (Hc (Hok c Hin)).
Qed.

(** ** The pollers *)

Lemma stopPolling_NoDup ch l : NoDup l → ch ∉ stopPolling ch l.
Proof.
  induction l as [|c l IH]; intros Hnd; simpl.
  - apply not_elem_of_nil.
  - apply NoDup_cons in Hnd as [Hc Hnd]. case_decide as Heq.
    + by subst.
    + apply not_elem_of_cons. split; [done | by apply IH].
Qed.

Lemma polls_keep_error ls s s' o first :
  Forall isPoll ls → pollError s = Some first → run ls s = Ret (s', o) →
  pollError s' = Some first ∧ closeError s' = closeError s ∧
  closeError_closed s' = closeError_closed s.
Proof.
  intros Hls. revert s o. induction Hls as [|l ls Hl _ IH]; intros s o Hfirst Hrun.
  - simpl in Hrun. by simplify_eq.
  - simpl in Hrun. destruct l as [ch r| | | | |]; try done. simpl in Hrun.
    destruct (poll ch r s) as [| |s1] eqn:Hpoll; [done..|].
    destruct (run ls s1) as [| |[s2 o2]] eqn:Hrest; [done..|]. simplify_eq.
    assert (pollError s1 = Some first ∧ closeError s1 = closeError s ∧
            closeError_closed s1 = closeError_closed s) as (H1 & H2 & H3).
    { unfold poll in Hpoll. case_decide; [|done].
      destruct r as [err|ev].
      - case_decide; simplify_eq; simpl; [done|]. by rewrite Hfirst.
      - case_decide; by simplify_eq. }
    destruct (IH _ _ H1 Hrest) as (? & ? & ?). split_and!; congruence.
Qed.

Lemma step_pollError l s s' o :
  step l s = Ret (s', o) → closeError_closed s' = false →
  pollError s' = keepFirst (pollError s) (reports l).
Proof.
  intros Hstep Hrun. destruct l as [ch r|c picks|c|c| |]; simpl in Hstep.
  - unfold poll in Hstep. case_decide; [|done].
    destruct r as [err|ev]; simpl.
    + destruct (decide (err = context_Canceled ∨ err = context_DeadlineExceeded));
        destruct (pollError s) eqn:Hpe; simplify_eq/=; by rewrite ?Hpe.
    + case_decide; destruct (pollError s) eqn:Hpe; simplify_eq/=; by rewrite ?Hpe.
  - unfold mux in Hstep. destruct (closeError_closed s); [done|].
    destruct c.
    + destruct (closed s); by simplify_eq/=.
    + destruct (pollError s); by simplify_eq/=.
    + destruct (eventsMux s) as [|ev rest]; [done|].
      destruct (relay picks (bridge s) ev (sio s)) as [[b' io'] [err|]];
        destruct (pollError s) eqn:Hpe; simplify_eq/=; by rewrite ?Hpe.
  - unfold recv in Hstep. destruct (recvOut_closed s); [done|].
    destruct c.
    + destruct (cancelled s), (pollError s) eqn:Hpe; simplify_eq/=; by rewrite ?Hpe.
    + destruct (recvBatch s), (recvIn s), (pollError s) eqn:Hpe;
        simplify_eq/=; by rewrite ?Hpe.
  - unfold Receive in Hstep. destruct c.
    + simplify_eq/=. by destruct (pollError s').
    + destruct (recvOut_closed s), (recvBatch s), (pollError s) eqn:Hpe;
        simplify_eq/=; by rewrite ?Hpe.
  - unfold Close_signal in Hstep.
    destruct (closed s), (pollError s) eqn:Hpe; simplify_eq/=; by rewrite ?Hpe.
  - unfold Close_wait in Hstep.
    destruct (closeError s), (closeError_closed s), (pollError s) eqn:Hpe;
      simplify_eq/=; by rewrite ?Hpe.
Qed.

Lemma run_pollError ls s s' o :
  run ls s = Ret (s', o) → closeError_closed s' = false →
  pollError s' = keepFirst (pollError s) (firstReport ls).
Proof.
  revert s o. induction ls as [|l ls IH]; intros s o Hrun Hmux; simpl in Hrun.
  - simplify_eq. by destruct (pollError s').
  - destruct (step l s) as [| |[s1 o1]] eqn:Hstep; [done..|].
    destruct (run ls s1) as [| |[s2 o2]] eqn:Hrest; [done..|]. simplify_eq.
    assert (Hmux1 : closeError_closed s1 = false).
    { destruct (closeError_closed s1) eqn:Hc; [|done].
      apply (run_after_mux _ _ _ _ Hc) in Hrest as [? _]. congruence. }
    rewrite (IH _ _ Hrest Hmux), (step_pollError _ _ _ _ Hstep Hmux1).
    rewrite keepFirst_assoc. f_equal. unfold firstReport. csimpl.
    by destruct (reports l).
Qed.

(** C9: a poller whose Receive fails never blocks and returns.  On a
    cancellation or deadline error it leaves pollError as it was.  On any
    other error it puts the error into pollError if that is empty and
    drops it otherwise; the error then in pollError survives whatever
    the pollers do next, and it is the one mux forwards to closeError.
    Over any run of the Bridge, the error mux forwards from pollError is
    the first one any poller reported. *)
Theorem C9_poll_first_error_wins (ch : Channel) (err : error) (s : Sys) :
  ch ∈ polling s →
  NoDup (polling s) →
  ∃ s',
    poll ch (inl err) s = Ret s' ∧
    polling s' = stopPolling ch (polling s) ∧ (ch ∉ polling s') ∧
    (∀ r, poll ch r s' = Blocked) ∧
    bridge s' = bridge s ∧ sio s' = sio s ∧ eventsMux s' = eventsMux s ∧
    closeError s' = closeError s ∧
    (err = context_Canceled ∨ err = context_DeadlineExceeded →
     pollError s' = pollError s) ∧
    (err ≠ context_Canceled → err ≠ context_DeadlineExceeded →
     ∃ first,
       pollError s' = Some first ∧
       first = default err (pollError s) ∧
       (∀ ls s'' o, Forall isPoll ls → run ls s' = Ret (s'', o) →
                    pollError s'' = Some first) ∧
       (closeError_closed s' = false →
        ∀ picks, ∃ s2, mux mux_pollError picks s' = Ret s2 ∧
                       closeError s2 = Some first ∧
                       closeError_closed s2 = true ∧ cancelled s2 = true)) ∧
    (pollError s = None →
     ∀ ls s1 o picks s2,
       run ls s = Ret (s1, o) → mux mux_pollError picks s1 = Ret s2 →
       ∃ first, firstReport ls = Some first ∧ closeError s2 = Some first).
Proof.
  intros Hin Hnd.
  assert (Hsys : pollError s = None →
     ∀ ls s1 o picks s2,
       run ls s = Ret (s1, o) → mux mux_pollError picks s1 = Ret s2 →
       ∃ first, firstReport ls = Some first ∧ closeError s2 = Some first).
  { intros Hnone ls s1 o picks s2 Hrun Hfwd. unfold mux in Hfwd.
    destruct (closeError_closed s1) eqn:Hmux; [done|].
    rewrite (run_pollError _ _ _ _ Hrun Hmux), Hnone in Hfwd. simpl in Hfwd.
    destruct (firstReport ls) as [first|]; [|done].
    exists first. split; [done|]. by simplify_eq. }
  unfold poll at 1 2. rewrite decide_True by done.
  assert (Hgone : ch ∉ stopPolling ch (polling s)) by (apply stopPolling_NoDup; exact Hnd).
  case_decide as Hctx.
  - eexists. split; [done|]. simpl. split_and!; try done.
    + intros r. by rewrite decide_False.
    + intros H1 H2. tauto.
  - eexists. split; [done|].
    destruct (pollError s) as [first|] eqn:Hpe; simpl; rewrite ?Hpe;
      (split_and!; try done; try (intros r; by rewrite decide_False);
       try (intros Hc; by destruct (Hctx Hc)));
      intros _ _; eexists; (split; [done|]); (split; [done|]); split.
    + intros ls s'' o Hls Hrun.
      eapply polls_keep_error in Hrun as [? _]; [done | done | by simpl].
    + intros Hmux picks. simpl in Hmux. unfold mux. simpl. rewrite Hmux, Hpe. eauto.
    + intros ls s'' o Hls Hrun.
      eapply polls_keep_error in Hrun as [? _]; [done | done | by simpl].
    + intros Hmux picks. simpl in Hmux. unfold mux. simpl. rewrite Hmux. eauto.
Qed.

(** ** Close *)

(** C10: io.EOF from a bridged channel's Receive is an error like any
    other to the poller: it goes to pollError, mux forwards it and
    returns, cancelling the context.  Close then returns a new error
    with text unexpected EOF; Close never returns io.EOF; and when mux
    returns on the close signal, Close returns nil. *)
Theorem C10_EOF_is_fatal_and_rewritten (ch : Channel) (s : Sys) (picks : list nat) :
  ch ∈ polling s →
  pollError s = None →
  closeError_closed s = false →
  closeError s = None →
  (∃ s1 s2,
     poll ch (inl io_EOF) s = Ret s1 ∧ pollError s1 = Some io_EOF ∧
     mux mux_pollError picks s1 = Ret s2 ∧
     closeError s2 = Some io_EOF ∧ closeError_closed s2 = true ∧
     cancelled s2 = true ∧
     Close_wait (set_closed true s2)
     = Ret (set_closeError None (set_closed true s2),
            Some (errors_New "unexpected EOF"))) ∧
  (∀ s0 s3 r, Close_wait s0 = Ret (s3, r) → r ≠ Some io_EOF) ∧
  (closed s = false →
   ∃ s3, run [LCloseSignal; LMux mux_closed picks; LCloseWait] s
         = Ret (s3, [ObsClose None])).
Proof.
  intros Hin Hpe Hmux Hce. split_and!.
  - unfold poll. rewrite decide_True by done. rewrite decide_False by (by intros [?|?]).
    rewrite Hpe. eexists _, _. split; [done|]. split; [done|].
    unfold mux. simpl. rewrite Hmux. done.
  - intros s0 s3 r. unfold Close_wait. destruct (closeError s0) as [e|].
    + intros [= <- <-]. case_decide; congruence.
    + destruct (closeError_closed s0); [|done]. by intros [= <- <-].
  - intros Hclosed. simpl. unfold Close_signal. rewrite Hclosed.
    unfold mux. simpl. rewrite Hmux. unfold Close_wait. simpl. rewrite Hce. eauto.
Qed.

(** ** The log under the relay and the send methods *)

Lemma relay_bridge picks b ev io :
  (relay picks b ev io).1.1 = b ∨
  ∃ e, (relay picks b ev io).1.1 = logMessage b e.
Proof.
  unfold relay. destruct (what ev) as [m|rt rp|id|id nid text|who|who|from to'|].
  - destruct (sendMessage _ _ _ _ _ _) as [io' [err|msgs]]; simpl; eauto.
  - destruct (sendMessage _ _ _ _ _ _) as [io' [err|msgs]]; simpl; eauto.
  - destruct (deleteMessage _ _ _ _) as [io' r]; simpl; eauto.
  - destruct (editMessage _ _ _ _ _) as [io' r]; simpl; eauto.
  - destruct (sendMessage _ _ _ _ _ _) as [io' r]; simpl; eauto.
  - destruct (sendMessage _ _ _ _ _ _) as [io' r]; simpl; eauto.
  - case_decide; [by left|].
    destruct (sendMessage _ _ _ _ _ _) as [io' r]; simpl; eauto.
  - by left.
Qed.

Lemma method_bridge picks c b io :
  b_log (method picks c b io).1.1 = b_log b ∨
  ∃ e, b_log (method picks c b io).1.1 = b_log (logMessage b e).
Proof.
  destruct c; cbn [method];
    unfold Bridge_Send, Bridge_SendAs, Bridge_Reply, Bridge_ReplyAs;
    destruct (sendMessage _ _ _ _ _ _) as [io' [err|msgs]]; simpl; eauto;
    right; eexists; by rewrite !logMessage_log.
Qed.

Lemma step_log_bound l s s' o :
  step l s = Ret (s', o) → length (b_log (bridge s)) ≤ maxHistory →
  length (b_log (bridge s')) ≤ maxHistory.
Proof.
  intros Hstep Hlen. destruct l as [ch r|c picks|c|c| |]; simpl in Hstep.
  - unfold poll in Hstep. case_decide; [|done].
    destruct r as [err|ev]; repeat case_decide; destruct (pollError s);
      by simplify_eq/=.
  - unfold mux in Hstep. destruct (closeError_closed s); [done|].
    destruct c.
    + destruct (closed s); by simplify_eq/=.
    + destruct (pollError s); by simplify_eq/=.
    + destruct (eventsMux s) as [|ev rest]; [done|].
      pose proof (relay_bridge picks (bridge s) ev (sio s)) as Hb.
      destruct (relay picks (bridge s) ev (sio s)) as [[b' io'] [err|]];
        simplify_eq/=; destruct Hb as [->|[e ->]]; try done;
        apply logMessage_bound.
  - unfold recv in Hstep. destruct (recvOut_closed s); [done|].
    destruct c.
    + destruct (cancelled s); by simplify_eq/=.
    + destruct (recvBatch s), (recvIn s); by simplify_eq/=.
  - unfold Receive in Hstep. destruct c; [by simplify_eq/=|].
    destruct (recvOut_closed s), (recvBatch s); by simplify_eq/=.
  - unfold Close_signal in Hstep. destruct (closed s); by simplify_eq/=.
  - unfold Close_wait in Hstep.
    destruct (closeError s), (closeError_closed s); by simplify_eq/=.
Qed.

Lemma run_log_bound ls s s' o :
  run ls s = Ret (s', o) → length (b_log (bridge s)) ≤ maxHistory →
  length (b_log (bridge s')) ≤ maxHistory.
Proof.
  revert s o. induction ls as [|l ls IH]; intros s o Hrun Hlen; simpl in Hrun.
  - by simplify_eq.
  - destruct (step l s) as [| |[s1 o1]] eqn:Hstep; [done..|].
    destruct (run ls s1) as [| |[s2 o2]] eqn:Hrest; [done..|]. simplify_eq.
    eapply IH; [done|]. by eapply step_log_bound.
Qed.

(** C3: the log never holds more than 500 entries: logMessage leaves at
    most 500, the relay and the four send methods change the log through
    logMessage only, and no run of a new Bridge reaches a longer log.  An
    append that takes the log past 500 cuts it back to its first 500
    entries, so on a full log the entry just appended is the one
    dropped, and the 500 entries of a full log stay as they are under
    any further appends. *)
Theorem C3_log_capped_at_first_500 :
  (∀ b e, length (b_log (logMessage b e)) ≤ 500) ∧
  (∀ b e, 500 < length (b_log b ++ [e]) →
          b_log (logMessage b e) = take 500 (b_log b ++ [e])) ∧
  (∀ b e, length (b_log b) = 500 → b_log (logMessage b e) = b_log b) ∧
  (∀ b es, length (b_log b) = 500 → b_log (foldl logMessage b es) = b_log b) ∧
  (∀ b e, length (b_log b) < 500 → b_log (logMessage b e) = b_log b ++ [e]) ∧
  (∀ picks b ev io,
      (relay picks b ev io).1.1 = b ∨
      ∃ e, (relay picks b ev io).1.1 = logMessage b e) ∧
  (∀ picks c b io,
      b_log (method picks c b io).1.1 = b_log b ∨
      ∃ e, b_log (method picks c b io).1.1 = b_log (logMessage b e)) ∧
  (∀ channels w ls s' o,
      run ls (New channels w) = Ret (s', o) → length (b_log (bridge s')) ≤ 500).
Proof.
  split; [exact logMessage_bound|].
  split; [intros b e _; apply logMessage_log|].
  split; [exact logMessage_full|].
  split; [intros b es; apply logMessage_frozen|].
  split; [exact logMessage_room|].
  split; [exact relay_bridge|].
  split; [exact method_bridge|].
  intros channels w ls s' o Hrun.
  eapply run_log_bound; [done|]. simpl. unfold maxHistory. lia.
Qed.

(** ** Identifiers issued by the Bridge *)

Lemma Atoi_Itoa (z : Z) : Atoi (Itoa z) = Some z.
Proof.
  unfold Atoi, Itoa. rewrite NilZero.isi.
  - simpl. by rewrite DecimalZ.of_to.
  - destruct z; simpl; try done.
    intros [= H]. by apply Unsigned.to_uint_nonnil in H.
  - destruct z; simpl; try done.
    intros [= H]. by apply Unsigned.to_uint_nonnil in H.
Qed.

Lemma Itoa_inj (x y : Z) : Itoa x = Itoa y → x = y.
Proof.
  intros H. apply (f_equal Atoi) in H. rewrite !Atoi_Itoa in H. congruence.
Qed.

Lemma wrapInt_id (z : Z) : (- 2 ^ 63 ≤ z < 2 ^ 63)%Z → wrapInt z = z.
Proof.
  intros Hz. unfold wrapInt.
  change (2 ^ 64)%Z with (2 * 2 ^ 63)%Z.
  set (p := (2 ^ 63)%Z) in *.
  rewrite Z.mod_small; lia.
Qed.

Lemma nextID_spec (b : Bridge) :
  (0 ≤ b_nextID b < 2 ^ 63 - 1)%Z →
  nextID b = (mkBridge (b_channels b) (b_nextID b + 1) (b_log b), Itoa (b_nextID b)).
Proof.
  intros Hn. unfold nextID. rewrite (wrapInt_id (b_nextID b + 1)) by lia.
  rewrite wrapInt_id by lia. do 2 f_equal. lia.
Qed.

Lemma length_omap_le {A C} (f : A → option C) (l : list A) :
  length (omap f l) ≤ length l.
Proof.
  induction l as [|x l IH]; csimpl; [done|]. destruct (f x); csimpl; lia.
Qed.

Lemma insert_middle {A} (l : list A) i x y :
  l !! i = Some x →
  ∃ pre post, l = pre ++ x :: post ∧ <[i:=y]> l = pre ++ y :: post.
Proof.
  intros Hi. exists (take i l), (drop (S i) l). split.
  - symmetry. by apply take_drop_middle.
  - apply insert_take_drop. by eapply lookup_lt_Some.
Qed.

Lemma omap_insert_same {A C} (f : A → option C) (l : list A) i x y :
  l !! i = Some x → f y = f x → omap f (<[i:=y]> l) = omap f l.
Proof.
  intros Hi Hf. destruct (insert_middle l i x y Hi) as (pre & post & -> & ->).
  rewrite !omap_app. csimpl. by rewrite Hf.
Qed.

Lemma omap_insert_new {A C} (f : A → option C) (l : list A) i x y v :
  l !! i = Some x → f x = None → f y = Some v →
  omap f (<[i:=y]> l) ≡ₚ omap f l ++ [v] ∧ length (omap f l) < length l.
Proof.
  intros Hi Hx Hy. destruct (insert_middle l i x y Hi) as (pre & post & -> & ->).
  rewrite !omap_app. csimpl. rewrite Hx, Hy. split.
  - rewrite <- app_assoc. apply Permutation_app; [done|].
    apply Permutation_cons_append.
  - rewrite !length_app. csimpl.
    pose proof (length_omap_le f pre).
    pose proof (length_omap_le f post). lia.
Qed.

Lemma stepCaller_inv n0 N item s :
  (0 ≤ n0)%Z → (n0 + Z.of_nat N < 2 ^ 63)%Z →
  callersInv n0 N s → callersInv n0 N (stepCaller item s).
Proof.
  intros Hn0 HN (Hlen & Hnext & Hiss & Hheld & Hret). unfold stepCaller.
  destruct (callers s !! item.1) as [t|] eqn:Ht; [|done].
  destruct t as [c|text msgs|msgs m|r]; unfold callerStep.
  - destruct (broadcast item.2 (c_bridge s) c (c_io s)) as [[io' [err|msgs]] text];
      unfold callersInv; cbn [callers c_bridge c_io issued completed];
      rewrite !app_nil_r;
      (split; [by rewrite length_insert|]); (split; [done|]); (split; [done|]);
      (split; [by rewrite (omap_insert_same heldID _ _ (atBroadcast c))|]);
      by rewrite (omap_insert_same returnedID _ _ (atBroadcast c)).
  - destruct (omap_insert_new heldID (callers s) item.1 (atNextID text msgs)
                (atLogMessage msgs (mkMessage (Itoa (b_nextID (c_bridge s)))
                                      (me (c_bridge s)) text))
                (Itoa (b_nextID (c_bridge s))) Ht eq_refl eq_refl) as [Hperm Hlt].
    assert (Hcount : length (issued s) < N).
    { rewrite <- Hheld, <- Hlen. done. }
    rewrite nextID_spec by lia.
    unfold callersInv; cbn [callers c_bridge c_io issued completed b_nextID].
    rewrite app_nil_r.
    split; [by rewrite length_insert|]. split.
    { rewrite length_app. simpl. lia. }
    split.
    { rewrite length_app. simpl. rewrite Nat.add_1_r, seq_S, fmap_app. simpl.
      by rewrite <- Hiss, Hnext. }
    split; [by rewrite Hperm, Hheld|].
    by rewrite (omap_insert_same returnedID _ _ (atNextID text msgs)).
  - destruct (omap_insert_new returnedID (callers s) item.1 (atLogMessage msgs m)
                (returned (inr m)) (Message_ID m) Ht eq_refl eq_refl) as [Hperm _].
    unfold callersInv; cbn [callers c_bridge c_io issued completed].
    rewrite app_nil_r. split; [by rewrite length_insert|].
    split; [by rewrite logMessage_nextID|]. split; [done|].
    split; [by rewrite (omap_insert_same heldID _ _ (atLogMessage msgs m))|].
    by rewrite Hperm, Hret.
  - unfold callersInv; cbn [callers c_bridge c_io issued completed].
    rewrite !app_nil_r. split; [by rewrite length_insert|].
    split; [done|]. split; [done|].
    split; [by rewrite (omap_insert_same heldID _ _ (returned r))|].
    by rewrite (omap_insert_same returnedID _ _ (returned r)).
Qed.

Lemma runCallers_inv n0 N sched s :
  (0 ≤ n0)%Z → (n0 + Z.of_nat N < 2 ^ 63)%Z →
  callersInv n0 N s → callersInv n0 N (runCallers sched s).
Proof.
  intros Hn0 HN. revert s. unfold runCallers.
  induction sched as [|item sched IH]; intros s Hinv; simpl; [done|].
  apply IH. by apply stepCaller_inv.
Qed.

Lemma callerRun_method picks c b io :
  callerRun picks c b io
  = (returned (method picks c b io).2, (method picks c b io).1.1,
     (method picks c b io).1.2).
Proof.
  unfold callerRun, callerStep, broadcast, method.
  destruct c; simpl;
    unfold Bridge_Send, Bridge_SendAs, Bridge_Reply, Bridge_ReplyAs;
    destruct (sendMessage _ _ _ _ _ _) as [io' [err|msgs]]; simpl; try done;
    by destruct (nextID b).
Qed.

Lemma method_spec picks c b io :
  (0 ≤ b_nextID b < 2 ^ 63 - 1)%Z →
  match (method picks c b io).2 with
  | inl _ => (method picks c b io).1.1 = b
  | inr m =>
      Message_ID m = Itoa (b_nextID b) ∧
      b_nextID (method picks c b io).1.1 = (b_nextID b + 1)%Z
  end.
Proof.
  intros Hn.
  destruct c; cbn [method];
    unfold Bridge_Send, Bridge_SendAs, Bridge_Reply, Bridge_ReplyAs;
    destruct (sendMessage _ _ _ _ _ _) as [io' [err|msgs]]; [done| |done| |done| |done|];
    rewrite nextID_spec by done; simpl; by rewrite logMessage_nextID.
Qed.

Lemma callInTurn_ids cs :
  ∀ b io,
    (0 ≤ b_nextID b)%Z → (b_nextID b + Z.of_nat (length cs) < 2 ^ 63)%Z →
    omap okID (callInTurn cs b io).1.1
    = Itoa <$> seqZ (b_nextID b)
                 (Z.of_nat (length (omap okID (callInTurn cs b io).1.1))).
Proof.
  induction cs as [|[picks c] cs IH]; intros b io Hn0 HN; [done|].
  simpl in HN. simpl.
  assert (Hm := method_spec picks c b io). 
  assert (Hb : (0 ≤ b_nextID b < 2 ^ 63 - 1)%Z) by lia. specialize (Hm Hb).
  destruct (method picks c b io) as [[b1 io1] r]. simpl in Hm.
  specialize (IH b1 io1).
  destruct (callInTurn cs b1 io1) as [[rs b2] io2]. simpl in *.
  destruct r as [err|m]; csimpl.
  - subst b1. apply IH; lia.
  - destruct Hm as [Hid Hnext]. rewrite Hnext in IH.
    set (ids := omap okID rs) in *.
    rewrite seqZ_cons by lia. rewrite fmap_cons, Hid. f_equal.
    etrans; [apply IH; lia|]. do 2 f_equal; lia.
Qed.

Lemma omap_sublist {A C} (f g : A → option C) (l : list A) :
  (∀ x v, g x = Some v → f x = Some v) → omap g l `sublist_of` omap f l.
Proof.
  intros Hfg. induction l as [|x l IH]; csimpl; [done|].
  destruct (g x) as [v|] eqn:Hg.
  - rewrite (Hfg x v Hg). by constructor.
  - destruct (f x); [by constructor | done].
Qed.

(** C7, as the code has it: callers of Send, SendAs, Reply and ReplyAs
    interleaved in any way, on a Bridge whose counter will not overflow.
    The identifiers nextID gives out are, in the order it gives them out,
    the decimal strings of the counter's starting value and its
    successors, so they read as strictly increasing numbers and no two
    are equal; the identifiers of the Messages the callers hold are
    exactly these, each once, and those of the Messages returned are
    among them, each once.  Calls made one after the other return these
    identifiers in increasing order.  The counter of a new Bridge starts
    at 0. *)
Theorem C7_local_ids_strictly_increase
    (sched : list (nat * list nat)) (calls : list LocalCall) (b : Bridge) (io : IO) :
  (0 ≤ b_nextID b)%Z →
  (b_nextID b + Z.of_nat (length calls) < 2 ^ 63)%Z →
  let s' := runCallers sched (mkCallers (atBroadcast <$> calls) b io [] []) in
  (∀ k id, issued s' !! k = Some id →
           id = Itoa (b_nextID b + Z.of_nat k) ∧
           Atoi id = Some (b_nextID b + Z.of_nat k)%Z) ∧
  (∀ j k idj idk, j < k → issued s' !! j = Some idj → issued s' !! k = Some idk →
                  ∃ nj nk, Atoi idj = Some nj ∧ Atoi idk = Some nk ∧ (nj < nk)%Z) ∧
  NoDup (issued s') ∧
  omap heldID (callers s') ≡ₚ issued s' ∧
  omap returnedID (callers s') ≡ₚ completed s' ∧
  NoDup (completed s') ∧
  (∀ id, id ∈ completed s' → id ∈ issued s') ∧
  b_nextID (c_bridge s') = (b_nextID b + Z.of_nat (length (issued s')))%Z ∧
  (∀ picks,
      length picks = length calls →
      let ids := omap okID (callInTurn (zip picks calls) b io).1.1 in
      ids = Itoa <$> seqZ (b_nextID b) (Z.of_nat (length ids))) ∧
  (∀ channels w, b_nextID (bridge (New channels w)) = 0%Z).
Proof.
  intros Hn0 HN s'.
  assert (Hinv : callersInv (b_nextID b) (length calls) s').
  { apply runCallers_inv; [done..|]. unfold callersInv. simpl.
    rewrite length_fmap. split; [done|]. split; [lia|]. split; [done|].
    assert (∀ (g : Caller → option MessageID),
              (∀ c, g (atBroadcast c) = None) →
              omap g (atBroadcast <$> calls) = []) as Hnone.
    { intros g Hg. clear HN s'. induction calls as [|c cs IH]; [done|].
      csimpl. by rewrite Hg. }
    by rewrite !Hnone. }
  destruct Hinv as (Hlen & Hnext & Hiss & Hheld & Hret).
  assert (Hk : ∀ k id, issued s' !! k = Some id →
                       id = Itoa (b_nextID b + Z.of_nat k)).
  { intros k id Hid. rewrite Hiss in Hid.
    rewrite list_lookup_fmap in Hid.
    destruct (seq 0 (length (issued s')) !! k) as [k'|] eqn:Hseq; [|done].
    apply lookup_seq in Hseq as [-> _]. simpl in Hid. by simplify_eq. }
  assert (Hnd : NoDup (issued s')).
  { apply NoDup_alt. intros j k id Hj Hk'.
    apply Hk in Hj, Hk'. subst id. apply Itoa_inj in Hk'. lia. }
  assert (Hsub : omap returnedID (callers s') `sublist_of` omap heldID (callers s')).
  { apply omap_sublist. by intros [| | |[|]] v. }
  split_and!; try done.
  - intros k id Hid. apply Hk in Hid as ->. split; [done | apply Atoi_Itoa].
  - intros j k idj idk Hlt Hj Hk'. apply Hk in Hj as ->. apply Hk in Hk' as ->.
    eexists _, _. rewrite !Atoi_Itoa. split; [done|]. split; [done|]. lia.
  - rewrite <- Hret. eapply sublist_NoDup; [|exact Hsub]. by rewrite Hheld.
  - intros id Hid. rewrite <- Hret in Hid. rewrite <- Hheld.
    eapply elem_of_sublist; [exact Hid | exact Hsub].
  - intros picks Hpicks ids. subst ids. apply callInTurn_ids; [done|].
    rewrite length_zip_with. lia.
Qed.

End RelayTheory.

(** ** Worked examples *)

Lemma NoDup_ABC : NoDup [chA; chB; chC].
Proof. by apply (bool_decide_unpack _). Defined.

(** C1 at work: [hi] of A relayed by a Bridge over A, B and C. *)
Lemma C1_witness :
  let s := startABC (B := healthy) 0 in
  closeError_closed s = false ∧
  NoDup (b_channels (bridge s)) ∧
  chA ∈ b_channels (bridge s) ∧
  ∃ s' calls,
    mux (B := healthy) mux_eventsMux [1; 0] s = Ret s' ∧
    trace (sio s') = calls ∧
    request <$> calls ≡ₚ [ReqSend chB (OpSendAs alice "hi");
                           ReqSend chC (OpSendAs alice "hi")].
Proof.
  intros s. split; [done|]. split; [exact NoDup_ABC|]. split; [by left|].
  destruct (C1_message_broadcast_complete (B := healthy) [1; 0] s
              (mkevent chA (EvMessage hi)) [] hi eq_refl eq_refl eq_refl
              NoDup_ABC (list_elem_of_here _ _))
    as (_ & _ & _ & s' & calls & Hmux & Htr & Hreq & _).
  exists s', calls. split; [exact Hmux|]. split; [exact Htr|]. exact Hreq.
Defined.

Lemma NoDup_hiEntry : NoDup (to <$> copies hiEntry).
Proof. by apply (bool_decide_unpack _). Defined.

(** The relay of [hi] records the entry [hiEntry]. *)
Lemma afterHi_log : b_log afterHi.1.1 = [hiEntry].
Proof. by vm_compute. Qed.

(** C2 at work: after the relay of [hi] from A, B replies to its copy. *)
Lemma C2_witness :
  let result :=
    relay (B := healthy) [1; 0] afterHi.1.1 (mkevent chB (EvReply hiOnB hey))
          afterHi.1.2 in
  b_log afterHi.1.1 = [] ++ hiEntry :: [] ∧
  mkmessage (Some chB) hiOnB ∈ copies hiEntry ∧
  mkmessage (Some chC) hiOnC ∈ copies hiEntry ∧
  ∃ calls,
    trace result.1.2 = trace afterHi.1.2 ++ calls ∧
    ReqSend chC (OpReply hiOnC "hey") ∈ request <$> calls ∧
    (∀ c, c ∈ calls → callee c = chC → request c = ReqSend chC (OpReply hiOnC "hey")).
Proof.
  intros result.
  assert (HB : mkmessage (Some chB) hiOnB ∈ copies hiEntry) by by left.
  assert (HC : mkmessage (Some chC) hiOnC ∈ copies hiEntry) by (right; by left).
  split; [done|]. split; [exact HB|]. split; [exact HC|].
  destruct (C2_reply_resolves_recorded_copies (B := healthy) [1; 0] afterHi.1.1
              afterHi.1.2 chB chC [] [] hiEntry hiOnB hiOnC hiOnB hey
              eq_refl (Forall_nil_2 _) NoDup_hiEntry HB HC eq_refl NoDup_ABC)
    as (_ & calls & Htr & _ & HCcall & _).
  exists calls. split; [exact Htr|].
  apply HCcall. apply elem_of_allChannelsExcept.
  split; [right; right; by left | done].
Defined.

(** A target for which the resolved entry has no copy gets a plain Send. *)
Lemma reply_without_copy_sends :
  request <$> trace (relay (B := healthy) [] bridgeABCD
                       (mkevent chB (EvReply hiOnB hey)) io0).1.2
  = [ReqSend chA (OpReply hi "hey"); ReqSend chC (OpReply hiOnC "hey");
     ReqSend chD (OpSend "hey")].
Proof. by vm_compute. Qed.

(** C7 at work: two callers taking turns. *)
Lemma C7_witness :
  let s' := runCallers (B := healthy)
              [(0, []); (1, [1]); (1, []); (0, []); (1, []); (0, [])] twoCallers in
  (0 ≤ 0)%Z ∧ (0 + Z.of_nat 2 < 2 ^ 63)%Z ∧
  issued s' = ["0"; "1"] ∧
  NoDup (issued s') ∧ NoDup (completed s').
Proof.
  intros s'. split; [done|]. split; [done|]. split; [done|].
  assert (H0 : (0 ≤ 0)%Z) by done.
  assert (H2 : (0 + Z.of_nat 2 < 2 ^ 63)%Z) by done.
  destruct (C7_local_ids_strictly_increase (B := healthy)
              [(0, []); (1, [1]); (1, []); (0, []); (1, []); (0, [])]
              [callSend "a"; callReply hi "b"] (mkBridge [chA; chB] 0 [])
              io0 H0 H2) as (_ & _ & Hissued & _ & _ & Hcompleted & _).
  split; [exact Hissued | exact Hcompleted].
Defined.

(** C7 as stated fails for overlapping calls: the first caller takes
    identifier 0 and is overtaken, between nextID and logMessage, by the
    second, which takes 1 and returns first. *)
Lemma C7_counterexample :
  let s' := runCallers (B := healthy)
              [(0, []); (1, []); (0, []); (1, []); (1, []); (0, [])] twoCallers in
  issued s' = ["0"; "1"] ∧
  completed s' = ["1"; "0"] ∧
  (Atoi <$> completed s') = [Some 1%Z; Some 0%Z] ∧
  ¬ (1 < 0)%Z.
Proof. by vm_compute. Qed.

Lemma NoDup_AB : NoDup [chA; chB].
Proof. by apply (bool_decide_unpack _). Defined.

(** C9 at work: the poller of A fails on a new Bridge over A and B. *)
Lemma C9_witness :
  let s := New (B := healthy) [chA; chB] 0 in
  chA ∈ polling s ∧ NoDup (polling s) ∧
  ∃ s', poll chA (inl (backend_error "connection reset")) s = Ret s' ∧
        polling s' = [chB] ∧
        pollError s' = Some (backend_error "connection reset").
Proof.
  intros s.
  assert (Hin : chA ∈ polling s) by by left.
  split; [exact Hin|]. split; [exact NoDup_AB|].
  destruct (C9_poll_first_error_wins (B := healthy) chA
              (backend_error "connection reset") s Hin NoDup_AB)
    as (s' & Hpoll & Hpolling & _ & _ & _ & _ & _ & _ & _ & Hfirst & _).
  exists s'. split; [exact Hpoll|]. split; [exact Hpolling|].
  destruct Hfirst as (first & Hpe & -> & _); [done..|]. exact Hpe.
Defined.

(** C10 at work: B's feed ends on a new Bridge over A and B. *)
Lemma C10_witness :
  let s := New (B := healthy) [chA; chB] 0 in
  chB ∈ polling s ∧ pollError s = None ∧
  closeError_closed s = false ∧ closeError s = None ∧
  ∃ s1 s2,
    poll chB (inl io_EOF) s = Ret s1 ∧
    mux mux_pollError [] s1 = Ret s2 ∧
    Close_wait (set_closed true s2)
    = Ret (set_closeError None (set_closed true s2),
           Some (errors_New "unexpected EOF")).
Proof.
  intros s.
  assert (Hin : chB ∈ polling s) by (right; by left).
  split; [exact Hin|]. split; [done|]. split; [done|]. split; [done|].
  destruct (C10_EOF_is_fatal_and_rewritten (B := healthy) chB s [] Hin
              eq_refl eq_refl eq_refl)
    as ((s1 & s2 & Hpoll & _ & Hmux & _ & _ & _ & Hclose) & _).
  exists s1, s2. split; [exact Hpoll|]. split; [exact Hmux|]. exact Hclose.
Defined.

(** ** An Edit whose new identifier is lost *)

(** C4 at a concrete input: A edits [hi]; B's Edit is called on b1 and
    returns the new identifier b1+.  The identifier is stored in the
    cell the findMessage closure returned, and the relay ends without
    error, but the Bridge and its log are what they were: B's recorded
    copy is still b1, a later Edit of [hi] asks B to edit b1 again, and a
    Delete arriving from B under b1+ resolves no entry and calls nothing. *)
Theorem C4_edit_identifier_not_recorded :
  trace afterEdit.1.2 = [CallEdit chB "b1" "hi!" ("b1+", None)] ∧
  heap afterEdit.1.2
  = [mkmessage (Some chB) (mkMessage "b1+" alice "hi")] ∧
  afterEdit.2 = None ∧
  afterEdit.1.1 = bridgeAB ∧
  copyOn afterEdit.1.1 chA "1" chB = Some hiOnB1 ∧
  findEntry (b_log afterEdit.1.1) chB "b1+" = None ∧
  trace (relay (B := healthy) [] afterEdit.1.1
               (mkevent chA (EvEdit "1" "1" "hi!!")) afterEdit.1.2).1.2
  = [CallEdit chB "b1" "hi!" ("b1+", None);
     CallEdit chB "b1" "hi!!" ("b1+", None)] ∧
  trace (relay (B := healthy) [] afterEdit.1.1
               (mkevent chB (EvDelete "b1+")) afterEdit.1.2).1.2
  = [CallEdit chB "b1" "hi!" ("b1+", None)].
Proof. by vm_compute. Qed.

(** ** A send that fails *)

(** C5 at work: C is down when [hi] of A is relayed. *)
Lemma C5_witness :
  let s := startABC (B := failing 2 boom) 0 in
  closeError_closed s = false ∧
  ∃ s',
    mux (B := failing 2 boom) mux_eventsMux [] s = Ret s' ∧
    closeError s' = Some boom ∧
    (∀ c picks, mux (B := failing 2 boom) c picks s' = Blocked) ∧
    Close_wait (set_closed true s')
    = Ret (set_closeError None (set_closed true s'), Some boom).
Proof.
  intros s. split; [done|].
  destruct (C5_send_failure_is_terminal (B := failing 2 boom) [] s
              (mkevent chA (EvMessage hi)) [] hi eq_refl eq_refl eq_refl)
    as (s' & calls & Hmux & Htr & Hfail).
  assert (Hex : Exists (fun c => failure c ≠ None) calls).
  { vm_compute in Hmux. injection Hmux as <-.
    vm_compute in Htr. subst calls.
    apply Exists_cons_tl, Exists_cons_hd. done. }
  exists s'. split; [exact Hmux|].
  destruct (Hfail Hex)
    as (err & pre & c & post & _ & _ & _ & Hrelay & Hce & _ & _ & _ & _ & _
        & Hblocked & _ & Hclose & _).
  assert (err = boom) as -> by (vm_compute in Hrelay; by injection Hrelay as <-).
  split; [exact Hce|]. split; [exact Hblocked|]. exact Hclose.
Defined.

(** C5 as stated fails when the send fails with io.EOF: the relay
    returns io.EOF, mux forwards io.EOF, and Close returns another
    error. *)
Lemma C5_counterexample :
  let s := startABC (B := failing 2 io_EOF) 0 in
  ∃ s1 s2 r,
    (relay (B := failing 2 io_EOF) [] (bridge s)
           (mkevent chA (EvMessage hi)) (sio s)).2 = Some io_EOF ∧
    mux (B := failing 2 io_EOF) mux_eventsMux [] s = Ret s1 ∧
    closeError s1 = Some io_EOF ∧
    Close_signal s1 = Ret s2 ∧
    Close_wait s2 = Ret (set_closeError None s2, r) ∧
    r = Some (errors_New "unexpected EOF") ∧
    r ≠ Some io_EOF.
Proof.
  intros s. eexists _, _, _. split; [by vm_compute|].
  split; [by vm_compute|]. split; [done|]. split; [done|].
  split; [done|]. split; [done|]. done.
Qed.

End BridgeTheory.

(** * Properties of the Telegram event mapping *)
Module TelegramTheory.
Import strconv telegram TelegramExamples.

Section MappingTheory.
Variable TrimSpace : string → string.
Variable joinURL : string → string → string.

Lemma chatUser_nil (c : Client) : chatUser TrimSpace joinURL c None = Panic.
Proof. done. Qed.

(** Whatever the Update, the mapping does not return a Leave event. *)
Lemma chatEvent_never_Leave (ch : channel) (u : Update) (who : chat.User) :
  chatEvent TrimSpace joinURL ch u ≠ Ok (Some (chat.EvLeave who)).
Proof.
  unfold chatEvent, chatMessage, chatUser, mbind, Go_bind, hasFrom, notNil.
  repeat (first [case_match | case_decide]; simplify_eq/=; try done).
Qed.

(** An Update that reaches the membership-leave case makes the mapping
    panic: the case can be reached only with NewChatMember nil, and it
    passes NewChatMember to chatUser. *)
Lemma chatEvent_Leave_panics (ch : channel) (u : Update) (m : Message)
    (from left : User) :
  Update_Message u = Some m →
  ¬ (Time m < created ch)%Z →
  match EditedMessage u with
  | Some e => ¬ (Time e < created ch)%Z
  | None => True
  end →
  From m = Some from →
  hasFrom (ReplyToMessage m) = false →
  NewChatMember m = None →
  LeftChatMember m = Some left →
  chatEvent TrimSpace joinURL ch u = Panic.
Proof.
  intros Hm Hnew Hedit Hfrom Hreply Hjoin Hleft. unfold chatEvent.
  rewrite Hm. rewrite decide_False by done.
  destruct (EditedMessage u) as [e|].
  - rewrite bool_decide_eq_false_2 by done.
    by rewrite Hfrom, Hreply, Hjoin, Hleft.
  - by rewrite Hfrom, Hreply, Hjoin, Hleft.
Qed.

End MappingTheory.

(** C8 at a concrete input: the leave Update makes chatEvent panic on
    the nil NewChatMember, where it should return Leave with Who the user
    in LeftChatMember; the join Update next to it maps to Join of the
    user in NewChatMember. *)
Theorem C8_leave_update_panics :
  chatEvent trim join room (mkUpdate 1 (Some leaveMessage) None) = Panic ∧
  chatUser trim join (client room) (LeftChatMember leaveMessage)
  = Ok (chat.mkUser "7" "carol" "Carol C" "Carol C" "") ∧
  chatEvent trim join room (mkUpdate 2 (Some joinMessage) None)
  = Ok (Some (chat.EvJoin (chat.mkUser "8" "dave" "Dave D" "Dave D" ""))).
Proof. by vm_compute. Qed.

End TelegramTheory.

(** * More properties of the relay engine *)
Module MoreBridgeTheory.
Import chat strconv bridge bridge_more Examples BridgeTheory.

Section MoreRelayTheory.
Context `{B : Backends}.

(** ** Who a relay calls *)

Lemma callee_target (c : Call) : callee c = target (request c).
Proof. by destruct c. Qed.

Lemma requests_callees (calls : list Call) (g : Channel → SendOp) chs :
  request <$> calls ≡ₚ (fun ch => ReqSend ch (g ch)) <$> chs →
  ∀ c, c ∈ calls → callee c ∈ chs.
Proof.
  intros Hreq c Hc. apply (list_elem_of_fmap_2 request) in Hc.
  rewrite Hreq in Hc. apply list_elem_of_fmap in Hc as (ch & Hq & Hch).
  rewrite callee_target, Hq. done.
Qed.

Lemma group_callees body req picks channels io :
  bodySpec body req →
  ∃ calls,
    trace (runGroup body (schedule picks channels) io None).1 = trace io ++ calls ∧
    ∀ c, c ∈ calls → callee c ∈ channels.
Proof.
  intros Hbody.
  destruct (runGroup_spec body req Hbody (schedule picks channels) io None)
    as (calls & Htr & _ & Hwho & _).
  exists calls. split; [done|]. intros c Hc.
  destruct (Hwho c Hc) as [Hin _]. by rewrite schedule_perm in Hin.
Qed.

Lemma relay_calls_targets picks b ev io :
  ∃ calls,
    trace (relay picks b ev io).1.2 = trace io ++ calls ∧
    ∀ c, c ∈ calls → callee c ∈ allChannelsExcept b (ev_origin ev).
Proof.
  unfold relay.
  destruct (what ev) as [m|rt rp|id|id nid text|who|who|from to'|].
  - destruct (sendMessage_spec picks (allChannelsExcept b (ev_origin ev))
                (Some (Message_From m)) None (fun _ => None) (Message_Text m) io
                nil_answers) as (calls & Htr & Hreq & _).
    exists calls. destruct (sendMessage _ _ _ _ _ _) as [io' [err|msgs]];
      (split; [done|]); exact (requests_callees _ _ _ Hreq).
  - destruct (sendMessage_spec picks (allChannelsExcept b (ev_origin ev)) None
                (Some (makeFindMessage b (ev_origin ev) (Message_ID rt)))
                (copyOn b (ev_origin ev) (Message_ID rt)) (Message_Text rp) io
                (makeFindMessage_answers _ _ _)) as (calls & Htr & Hreq & _).
    exists calls. destruct (sendMessage _ _ _ _ _ _) as [io' [err|msgs]];
      (split; [done|]); exact (requests_callees _ _ _ Hreq).
  - destruct (group_callees _ _ picks (allChannelsExcept b (ev_origin ev)) io
                (deleteBody_spec _ _ (makeFindMessage_answers b (ev_origin ev) id)))
      as (calls & Htr & Hwho).
    exists calls. unfold deleteMessage.
    by destruct (runGroup _ _ _ _) as [io' r].
  - destruct (group_callees _ _ picks (allChannelsExcept b (ev_origin ev)) io
                (editBody_spec _ _ text (makeFindMessage_answers b (ev_origin ev) id)))
      as (calls & Htr & Hwho).
    exists calls. unfold editMessage.
    by destruct (runGroup _ _ _ _) as [io' r].
  - match goal with |- context [sendMessage ?p ?chs None None ?t io] =>
      destruct (sendMessage_spec p chs None None (fun _ => None) t io nil_answers)
        as (calls & Htr & Hreq & _) end.
    exists calls. destruct (sendMessage _ _ _ _ _ _) as [io' r];
      (split; [done|]); exact (requests_callees _ _ _ Hreq).
  - match goal with |- context [sendMessage ?p ?chs None None ?t io] =>
      destruct (sendMessage_spec p chs None None (fun _ => None) t io nil_answers)
        as (calls & Htr & Hreq & _) end.
    exists calls. destruct (sendMessage _ _ _ _ _ _) as [io' r];
      (split; [done|]); exact (requests_callees _ _ _ Hreq).
  - case_decide.
    + exists []. split; [by rewrite app_nil_r|]. intros c Hc. by apply elem_of_nil in Hc.
    + match goal with |- context [sendMessage ?p ?chs None None ?t io] =>
        destruct (sendMessage_spec p chs None None (fun _ => None) t io nil_answers)
          as (calls & Htr & Hreq & _) end.
      exists calls. destruct (sendMessage _ _ _ _ _ _) as [io' r];
        (split; [done|]); exact (requests_callees _ _ _ Hreq).
  - exists []. split; [by rewrite app_nil_r|]. intros c Hc. by apply elem_of_nil in Hc.
Qed.

(** X1: whatever the event and however its goroutines are scheduled, a
    relay calls bridged channels only and never the channel the event
    came from. *)
Theorem relay_never_calls_origin (picks : list nat) (b : Bridge) (ev : event) (io : IO) :
  ∃ calls,
    trace (relay picks b ev io).1.2 = trace io ++ calls ∧
    ∀ c, c ∈ calls → callee c ∈ b_channels b ∧ callee c ≠ ev_origin ev.
Proof.
  destruct (relay_calls_targets picks b ev io) as (calls & Htr & Hwho).
  exists calls. split; [done|]. intros c Hc.
  by apply elem_of_allChannelsExcept, Hwho.
Qed.

(** ** The send methods of the Bridge *)

(** The closure a call on the Bridge passes to sendMessage. *)
Lemma method_generic picks c b io :
  method picks c b io =
  let '(io', r) :=
    sendMessage picks (b_channels b) (sendAsOf c)
      (match replyToOf c with
       | Some replyTo => Some (makeFindMessage b Self (Message_ID replyTo))
       | None => None
       end) (textOfCall c) io in
  match r with
  | inl err => (b, io', inl err)
  | inr msgs =>
      let '(b1, id) := nextID b in
      let msg := mkMessage id (me b) (textOfCall c) in
      (logMessage b1 (mklogEntry Self (msgs ++ [mkmessage (Some Self) msg])),
       io', inr msg)
  end.
Proof. by destruct c. Qed.

Lemma method_answers b c :
  answers (default (fun _ h => (h, None))
             (match replyToOf c with
              | Some replyTo => Some (makeFindMessage b Self (Message_ID replyTo))
              | None => None
              end)) (replyCopy b c).
Proof.
  unfold replyCopy. destruct (replyToOf c) as [r|]; simpl.
  - apply makeFindMessage_answers.
  - apply nil_answers.
Qed.

Lemma method_shape picks c b io :
  (0 ≤ b_nextID b < 2 ^ 63 - 1)%Z →
  ∃ calls,
    trace (method picks c b io).1.2 = trace io ++ calls ∧
    request <$> calls
    ≡ₚ (fun ch => ReqSend ch (opFor (sendAsOf c) (replyCopy b c ch) (textOfCall c)))
       <$> b_channels b ∧
    match (method picks c b io).2 with
    | inl e =>
        (method picks c b io).1.1 = b ∧
        ∃ pre c0 post, calls = pre ++ c0 :: post ∧ failure c0 = Some e ∧
                       Forall (fun c => failure c = None) pre
    | inr m =>
        Forall (fun c => failure c = None) calls ∧
        m = mkMessage (Itoa (b_nextID b)) (me b) (textOfCall c) ∧
        b_nextID (method picks c b io).1.1 = (b_nextID b + 1)%Z ∧
        b_channels (method picks c b io).1.1 = b_channels b ∧
        ∃ msgs,
          length msgs = length (b_channels b) ∧
          (∀ i ch, b_channels b !! i = Some ch →
                   ∃ m', msgs !! i = Some (mkmessage (Some ch) m') ∧
                         CallSend ch (opFor (sendAsOf c) (replyCopy b c ch)
                                        (textOfCall c)) (inr m') ∈ calls) ∧
          b_log (method picks c b io).1.1
          = take maxHistory
              (b_log b ++ [mklogEntry Self (msgs ++ [mkmessage (Some Self) m])])
    end.
Proof.
  intros Hn. rewrite method_generic.
  destruct (sendMessage_spec picks (b_channels b) (sendAsOf c) _ (replyCopy b c)
              (textOfCall c) io (method_answers b c)) as (calls & Htr & Hreq & Hres).
  destruct (sendMessage _ _ _ _ _ _) as [io' [err|msgs]]; simpl in Htr, Hres.
  - exists calls. simpl. by split_and!.
  - rewrite nextID_spec by done. exists calls. cbn [fst snd].
    destruct Hres as (Hok & Hlen & Hmsgs).
    split; [done|]. split; [done|]. split; [done|]. split; [done|].
    split; [by rewrite logMessage_nextID|].
    split; [by rewrite logMessage_channels|].
    exists msgs. split; [done|]. split; [done|]. by rewrite logMessage_log.
Qed.

(** X2: Send, SendAs, Reply and ReplyAs on the Bridge call every bridged
    channel exactly once, none excluded and whether or not some call
    fails.  If a call fails the method returns the error of the first
    one that did and leaves the Bridge as it was, counter included.
    Otherwise it returns a Message from the bridge user with the given
    text and the counter's value as identifier, moves the counter by
    one, and passes logMessage an entry of origin Bridge holding every
    channel's returned Message and then the Bridge's own. *)
Theorem Bridge_send_methods
    (picks : list nat) (c : LocalCall) (b : Bridge) (io : IO) :
  (0 ≤ b_nextID b < 2 ^ 63 - 1)%Z →
  ∃ calls,
    trace (method picks c b io).1.2 = trace io ++ calls ∧
    request <$> calls
    ≡ₚ (fun ch => ReqSend ch (opFor (sendAsOf c) (replyCopy b c ch) (textOfCall c)))
       <$> b_channels b ∧
    match (method picks c b io).2 with
    | inl e =>
        (method picks c b io).1.1 = b ∧
        ∃ pre c0 post, calls = pre ++ c0 :: post ∧ failure c0 = Some e ∧
                       Forall (fun c => failure c = None) pre
    | inr m =>
        Forall (fun c => failure c = None) calls ∧
        m = mkMessage (Itoa (b_nextID b)) (me b) (textOfCall c) ∧
        b_nextID (method picks c b io).1.1 = (b_nextID b + 1)%Z ∧
        b_channels (method picks c b io).1.1 = b_channels b ∧
        ∃ msgs,
          length msgs = length (b_channels b) ∧
          (∀ i ch, b_channels b !! i = Some ch →
                   ∃ m', msgs !! i = Some (mkmessage (Some ch) m') ∧
                         CallSend ch (opFor (sendAsOf c) (replyCopy b c ch)
                                        (textOfCall c)) (inr m') ∈ calls) ∧
          b_log (method picks c b io).1.1
          = take 500
              (b_log b ++ [mklogEntry Self (msgs ++ [mkmessage (Some Self) m])])
    end.
Proof. exact (method_shape picks c b io). Qed.

(** ** Identifiers of the Bridge's own copies *)

Lemma copies_to (msgs : list message) (chs : list Channel)
    (P : Channel → Message → Prop) :
  length msgs = length chs →
  (∀ i ch, chs !! i = Some ch →
           ∃ m', msgs !! i = Some (mkmessage (Some ch) m') ∧ P ch m') →
  to <$> msgs = Some <$> chs.
Proof.
  intros Hlen Hmsgs. apply list_eq. intros i.
  rewrite !list_lookup_fmap.
  destruct (chs !! i) as [ch|] eqn:Hch.
  - destruct (Hmsgs i ch Hch) as (m' & -> & _). done.
  - apply lookup_ge_None in Hch. rewrite <- Hlen in Hch.
    apply lookup_ge_None in Hch. by rewrite Hch.
Qed.

Lemma relay_entry picks b ev io :
  (relay picks b ev io).1.1 = b ∨
  ∃ e, (relay picks b ev io).1.1 = logMessage b e ∧
       to <$> copies e
       = Some <$> (allChannelsExcept b (ev_origin ev) ++ [ev_origin ev]).
Proof.
  unfold relay.
  destruct (what ev) as [m|rt rp|id|id nid text|who|who|from to'|].
  - destruct (sendMessage_spec picks (allChannelsExcept b (ev_origin ev))
                (Some (Message_From m)) None (fun _ => None) (Message_Text m) io
                nil_answers) as (calls & _ & _ & Hres).
    destruct (sendMessage _ _ _ _ _ _) as [io' [err|msgs]]; [by left|].
    right. eexists. split; [done|]. simpl in *.
    destruct Hres as (_ & Hlen & Hmsgs).
    rewrite !fmap_app. f_equal. exact (copies_to _ _ _ Hlen Hmsgs).
  - destruct (sendMessage_spec picks (allChannelsExcept b (ev_origin ev)) None
                (Some (makeFindMessage b (ev_origin ev) (Message_ID rt)))
                (copyOn b (ev_origin ev) (Message_ID rt)) (Message_Text rp) io
                (makeFindMessage_answers _ _ _)) as (calls & _ & _ & Hres).
    destruct (sendMessage _ _ _ _ _ _) as [io' [err|msgs]]; [by left|].
    right. eexists. split; [done|]. simpl in *.
    destruct Hres as (_ & Hlen & Hmsgs).
    rewrite !fmap_app. f_equal. exact (copies_to _ _ _ Hlen Hmsgs).
  - left. by destruct (deleteMessage _ _ _ _).
  - left. by destruct (editMessage _ _ _ _ _).
  - left. by destruct (sendMessage _ _ _ _ _ _).
  - left. by destruct (sendMessage _ _ _ _ _ _).
  - left. case_decide; [done|]. by destruct (sendMessage _ _ _ _ _ _).
  - by left.
Qed.

Lemma selfFresh_append b b' e :
  selfFresh b →
  b_log b' = take maxHistory (b_log b ++ [e]) →
  (b_nextID b ≤ b_nextID b')%Z →
  (∀ c, c ∈ copies e → to c = Some Self →
        ∃ k, (0 ≤ k < b_nextID b')%Z ∧ Message_ID (msg c) = Itoa k) →
  selfFresh b'.
Proof.
  intros Hfresh Hlog Hnext He e' c He' Hc Hto.
  rewrite Hlog in He'. apply subseteq_take in He'.
  apply elem_of_app in He' as [He'|He'].
  - destruct (Hfresh e' c He' Hc Hto) as (k & Hk & Hid). exists k. split; [lia | done].
  - apply list_elem_of_singleton in He' as ->. by apply He.
Qed.

Lemma selfFresh_new channels : selfFresh (mkBridge channels 0 []).
Proof. intros e c He. by apply elem_of_nil in He. Qed.

Lemma selfFresh_next b :
  selfFresh b → findEntry (b_log b) Self (Itoa (b_nextID b)) = None.
Proof.
  intros Hfresh. apply findEntry_miss. intros e c He Hc [Hto Hid].
  destruct (Hfresh e c He Hc Hto) as (k & Hk & Hid').
  rewrite Hid' in Hid. apply Itoa_inj in Hid. lia.
Qed.

Lemma selfFresh_method picks c b io :
  selfFresh b → Self ∉ b_channels b → (0 ≤ b_nextID b < 2 ^ 63 - 1)%Z →
  selfFresh (method picks c b io).1.1.
Proof.
  intros Hfresh Hself Hn.
  destruct (method_shape picks c b io Hn) as (calls & _ & _ & Hres).
  destruct ((method picks c b io).2) as [err|m].
  - destruct Hres as [-> _]. done.
  - destruct Hres as (_ & -> & Hnext & _ & msgs & Hlen & Hmsgs & Hlog).
    eapply selfFresh_append; [done | done | lia |].
    intros c0 Hc0 Hto. simpl in Hc0. apply elem_of_app in Hc0 as [Hc0|Hc0].
    + exfalso. apply Hself.
      assert (Hin : to c0 ∈ to <$> msgs) by by apply list_elem_of_fmap_2.
      rewrite (copies_to _ _ _ Hlen Hmsgs), Hto in Hin.
      apply list_elem_of_fmap in Hin as (ch & [= ->] & Hch). done.
    + apply list_elem_of_singleton in Hc0 as ->. simpl.
      exists (b_nextID b). split; [lia | done].
Qed.

Lemma selfFresh_relay picks b ev io :
  selfFresh b → Self ∉ b_channels b → ev_origin ev ≠ Self →
  selfFresh (relay picks b ev io).1.1.
Proof.
  intros Hfresh Hself Horigin.
  destruct (relay_entry picks b ev io) as [->|(e & -> & Hto)]; [done|].
  eapply selfFresh_append; [done | by rewrite logMessage_log
                            | by rewrite logMessage_nextID |].
  intros c Hc Hcself. exfalso.
  assert (Hin : to c ∈ to <$> copies e) by by apply list_elem_of_fmap_2.
  rewrite Hto, Hcself in Hin.
  apply list_elem_of_fmap in Hin as (ch & [= <-] & Hch).
  apply elem_of_app in Hch as [Hch|Hch].
  - apply elem_of_allChannelsExcept in Hch as [Hch _]. done.
  - apply list_elem_of_singleton in Hch. done.
Qed.

(** X3: the identifiers on the Bridge's own copies in the log are
    always ones the counter has passed.  This holds of a new Bridge, is
    kept by each of the four send methods and by every relay of an event
    of a bridged channel, and so the identifier the Bridge issues next
    resolves, as the Bridge's own message, to no log entry. *)
Theorem local_ids_stay_fresh
    (picks picks' : list nat) (c : LocalCall) (ev : event) (b : Bridge) (io io' : IO) :
  selfFresh b →
  Self ∉ b_channels b →
  ev_origin ev ≠ Self →
  (0 ≤ b_nextID b < 2 ^ 63 - 1)%Z →
  selfFresh (method picks c b io).1.1 ∧
  selfFresh (relay picks' b ev io').1.1 ∧
  findEntry (b_log b) Self (Itoa (b_nextID b)) = None ∧
  selfFresh (mkBridge (b_channels b) 0 []).
Proof.
  intros Hfresh Hself Horigin Hn. split_and!.
  - by apply selfFresh_method.
  - by apply selfFresh_relay.
  - by apply selfFresh_next.
  - apply selfFresh_new.
Qed.

(** X4: a Message returned by a send method of the Bridge can be
    replied to through the Bridge: when the log had room for its entry,
    Reply on the Bridge with that Message calls Reply on every bridged
    channel, each against the Message that very channel returned for the
    first call. *)
Theorem Bridge_reply_threads_on_every_channel
    (picks picks' : list nat) (c : LocalCall) (b : Bridge) (io : IO)
    (m : Message) (text' : string) :
  selfFresh b →
  Self ∉ b_channels b →
  NoDup (b_channels b) →
  length (b_log b) < 500 →
  (0 ≤ b_nextID b < 2 ^ 63 - 1)%Z →
  (method picks c b io).2 = inr m →
  let b1 := (method picks c b io).1.1 in
  let io1 := (method picks c b io).1.2 in
  ∃ calls msgs calls',
    trace io1 = trace io ++ calls ∧
    length msgs = length (b_channels b) ∧
    (∀ i ch, b_channels b !! i = Some ch →
             ∃ m', msgs !! i = Some (mkmessage (Some ch) m') ∧
                   CallSend ch (opFor (sendAsOf c) (replyCopy b c ch) (textOfCall c))
                            (inr m') ∈ calls) ∧
    trace (Bridge_Reply picks' b1 m text' io1).1.2 = trace io1 ++ calls' ∧
    request <$> calls'
    ≡ₚ zip_with (fun ch c' => ReqSend ch (OpReply (msg c') text')) (b_channels b) msgs.
Proof.
  intros Hfresh Hself Hnd Hroom Hn Hok b1 io1.
  destruct (method_shape picks c b io Hn) as (calls & Htr & _ & Hres).
  rewrite Hok in Hres.
  destruct Hres as (_ & Hm & Hnext & Hchs & msgs & Hlen & Hmsgs & Hlog).
  rewrite take_ge in Hlog by (rewrite length_app; simpl; unfold maxHistory; lia).
  exists calls, msgs.
  set (entry := mklogEntry Self (msgs ++ [mkmessage (Some Self) m])) in *.
  assert (Hentry : findEntry (b_log b1) Self (Message_ID m) = Some entry).
  { subst b1. rewrite Hlog. apply findEntry_first.
    - apply findEntry_None. rewrite Hm. simpl. by apply selfFresh_next.
    - apply hasCopy_true. exists (mkmessage (Some Self) m).
      split; [|done]. apply elem_of_app. right. by left. }
  assert (Hto : NoDup (to <$> copies entry)).
  { simpl. rewrite fmap_app, (copies_to _ _ _ Hlen Hmsgs). simpl.
    apply NoDup_app. split; [by apply (NoDup_fmap_2 Some)|].
    split; [|apply NoDup_singleton].
    intros x Hx Hx'. apply list_elem_of_singleton in Hx' as ->.
    apply list_elem_of_fmap in Hx as (ch & [= <-] & Hch). done. }
  assert (Hcopy : ∀ i ch, b_channels b !! i = Some ch →
                          ∃ c', msgs !! i = Some c' ∧
                                copyOn b1 Self (Message_ID m) ch = Some (msg c')).
  { intros i ch Hi. destruct (Hmsgs i ch Hi) as (m' & Hm' & _).
    exists (mkmessage (Some ch) m'). split; [done|].
    unfold copyOn. rewrite Hentry.
    rewrite (findCopy_NoDup _ (mkmessage (Some ch) m') ch); [done | done | | done].
    simpl. apply elem_of_app. left. by eapply list_elem_of_lookup_2. }
  destruct (sendMessage_spec picks' (b_channels b1) None
              (Some (makeFindMessage b1 Self (Message_ID m)))
              (copyOn b1 Self (Message_ID m)) text' io1
              (makeFindMessage_answers _ _ _)) as (calls' & Htr' & Hreq' & _).
  exists calls'. split; [done|]. split; [done|]. split; [done|]. split.
  { unfold Bridge_Reply.
    by destruct (sendMessage _ _ _ _ _ _) as [io2 [err|msgs2]];
      [|destruct (nextID b1)]. }
  rewrite Hreq'. subst b1. rewrite Hchs.
  assert ((fun ch => ReqSend ch (opFor None
             (copyOn (method picks c b io).1.1 Self (Message_ID m) ch) text'))
            <$> b_channels b
          = zip_with (fun ch c' => ReqSend ch (OpReply (msg c') text'))
              (b_channels b) msgs) as ->; [|done].
  apply list_eq. intros i. rewrite list_lookup_fmap, lookup_zip_with.
  destruct (b_channels b !! i) as [ch|] eqn:Hi; [|done]. simpl.
  destruct (Hcopy i ch Hi) as (c' & -> & ->). done.
Qed.

(** ** Relay of Join, Leave and Rename *)

Lemma notice_shape picks chs text io :
  ∃ calls,
    trace (sendMessage picks chs None None text io).1 = trace io ++ calls ∧
    request <$> calls ≡ₚ (fun ch => ReqSend ch (OpSend text)) <$> chs ∧
    match (sendMessage picks chs None None text io).2 with
    | inl e => ∃ pre c post, calls = pre ++ c :: post ∧ failure c = Some e ∧
                             Forall (fun c => failure c = None) pre
    | inr _ => Forall (fun c => failure c = None) calls
    end.
Proof.
  destruct (sendMessage_spec picks chs None None (fun _ => None) text io nil_answers)
    as (calls & Htr & Hreq & Hres).
  exists calls. unfold findMessageFunc.
  destruct (sendMessage _ _ _ _ _ _) as [io' [e|msgs]]; simpl in *;
    split_and!; try done.
  by destruct Hres.
Qed.

(** X5: a Join or a Leave is relayed as one plain Send, to each other
    channel, of the text naming the user and the origin channel and
    service; a Rename likewise when the two names differ, and not at all
    (no call, no error) when they are equal.  None of the three changes
    the Bridge or its log, and each returns the error of the first Send
    that failed. *)
Theorem relay_membership_notices
    (picks : list nat) (b : Bridge) (origin : Channel) (who from to' : User) (io : IO) :
  let targets := allChannelsExcept b origin in
  let notified (r : Bridge * IO * option error) (text : string) :=
    ∃ calls,
      trace r.1.2 = trace io ++ calls ∧
      request <$> calls ≡ₚ (fun ch => ReqSend ch (OpSend text)) <$> targets ∧
      r.1.1 = b ∧ firstFailure calls r.2 in
  notified (relay picks b (mkevent origin (EvJoin who)) io) (joinedText who origin) ∧
  notified (relay picks b (mkevent origin (EvLeave who)) io) (leftText who origin) ∧
  (User_Name from ≠ User_Name to' →
   notified (relay picks b (mkevent origin (EvRename from to')) io)
            (renamedText from to' origin)) ∧
  (User_Name from = User_Name to' →
   relay picks b (mkevent origin (EvRename from to')) io = (b, io, None)).
Proof.
  intros targets notified. subst notified. cbv beta.
  unfold relay; cbn [what ev_origin]; fold targets. split_and!.
  - destruct (notice_shape picks targets (joinedText who origin) io)
      as (calls & Htr & Hreq & Hres).
    exists calls. unfold joinedText, origName in *.
    destruct (sendMessage _ _ _ _ _ _) as [io' [err|msgs]]; by split_and!.
  - destruct (notice_shape picks targets (leftText who origin) io)
      as (calls & Htr & Hreq & Hres).
    exists calls. unfold leftText, origName in *.
    destruct (sendMessage _ _ _ _ _ _) as [io' [err|msgs]]; by split_and!.
  - intros Hne. rewrite decide_False by done.
    destruct (notice_shape picks targets (renamedText from to' origin) io)
      as (calls & Htr & Hreq & Hres).
    exists calls. unfold renamedText, origName in *.
    destruct (sendMessage _ _ _ _ _ _) as [io' [err|msgs]]; by split_and!.
  - intros Heq. by rewrite decide_True.
Qed.

(** ** Relay of a Reply to an unknown message *)

(** X6: a Reply whose target identifier is on no copy of its origin
    channel in the log is still relayed: every other channel gets a plain
    Send of the reply text.  When all succeed an entry for the broadcast,
    recorded with the Bridge as its origin and the reply as the copy of
    the channel it came from, goes through logMessage; when one fails the
    Bridge stays as it was and the first failure is returned. *)
Theorem relay_reply_unresolved_sends
    (picks : list nat) (b : Bridge) (origin : Channel) (replyTo reply : Message)
    (io : IO) :
  (∀ e c, e ∈ b_log b → c ∈ copies e →
          ¬ (to c = Some origin ∧ Message_ID (msg c) = Message_ID replyTo)) →
  let targets := allChannelsExcept b origin in
  let r := relay picks b (mkevent origin (EvReply replyTo reply)) io in
  ∃ calls,
    trace r.1.2 = trace io ++ calls ∧
    request <$> calls
    ≡ₚ (fun ch => ReqSend ch (OpSend (Message_Text reply))) <$> targets ∧
    match r.2 with
    | Some e => r.1.1 = b ∧ firstFailure calls (Some e)
    | None =>
        Forall (fun c => failure c = None) calls ∧
        ∃ msgs,
          length msgs = length targets ∧
          (∀ i ch, targets !! i = Some ch →
                   ∃ m', msgs !! i = Some (mkmessage (Some ch) m') ∧
                         CallSend ch (OpSend (Message_Text reply)) (inr m') ∈ calls) ∧
          r.1.1 = logMessage b (mklogEntry Self (msgs ++ [mkmessage (Some origin) reply]))
    end.
Proof.
  intros Hmiss targets r. apply findEntry_miss in Hmiss.
  destruct (sendMessage_spec picks targets None
              (Some (makeFindMessage b origin (Message_ID replyTo)))
              (copyOn b origin (Message_ID replyTo)) (Message_Text reply) io
              (makeFindMessage_answers _ _ _)) as (calls & Htr & Hreq & Hres).
  assert (Hop : ∀ ch, opFor None (copyOn b origin (Message_ID replyTo) ch)
                        (Message_Text reply) = OpSend (Message_Text reply)).
  { intros ch. unfold copyOn. by rewrite Hmiss. }
  assert (Hreq' : request <$> calls
                  ≡ₚ (fun ch => ReqSend ch (OpSend (Message_Text reply))) <$> targets).
  { rewrite Hreq.
    assert ((fun ch => ReqSend ch (opFor None (copyOn b origin (Message_ID replyTo) ch)
                                     (Message_Text reply))) <$> targets
            = (fun ch => ReqSend ch (OpSend (Message_Text reply))) <$> targets)
      as ->; [|done].
    apply list_fmap_ext. intros i ch _. by rewrite Hop. }
  exists calls. subst r. unfold relay. simpl. fold targets.
  destruct (sendMessage _ _ _ _ _ _) as [io' [err|msgs]]; simpl in *.
  - by split_and!.
  - destruct Hres as (Hok & Hlen & Hmsgs). split_and!; try done.
    exists msgs. split_and!; try done.
    intros i ch Hi. destruct (Hmsgs i ch Hi) as (m' & Hm' & Hc).
    exists m'. by rewrite <- (Hop ch).
Qed.

(** ** Errors of Edit and Delete relays *)

Lemma runGroup_wrapped (K : Call → Prop) body :
  (∀ ch io,
     (trace (body ch io).1 = trace io ∧ (body ch io).2 = None) ∨
     ∃ c, K c ∧ trace (body ch io).1 = trace io ++ [c] ∧ (body ch io).2 = wrapped c) →
  ∀ jobs io first,
    ∃ calls,
      trace (runGroup body jobs io first).1 = trace io ++ calls ∧
      Forall K calls ∧
      (runGroup body jobs io first).2 = keepFirst first (head (omap wrapped calls)).
Proof.
  intros Hbody jobs. induction jobs as [|ch jobs IH]; intros io first; simpl.
  - exists []. rewrite app_nil_r. split; [done|]. split; [done|]. by destruct first.
  - pose proof (Hbody ch io) as Hb.
    destruct (body ch io) as [io1 r]. simpl in Hb.
    destruct (IH io1 (keepFirst first r)) as (calls & Htr & HK & Hres).
    destruct Hb as [[Hio ->]|(c0 & HK0 & Hio & ->)].
    + exists calls. split; [by rewrite Htr, Hio|]. split; [done|].
      rewrite Hres. by destruct first.
    + exists (c0 :: calls). split; [by rewrite Htr, Hio, <- app_assoc|].
      split; [by constructor|].
      rewrite Hres, keepFirst_assoc. f_equal. csimpl.
      by destruct (wrapped c0).
Qed.

Lemma head_wrapped wrap calls :
  Forall (fun c => wrapped c = wrap (callee c) <$> failure c) calls →
  groupError wrap calls (head (omap wrapped calls)).
Proof.
  induction 1 as [|c calls Hc _ IH]; [by constructor|].
  csimpl. rewrite Hc. destruct (failure c) as [err|] eqn:Hf; simpl.
  - exists [], c, calls, err. by split_and!.
  - destruct (head (omap wrapped calls)) as [e|]; simpl in *.
    + destruct IH as (pre & c' & post & err & -> & Hpre & Hf' & ->).
      exists (c :: pre), c', post, err. split_and!; try done. by constructor.
    + by constructor.
Qed.

Lemma editBody_wraps fm text ch io :
  (trace (editBody fm text ch io).1 = trace io ∧ (editBody fm text ch io).2 = None) ∨
  ∃ c, wrapped c = editFailed (callee c) <$> failure c ∧
       trace (editBody fm text ch io).1 = trace io ++ [c] ∧
       (editBody fm text ch io).2 = wrapped c.
Proof.
  unfold editBody.
  destruct (fm ch (heap io)) as [h [p|]]; [|by left].
  destruct (Edit _ _ _ _) as [w [id' [err|]]]; right;
    eexists (CallEdit _ _ _ _); split_and!; reflexivity.
Qed.

Lemma deleteBody_wraps fm ch io :
  (trace (deleteBody fm ch io).1 = trace io ∧ (deleteBody fm ch io).2 = None) ∨
  ∃ c, wrapped c = deleteFailed (callee c) <$> failure c ∧
       trace (deleteBody fm ch io).1 = trace io ++ [c] ∧
       (deleteBody fm ch io).2 = wrapped c.
Proof.
  unfold deleteBody.
  destruct (fm ch (heap io)) as [h [p|]]; [|by left].
  destruct (Delete _ _ _) as [w [err|]]; right;
    eexists (CallDelete _ _ _); split_and!; reflexivity.
Qed.

(** X7: the relay of an Edit (of a Delete) calls Edit (Delete) on every
    other channel the log holds a copy for, whether or not some call
    fails, and leaves the Bridge as it was.  It returns nil when none of
    the calls failed; otherwise, for the first call that failed, a new
    error whose text is: failed to send edit to (respectively delete
    to), the name and the service of that call's channel, and the text
    of the backend's error. *)
Theorem relay_edit_delete_errors
    (picks : list nat) (b : Bridge) (origin : Channel) (id newID : MessageID)
    (text : string) (io : IO) :
  let targets := allChannelsExcept b origin in
  let edit := relay picks b (mkevent origin (EvEdit id newID text)) io in
  let del := relay picks b (mkevent origin (EvDelete id)) io in
  (∃ calls,
     trace edit.1.2 = trace io ++ calls ∧
     request <$> calls ≡ₚ omap (editReq (copyOn b origin id) text) targets ∧
     edit.1.1 = b ∧
     groupError editFailed calls edit.2) ∧
  (∃ calls,
     trace del.1.2 = trace io ++ calls ∧
     request <$> calls ≡ₚ omap (deleteReq (copyOn b origin id)) targets ∧
     del.1.1 = b ∧
     groupError deleteFailed calls del.2).
Proof.
  intros targets edit del. split.
  - destruct (runGroup_wrapped _ _ (editBody_wraps (makeFindMessage b origin id) text)
                (schedule picks targets) io None)
      as (calls & Htr & HK & Hres).
    destruct (group_calls _ _ picks targets io
                (editBody_spec _ _ text (makeFindMessage_answers b origin id)))
      as (calls' & Htr' & Hreq & _).
    rewrite Htr in Htr'. apply app_inv_head in Htr' as <-.
    exists calls. subst edit. unfold relay, editMessage. simpl. fold targets.
    destruct (runGroup _ _ _ _) as [io' r]. simpl in *. subst r.
    split_and!; try done. by apply head_wrapped.
  - destruct (runGroup_wrapped _ _ (deleteBody_wraps (makeFindMessage b origin id))
                (schedule picks targets) io None)
      as (calls & Htr & HK & Hres).
    destruct (group_calls _ _ picks targets io
                (deleteBody_spec _ _ (makeFindMessage_answers b origin id)))
      as (calls' & Htr' & Hreq & _).
    rewrite Htr in Htr'. apply app_inv_head in Htr' as <-.
    exists calls. subst del. unfold relay, deleteMessage. simpl. fold targets.
    destruct (runGroup _ _ _ _) as [io' r]. simpl in *. subst r.
    split_and!; try done. by apply head_wrapped.
Qed.

(** ** From the pollers to Receive *)

Lemma received_app o1 o2 : received (o1 ++ o2) = received o1 ++ received o2.
Proof. apply omap_app. Qed.

Lemma polled_cons l ls : polled (l :: ls) = polled [l] ++ polled ls.
Proof. unfold polled. csimpl. by case_match. Qed.

Ltac kept rest :=
  simplify_eq/=;
  (rewrite ?app_nil_r;
   (split; [naive_solver | split; [naive_solver | exists rest; split; [done | naive_solver]]])).

Lemma step_inOrder l s s1 o1 R P :
  step l s = Ret (s1, o1) → inOrder s R P →
  inOrder s1 (R ++ received o1) (P ++ (what <$> polled [l])).
Proof.
  intros Hstep (Hc & Hr & rest & <- & Hrest).
  unfold inOrder, pending, unreceived in *.
  destruct l as [ch r|c picks|c|c| |]; simpl in Hstep.
  - unfold poll in Hstep. case_decide; [|done].
    destruct r as [err|ev].
    + case_decide; [|destruct (pollError s)]; kept rest.
    + case_decide; [|done]. simplify_eq/=. rewrite app_nil_r.
      split; [naive_solver|]. split; [naive_solver|]. exists (rest ++ [ev]). split.
      * by rewrite <- !app_assoc.
      * intros Hm. by rewrite (Hrest Hm), fmap_app.
  - unfold mux in Hstep.
    destruct (closeError_closed s) eqn:Hm; [done|].
    assert (Hopen : recvOut_closed s = false).
    { destruct (recvOut_closed s); [|done]. by specialize (Hc (Hr eq_refl)). }
    destruct c.
    + destruct (closed s); kept rest.
    + destruct (pollError s); kept rest.
    + destruct (eventsMux s) as [|ev evs] eqn:Hq; [done|].
      destruct (relay picks (bridge s) ev (sio s)) as [[b' io'] [err|]].
      * kept rest.
      * simplify_eq/=. rewrite !app_nil_r.
        rewrite Hopen in *. split; [naive_solver|]. split; [done|].
        exists (what <$> evs). split; [|done].
        rewrite (Hrest eq_refl). simpl.
        destruct (recvIn s); simpl; by rewrite <- !app_assoc.
  - unfold recv in Hstep.
    destruct (recvOut_closed s) eqn:Hopen; [done|]. destruct c.
    + destruct (cancelled s) eqn:Hcan; simplify_eq/=. rewrite !app_nil_r.
      split; [naive_solver|]. split; [naive_solver|].
      exists ((recvBatch s ++ default [] (recvIn s)) ++ rest).
      split; [done|]. intros Hm. by rewrite Hc in Hm.
    + destruct (recvBatch s) eqn:Hb; [|done].
      destruct (recvIn s) as [evs|] eqn:Hin; [|done]. simplify_eq/=.
      rewrite !app_nil_r.
      rewrite Hopen. split; [naive_solver|]. split; [naive_solver|]. exists rest.
      split; [|done]. by rewrite ?app_nil_r.
  - unfold Receive in Hstep. destruct c.
    + kept rest.
    + destruct (recvOut_closed s) eqn:Hopen.
      * simplify_eq/=. rewrite Hopen. kept rest.
      * destruct (recvBatch s) as [|ev evs] eqn:Hb; [done|]. simplify_eq/=.
        rewrite app_nil_r.
        rewrite Hopen. split; [naive_solver|]. split; [naive_solver|]. exists rest.
        split; [|done]. by rewrite <- !app_assoc.
  - unfold Close_signal in Hstep.
    destruct (closed s); kept rest.
  - unfold Close_wait in Hstep.
    destruct (closeError s); [|destruct (closeError_closed s) eqn:Hm];
      kept rest.
Qed.

Lemma run_inOrder ls s s' o R P :
  run ls s = Ret (s', o) → inOrder s R P →
  inOrder s' (R ++ received o) (P ++ (what <$> polled ls)).
Proof.
  revert s o R P. induction ls as [|l ls IH]; intros s o R P Hrun Hinv; simpl in Hrun.
  - simplify_eq. by rewrite !app_nil_r.
  - destruct (step l s) as [| |[s1 o1]] eqn:Hstep; [done..|].
    destruct (run ls s1) as [| |[s2 o2]] eqn:Hrest; [done..|]. simplify_eq.
    rewrite received_app, polled_cons, fmap_app, !app_assoc.
    eapply IH; [done|]. by eapply step_inOrder.
Qed.

Lemma New_inOrder channels w : inOrder (New channels w) [] [].
Proof. split; [done|]. split; [done|]. by exists []. Qed.

(** X8: over any run of a new Bridge, the events Receive has handed out
    are the first of the events the pollers took from the bridged
    channels, in the order the pollers queued them: none is handed out
    twice, out of turn, or without having been polled.  As long as mux
    has not returned none is lost either: the events handed out, then
    those waiting for Receive, then those waiting for mux, are exactly
    the events polled. *)
Theorem Receive_keeps_poll_order
    (channels : list Channel) (w : World) (ls : list Label) (s' : Sys) (o : list Obs) :
  run ls (New channels w) = Ret (s', o) →
  received o `prefix_of` (what <$> polled ls) ∧
  (closeError_closed s' = false →
   received o ++ unreceived s' ++ (what <$> eventsMux s') = what <$> polled ls).
Proof.
  intros Hrun.
  destruct (run_inOrder _ _ _ _ _ _ Hrun (New_inOrder channels w))
    as (Hc & Hr & rest & HP & Hrest).
  simpl in HP. split.
  - eexists. by rewrite <- HP.
  - intros Hm. rewrite <- HP, <- (Hrest Hm). unfold pending.
    destruct (recvOut_closed s') eqn:Hopen; [|done].
    by rewrite Hc in Hm by auto.
Qed.

Lemma step_after_recv l s s1 o1 :
  recvOut_closed s = true → step l s = Ret (s1, o1) →
  recvOut_closed s1 = true ∧ received o1 = [].
Proof.
  intros Hclosed Hstep. destruct l as [ch r|c picks|c|c| |]; simpl in Hstep.
  - unfold poll in Hstep. case_decide; [|done].
    destruct r as [err|ev]; repeat case_decide; destruct (pollError s);
      by simplify_eq/=.
  - unfold mux in Hstep. destruct (closeError_closed s); [done|].
    destruct c.
    + destruct (closed s); by simplify_eq/=.
    + destruct (pollError s); by simplify_eq/=.
    + destruct (eventsMux s) as [|ev evs]; [done|].
      destruct (relay picks (bridge s) ev (sio s)) as [[b' io'] [err|]];
        by simplify_eq/=.
  - unfold recv in Hstep. by rewrite Hclosed in Hstep.
  - unfold Receive in Hstep. destruct c; [by simplify_eq/=|].
    rewrite Hclosed in Hstep. by simplify_eq/=.
  - unfold Close_signal in Hstep. destruct (closed s); by simplify_eq/=.
  - unfold Close_wait in Hstep.
    destruct (closeError s); [|destruct (closeError_closed s)];
      by simplify_eq/=.
Qed.

Lemma run_after_recv ls s s' o :
  recvOut_closed s = true → run ls s = Ret (s', o) →
  recvOut_closed s' = true ∧ received o = [].
Proof.
  revert s o. induction ls as [|l ls IH]; intros s o Hclosed Hrun; simpl in Hrun.
  - by simplify_eq.
  - destruct (step l s) as [| |[s1 o1]] eqn:Hstep; [done..|].
    destruct (run ls s1) as [| |[s2 o2]] eqn:Hrest; [done..|]. simplify_eq.
    destruct (step_after_recv _ _ _ _ Hclosed Hstep) as [H1 Ho1].
    destruct (IH _ _ H1 Hrest) as [H2 Ho2].
    split; [done|]. by rewrite received_app, Ho1, Ho2.
Qed.

(** X9: recv returns, closing recvOut, only after mux has returned.
    From then on Receive never blocks and never hands out an event again,
    whatever was still unreceived: over any further run every Receive
    that reads recvOut reports io.EOF. *)
Theorem Receive_reports_EOF_after_recv_returned
    (channels : list Channel) (w : World) (ls ls' : list Label) (s s' : Sys)
    (o o' : list Obs) :
  run ls (New channels w) = Ret (s, o) →
  recvOut_closed s = true →
  run ls' s = Ret (s', o') →
  closeError_closed s = true ∧
  received o' = [] ∧
  Receive Receive_recvOut s' = Ret (s', inl io_EOF).
Proof.
  intros Hrun Hclosed Hrun'.
  destruct (run_inOrder _ _ _ _ _ _ Hrun (New_inOrder channels w))
    as (Hc & Hr & _).
  split; [by auto|].
  destruct (run_after_recv _ _ _ _ Hclosed Hrun') as [Hclosed' Ho'].
  split; [done|]. unfold Receive. by rewrite Hclosed'.
Qed.

(** ** Resolved entries *)

Lemma findEntry_app l l' origin id e :
  findEntry l origin id = Some e → findEntry (l ++ l') origin id = Some e.
Proof.
  induction l as [|e' l IH]; simpl; [done|].
  by destruct (hasCopy (copies e') origin id).
Qed.

Lemma logMessage_prefix b e' :
  length (b_log b) ≤ maxHistory →
  ∃ l', b_log (logMessage b e') = b_log b ++ l'.
Proof.
  intros Hlen. rewrite logMessage_log, take_app, take_ge by done. by eexists.
Qed.

Lemma step_bridge l s s' o :
  step l s = Ret (s', o) →
  bridge s' = bridge s ∨ ∃ e, bridge s' = logMessage (bridge s) e.
Proof.
  intros Hstep. destruct l as [ch r|c picks|c|c| |]; simpl in Hstep.
  - unfold poll in Hstep. case_decide; [|done].
    destruct r as [err|ev]; repeat case_decide; destruct (pollError s);
      simplify_eq/=; by left.
  - unfold mux in Hstep. destruct (closeError_closed s); [done|].
    destruct c.
    + destruct (closed s); simplify_eq/=; by left.
    + destruct (pollError s); simplify_eq/=; by left.
    + destruct (eventsMux s) as [|ev evs]; [done|].
      pose proof (relay_bridge picks (bridge s) ev (sio s)) as Hb.
      destruct (relay picks (bridge s) ev (sio s)) as [[b' io'] [err|]];
        by simplify_eq/=.
  - unfold recv in Hstep. destruct (recvOut_closed s); [done|]. destruct c.
    + destruct (cancelled s); simplify_eq/=; by left.
    + destruct (recvBatch s), (recvIn s); simplify_eq/=; by left.
  - unfold Receive in Hstep. destruct c; [simplify_eq/=; by left|].
    destruct (recvOut_closed s), (recvBatch s); simplify_eq/=; by left.
  - unfold Close_signal in Hstep. destruct (closed s); simplify_eq/=; by left.
  - unfold Close_wait in Hstep.
    destruct (closeError s); [|destruct (closeError_closed s)];
      simplify_eq/=; by left.
Qed.

Lemma run_prefix ls s s' o :
  run ls s = Ret (s', o) → length (b_log (bridge s)) ≤ maxHistory →
  ∃ l', b_log (bridge s') = b_log (bridge s) ++ l'.
Proof.
  revert s o. induction ls as [|l ls IH]; intros s o Hrun Hlen; simpl in Hrun.
  - simplify_eq. exists []. by rewrite app_nil_r.
  - destruct (step l s) as [| |[s1 o1]] eqn:Hstep; [done..|].
    destruct (run ls s1) as [| |[s2 o2]] eqn:Hrest; [done..|]. simplify_eq.
    destruct (IH _ _ Hrest) as [l2 H2]; [by eapply step_log_bound|].
    destruct (step_bridge _ _ _ _ Hstep) as [Hb|[e Hb]]; rewrite Hb in H2.
    + by exists l2.
    + destruct (logMessage_prefix (bridge s) e Hlen) as [l1 H1].
      exists (l1 ++ l2). by rewrite H2, H1, app_assoc.
Qed.

(** X10: what the log has resolved stays resolved.  The log (of at
    most 500 entries) only ever grows at its end: a relay, a send method
    and any run of the Bridge leave the entries it holds in place, so an
    identifier that resolves to an entry resolves to that same entry, and
    to the same copy on every channel, ever after. *)
Theorem resolved_entries_stay_resolved
    (origin : Channel) (id : MessageID) (e : logEntry) :
  (∀ picks b ev io,
      length (b_log b) ≤ 500 → findEntry (b_log b) origin id = Some e →
      findEntry (b_log (relay picks b ev io).1.1) origin id = Some e) ∧
  (∀ picks c b io,
      length (b_log b) ≤ 500 → findEntry (b_log b) origin id = Some e →
      findEntry (b_log (method picks c b io).1.1) origin id = Some e) ∧
  (∀ ls s s' o,
      run ls s = Ret (s', o) →
      length (b_log (bridge s)) ≤ 500 →
      findEntry (b_log (bridge s)) origin id = Some e →
      findEntry (b_log (bridge s')) origin id = Some e ∧
      ∀ ch, copyOn (bridge s') origin id ch = copyOn (bridge s) origin id ch).
Proof.
  split_and!.
  - intros picks b ev io Hlen Hfind.
    destruct (relay_bridge picks b ev io) as [->|[e' ->]]; [done|].
    destruct (logMessage_prefix b e' Hlen) as [l' ->]. by apply findEntry_app.
  - intros picks c b io Hlen Hfind.
    destruct (method_bridge picks c b io) as [->|[e' ->]]; [done|].
    destruct (logMessage_prefix b e' Hlen) as [l' ->]. by apply findEntry_app.
  - intros ls s s' o Hrun Hlen Hfind.
    destruct (run_prefix _ _ _ _ Hrun Hlen) as [l' Hlog].
    assert (Hfind' : findEntry (b_log (bridge s')) origin id = Some e).
    { rewrite Hlog. by apply findEntry_app. }
    split; [done|]. intros ch. unfold copyOn. by rewrite Hfind', Hfind.
Qed.

(** ** The calls of a run *)





(** ** The queue of mux *)

Lemma step_queue_bound l s s1 o1 :
  step l s = Ret (s1, o1) → length (eventsMux s) ≤ 100 →
  length (eventsMux s1) ≤ 100.
Proof.
  intros Hstep Hlen. destruct l as [ch r|c picks|c|c| |]; simpl in Hstep.
  - unfold poll in Hstep. case_decide; [|done].
    destruct r as [err|ev].
    + case_decide; [|destruct (pollError s)]; by simplify_eq/=.
    + case_decide; [|done]. simplify_eq/=. rewrite length_app. simpl. lia.
  - unfold mux in Hstep. destruct (closeError_closed s); [done|].
    destruct c.
    + destruct (closed s); by simplify_eq/=.
    + destruct (pollError s); by simplify_eq/=.
    + destruct (eventsMux s) as [|ev evs]; [done|].
      destruct (relay picks (bridge s) ev (sio s)) as [[b' io'] [err|]];
        simplify_eq/=; lia.
  - unfold recv in Hstep. destruct (recvOut_closed s); [done|]. destruct c.
    + destruct (cancelled s); by simplify_eq/=.
    + destruct (recvBatch s), (recvIn s); by simplify_eq/=.
  - unfold Receive in Hstep. destruct c; [by simplify_eq/=|].
    destruct (recvOut_closed s), (recvBatch s); by simplify_eq/=.
  - unfold Close_signal in Hstep. destruct (closed s); by simplify_eq/=.
  - unfold Close_wait in Hstep.
    destruct (closeError s); [|destruct (closeError_closed s)];
      by simplify_eq/=.
Qed.

Lemma run_queue_bound ls s s' o :
  run ls s = Ret (s', o) → length (eventsMux s) ≤ 100 →
  length (eventsMux s') ≤ 100.
Proof.
  revert s o. induction ls as [|l ls IH]; intros s o Hrun Hlen; simpl in Hrun.
  - by simplify_eq.
  - destruct (step l s) as [| |[s1 o1]] eqn:Hstep; [done..|].
    destruct (run ls s1) as [| |[s2 o2]] eqn:Hrest; [done..|]. simplify_eq.
    eapply IH; [done|]. by eapply step_queue_bound.
Qed.

(** X12: at most 100 events wait for mux.  Over any run of a new Bridge
    the queue eventsMux never holds more, a poller that has received an
    event blocks exactly while the queue holds 100, and otherwise puts
    the event, with its channel as origin, at the end of the queue. *)
Theorem eventsMux_holds_at_most_100
    (channels : list Channel) (w : World) (ls : list Label) (s' : Sys) (o : list Obs) :
  run ls (New channels w) = Ret (s', o) →
  length (eventsMux s') ≤ 100 ∧
  ∀ ch ev, ch ∈ polling s' →
    (poll ch (inr ev) s' = Blocked ↔ length (eventsMux s') = 100) ∧
    (length (eventsMux s') < 100 →
     ∃ s'', poll ch (inr ev) s' = Ret s'' ∧
            eventsMux s'' = eventsMux s' ++ [mkevent ch ev]).
Proof.
  intros Hrun. apply run_queue_bound in Hrun; [|simpl; lia].
  split; [done|]. intros ch ev Hch. unfold poll.
  rewrite decide_True by done. case_decide as Hlt.
  - split; [split; [done | lia]|]. intros _. by eexists.
  - split; [split; [lia | done] | lia].
Qed.

(** ** Close, twice *)

Lemma step_closed l s s1 o1 :
  step l s = Ret (s1, o1) →
  (closed s1 = true ↔ closed s = true ∨ l = LCloseSignal).
Proof.
  intros Hstep. destruct l as [ch r|c picks|c|c| |]; simpl in Hstep.
  - unfold poll in Hstep. case_decide; [|done].
    destruct r as [err|ev]; repeat case_decide; destruct (pollError s);
      simplify_eq/=; intuition congruence.
  - unfold mux in Hstep. destruct (closeError_closed s); [done|].
    destruct c.
    + destruct (closed s) eqn:?; simplify_eq/=; intuition congruence.
    + destruct (pollError s); simplify_eq/=; intuition congruence.
    + destruct (eventsMux s) as [|ev evs]; [done|].
      destruct (relay picks (bridge s) ev (sio s)) as [[b' io'] [err|]];
        simplify_eq/=; intuition congruence.
  - unfold recv in Hstep. destruct (recvOut_closed s); [done|]. destruct c.
    + destruct (cancelled s); simplify_eq/=; intuition congruence.
    + destruct (recvBatch s), (recvIn s); simplify_eq/=; intuition congruence.
  - unfold Receive in Hstep. destruct c; [simplify_eq/=; intuition congruence|].
    destruct (recvOut_closed s), (recvBatch s); simplify_eq/=; intuition congruence.
  - unfold Close_signal in Hstep. destruct (closed s) eqn:?; simplify_eq/=; intuition congruence.
  - unfold Close_wait in Hstep.
    destruct (closeError s); [|destruct (closeError_closed s)];
      simplify_eq/=; intuition congruence.
Qed.

Lemma run_closed ls s s' o :
  run ls s = Ret (s', o) →
  (closed s' = true ↔ closed s = true ∨ LCloseSignal ∈ ls).
Proof.
  revert s o. induction ls as [|l ls IH]; intros s o Hrun; simpl in Hrun.
  - simplify_eq. rewrite elem_of_nil. tauto.
  - destruct (step l s) as [| |[s1 o1]] eqn:Hstep; [done..|].
    destruct (run ls s1) as [| |[s2 o2]] eqn:Hrest; [done..|]. simplify_eq.
    rewrite (IH _ _ Hrest), (step_closed _ _ _ _ Hstep), elem_of_cons.
    intuition congruence.
Qed.

(** X13: Close may be called once.  Close begins by closing the channel
    [closed]; after any run of a new Bridge this panics exactly when
    Close was called before in that run, whatever else happened in
    between, and on a Bridge not closed before it does not block and
    marks the Bridge closed. *)
Theorem Close_panics_exactly_when_called_twice
    (channels : list Channel) (w : World) (ls : list Label) (s' : Sys) (o : list Obs) :
  run ls (New channels w) = Ret (s', o) →
  (Close_signal s' = Panics ↔ LCloseSignal ∈ ls) ∧
  (LCloseSignal ∉ ls → Close_signal s' = Ret (set_closed true s')).
Proof.
  intros Hrun. apply run_closed in Hrun. simpl in Hrun.
  unfold Close_signal. destruct (closed s'); intuition congruence.
Qed.

(** ** What the log holds *)

Lemma others_and_origin b origin :
  NoDup (b_channels b) → origin ∈ b_channels b →
  allChannelsExcept b origin ++ [origin] ≡ₚ b_channels b.
Proof.
  intros Hnd Hin. apply NoDup_Permutation; [|done|].
  - apply NoDup_app. split; [by apply NoDup_allChannelsExcept|].
    split; [|apply NoDup_singleton].
    intros x Hx Hx'. apply list_elem_of_singleton in Hx' as ->.
    by apply elem_of_allChannelsExcept in Hx as [_ ?].
  - intros x. rewrite elem_of_app, elem_of_allChannelsExcept, list_elem_of_singleton.
    destruct (decide (x = origin)) as [->|]; intuition congruence.
Qed.

Lemma logComplete_append b b' e :
  logComplete b → complete b e →
  b_channels b' = b_channels b →
  b_log b' = take maxHistory (b_log b ++ [e]) →
  logComplete b'.
Proof.
  unfold logComplete, complete. intros Hlog He -> ->.
  apply Forall_take, Forall_app. split; [done|]. by constructor.
Qed.

Lemma nextID_keeps b : b_log (nextID b).1 = b_log b ∧ b_channels (nextID b).1 = b_channels b.
Proof. done. Qed.

(** X14: every entry the Bridge writes to its log holds exactly one copy
    for each bridged channel, the origin included, and the entry of a
    message sent through the Bridge one more for the Bridge itself.  So
    this holds of the whole log of a Bridge over distinct channels after
    any relay of an event of a bridged channel and any send method, and
    then each entry answers a lookup for any bridged channel. *)
Theorem log_entries_hold_a_copy_per_channel
    (picks picks' : list nat) (c : LocalCall) (ev : event) (b : Bridge) (io io' : IO) :
  logComplete b →
  NoDup (b_channels b) →
  ev_origin ev ∈ b_channels b →
  logComplete (relay picks b ev io).1.1 ∧
  logComplete (method picks' c b io').1.1 ∧
  (∀ e ch, e ∈ b_log b → ch ∈ b_channels b →
           ∃ copy, findCopy (copies e) ch = Some copy ∧ to copy = Some ch).
Proof.
  intros Hlog Hnd Horigin. split_and!.
  - destruct (relay_entry picks b ev io) as [->|(e & -> & Hto)]; [done|].
    eapply logComplete_append;
      [done | | apply logMessage_channels | apply logMessage_log].
    left. rewrite Hto. by rewrite others_and_origin.
  - rewrite method_generic.
    destruct (sendMessage_spec picks' (b_channels b) (sendAsOf c) _ (replyCopy b c)
                (textOfCall c) io' (method_answers b c)) as (calls & _ & _ & Hres).
    destruct (sendMessage _ _ _ _ _ _) as [io1 [err|msgs]]; simpl in Hres; [done|].
    destruct Hres as (_ & Hlen & Hmsgs).
    destruct (nextID_keeps b) as [Hl Hc].
    destruct (nextID b) as [b1 id]. simpl in *.
    eapply logComplete_append; [done | | | ].
    2: { by rewrite logMessage_channels, Hc. }
    2: { by rewrite logMessage_log, Hl. }
    right. simpl. rewrite !fmap_app. simpl.
    by rewrite (copies_to _ _ _ Hlen Hmsgs).
  - intros e ch He Hch.
    apply (proj1 (Forall_forall _ _) Hlog) in He.
    assert (Hin : Some ch ∈ to <$> copies e).
    { destruct He as [-> | ->]; apply list_elem_of_fmap_2; [done|].
      apply elem_of_app. by left. }
    destruct (findCopy (copies e) ch) as [copy|] eqn:Hfind.
    + exists copy. split; [done|]. by apply findCopy_Some in Hfind as [_ ?].
    + apply list_elem_of_fmap in Hin as (c0 & Hto & Hc0).
      by destruct (proj1 (findCopy_None _ _) Hfind c0 Hc0).
Qed.

(** ** Deleting and editing a relayed message *)

Lemma omap_zip_with {A C} (g : Channel → option A) (k : Channel → C → A)
    (chs : list Channel) (cs : list C) :
  length cs = length chs →
  (∀ i ch c, chs !! i = Some ch → cs !! i = Some c → g ch = Some (k ch c)) →
  omap g chs = zip_with k chs cs.
Proof.
  revert cs. induction chs as [|ch chs IH]; intros [|c0 cs] Hlen Hg; try done.
  csimpl. rewrite (Hg 0 ch c0 eq_refl eq_refl). simpl. f_equal.
  apply IH; [by simplify_eq/=|]. intros i ch' c' H1 H2. by apply (Hg (S i)).
Qed.

Lemma relay_Message_shape picks b origin m io :
  let targets := allChannelsExcept b origin in
  let r := relay picks b (mkevent origin (EvMessage m)) io in
  ∃ calls,
    trace r.1.2 = trace io ++ calls ∧
    match r.2 with
    | Some e => r.1.1 = b
    | None =>
        ∃ msgs,
          length msgs = length targets ∧
          (∀ i ch, targets !! i = Some ch →
                   ∃ m', msgs !! i = Some (mkmessage (Some ch) m') ∧
                         CallSend ch (OpSendAs (Message_From m) (Message_Text m))
                                  (inr m') ∈ calls) ∧
          r.1.1 = logMessage b (mklogEntry origin (msgs ++ [mkmessage (Some origin) m]))
    end.
Proof.
  intros targets r.
  destruct (sendMessage_spec picks targets (Some (Message_From m)) None
              (fun _ => None) (Message_Text m) io nil_answers)
    as (calls & Htr & _ & Hres).
  exists calls. subst r. unfold relay. simpl. fold targets.
  destruct (sendMessage _ _ _ _ _ _) as [io' [err|msgs]]; simpl in *; [done|].
  destruct Hres as (_ & Hlen & Hmsgs). split; [done|]. by exists msgs.
Qed.

(** X15: a Message relayed from a bridged channel can afterwards be
    deleted and edited from there.  When the relay succeeded, the log had
    room for its entry and no earlier entry holds a copy of that channel
    with the same identifier, the relay of a Delete (an Edit) of the
    Message's identifier calls Delete (Edit, with the new text) on every
    other channel, each with the identifier of the Message that very
    channel returned when the Message was relayed. *)
Theorem relayed_message_can_be_deleted_and_edited
    (picks picks' picks'' : list nat) (b : Bridge) (origin : Channel) (m : Message)
    (newID : MessageID) (text : string) (io : IO) :
  NoDup (b_channels b) →
  length (b_log b) < 500 →
  findEntry (b_log b) origin (Message_ID m) = None →
  let targets := allChannelsExcept b origin in
  let r := relay picks b (mkevent origin (EvMessage m)) io in
  r.2 = None →
  ∃ calls msgs,
    trace r.1.2 = trace io ++ calls ∧
    length msgs = length targets ∧
    (∀ i ch, targets !! i = Some ch →
             ∃ m', msgs !! i = Some (mkmessage (Some ch) m') ∧
                   CallSend ch (OpSendAs (Message_From m) (Message_Text m)) (inr m')
                   ∈ calls) ∧
    (∃ calls',
       trace (relay picks' r.1.1 (mkevent origin (EvDelete (Message_ID m))) r.1.2).1.2
       = trace r.1.2 ++ calls' ∧
       request <$> calls'
       ≡ₚ zip_with (fun ch c' => ReqDelete ch (Message_ID (msg c'))) targets msgs) ∧
    (∃ calls',
       trace (relay picks'' r.1.1 (mkevent origin (EvEdit (Message_ID m) newID text))
                r.1.2).1.2
       = trace r.1.2 ++ calls' ∧
       request <$> calls'
       ≡ₚ zip_with (fun ch c' => ReqEdit ch (Message_ID (msg c')) text) targets msgs).
Proof.
  intros Hnd Hroom Hnew targets r Hok.
  destruct (relay_Message_shape picks b origin m io) as (calls & Htr & Hres).
  fold targets r in Htr, Hres. rewrite Hok in Hres.
  destruct Hres as (msgs & Hlen & Hmsgs & Hb1).
  set (entry := mklogEntry origin (msgs ++ [mkmessage (Some origin) m])) in *.
  generalize dependent (r.1.2). generalize dependent (r.1.1). clear r Hok.
  intros b1 -> io1 Htr.
  assert (Htargets : allChannelsExcept (logMessage b entry) origin = targets).
  { unfold allChannelsExcept. by rewrite logMessage_channels. }
  assert (Hentry : findEntry (b_log (logMessage b entry)) origin (Message_ID m)
                   = Some entry).
  { rewrite logMessage_room by done. apply findEntry_first.
    - by apply findEntry_None.
    - apply hasCopy_true. exists (mkmessage (Some origin) m).
      split; [|done]. apply elem_of_app. right. by left. }
  assert (Hto : NoDup (to <$> copies entry)).
  { simpl. rewrite fmap_app, (copies_to _ _ _ Hlen Hmsgs). simpl.
    apply NoDup_app. split.
    { apply (NoDup_fmap_2 Some). by apply NoDup_allChannelsExcept. }
    split; [|apply NoDup_singleton].
    intros x Hx Hx'. apply list_elem_of_singleton in Hx' as ->.
    apply list_elem_of_fmap in Hx as (ch & [= <-] & Hch).
    by apply elem_of_allChannelsExcept in Hch as [_ ?]. }
  assert (Hcopy : ∀ i ch c', targets !! i = Some ch → msgs !! i = Some c' →
                    copyOn (logMessage b entry) origin (Message_ID m) ch
                    = Some (msg c')).
  { intros i ch c' Hi Hc'. destruct (Hmsgs i ch Hi) as (m' & Hm' & _).
    rewrite Hm' in Hc'. injection Hc' as <-.
    unfold copyOn. rewrite Hentry.
    rewrite (findCopy_NoDup _ (mkmessage (Some ch) m') ch); [done | done | | done].
    simpl. apply elem_of_app. left. by eapply list_elem_of_lookup_2. }
  exists calls, msgs. split; [done|]. split; [done|]. split; [done|]. split.
  - destruct (group_calls _ _ picks' (allChannelsExcept (logMessage b entry) origin) io1
                (deleteBody_spec _ _
                   (makeFindMessage_answers (logMessage b entry) origin (Message_ID m))))
      as (calls' & Htr' & Hreq' & _).
    exists calls'. unfold relay, deleteMessage. cbn [what ev_origin].
    destruct (runGroup _ _ _ _) as [io2 r2]. split; [done|].
    rewrite Hreq', Htargets.
    rewrite (omap_zip_with _ (fun ch c' => ReqDelete ch (Message_ID (msg c')))
               targets msgs); [done | done |].
    intros i ch c' Hi Hc'. unfold deleteReq. by rewrite (Hcopy i ch c').
  - destruct (group_calls _ _ picks'' (allChannelsExcept (logMessage b entry) origin) io1
                (editBody_spec _ _ text
                   (makeFindMessage_answers (logMessage b entry) origin (Message_ID m))))
      as (calls' & Htr' & Hreq' & _).
    exists calls'. unfold relay, editMessage. cbn [what ev_origin].
    destruct (runGroup _ _ _ _) as [io2 r2]. split; [done|].
    rewrite Hreq', Htargets.
    rewrite (omap_zip_with _ (fun ch c' => ReqEdit ch (Message_ID (msg c')) text)
               targets msgs); [done | done |].
    intros i ch c' Hi Hc'. unfold editReq. by rewrite (Hcopy i ch c').
Qed.

End MoreRelayTheory.

(** ** The properties at work *)

(** X2 at work: SendAs on a new Bridge over A and B. *)
Lemma Bridge_send_methods_witness :
  let b := mkBridge [chA; chB] 0 [] in
  (0 ≤ b_nextID b < 2 ^ 63 - 1)%Z ∧
  ∃ calls,
    trace (method (B := healthy) [1] (callSendAs alice "a") b io0).1.2 = calls ∧
    request <$> calls ≡ₚ [ReqSend chA (OpSendAs alice "a");
                           ReqSend chB (OpSendAs alice "a")].
Proof.
  intros b. assert (Hn : (0 ≤ b_nextID b < 2 ^ 63 - 1)%Z) by (simpl; lia).
  split; [exact Hn|].
  destruct (Bridge_send_methods (B := healthy) [1] (callSendAs alice "a") b io0 Hn)
    as (calls & Htr & Hreq & _).
  exists calls. split; [exact Htr | exact Hreq].
Defined.

Lemma Self_not_AB : Self ∉ [chA; chB].
Proof. by apply (bool_decide_unpack _). Defined.

(** X3 at work: a Send on, and a relay by, a new Bridge over A and B. *)
Lemma local_ids_stay_fresh_witness :
  let b := mkBridge [chA; chB] 0 [] in
  let ev := mkevent chA (EvMessage hi) in
  selfFresh b ∧ (Self ∉ b_channels b) ∧ ev_origin ev ≠ Self ∧
  (0 ≤ b_nextID b < 2 ^ 63 - 1)%Z ∧
  selfFresh (method (B := healthy) [] (callSend "a") b io0).1.1 ∧
  selfFresh (relay (B := healthy) [] b ev io0).1.1.
Proof.
  intros b ev.
  assert (Hn : (0 ≤ b_nextID b < 2 ^ 63 - 1)%Z) by (simpl; lia).
  assert (Hev : ev_origin ev ≠ Self) by done.
  split; [apply selfFresh_new|]. split; [exact Self_not_AB|].
  split; [exact Hev|]. split; [exact Hn|].
  destruct (local_ids_stay_fresh (B := healthy) [] [] (callSend "a") ev b io0 io0
              (selfFresh_new _) Self_not_AB Hev Hn) as (H1 & H2 & _).
  split; [exact H1 | exact H2].
Defined.

(** X4 at work: a Send on a new Bridge over A and B, then a Reply to
    the Message it returned. *)
Lemma Bridge_reply_threads_on_every_channel_witness :
  let b := mkBridge [chA; chB] 0 [] in
  let sent := method (B := healthy) [] (callSend "a") b io0 in
  let m := mkMessage "0" (me b) "a" in
  selfFresh b ∧ (Self ∉ b_channels b) ∧ NoDup (b_channels b) ∧
  length (b_log b) < 500 ∧ (0 ≤ b_nextID b < 2 ^ 63 - 1)%Z ∧
  sent.2 = inr m ∧
  ∃ msgs calls',
    length msgs = 2 ∧
    trace (Bridge_Reply (B := healthy) [1] sent.1.1 m "b" sent.1.2).1.2
    = trace sent.1.2 ++ calls' ∧
    request <$> calls'
    ≡ₚ zip_with (fun ch c' => ReqSend ch (OpReply (msg c') "b")) [chA; chB] msgs.
Proof.
  intros b sent m.
  assert (Hn : (0 ≤ b_nextID b < 2 ^ 63 - 1)%Z) by (simpl; lia).
  assert (Hroom : length (b_log b) < 500) by (simpl; lia).
  assert (Hok : (method (B := healthy) [] (callSend "a") b io0).2 = inr m)
    by reflexivity.
  split; [apply selfFresh_new|]. split; [exact Self_not_AB|].
  split; [exact NoDup_AB|]. split; [exact Hroom|]. split; [exact Hn|].
  split; [exact Hok|].
  destruct (Bridge_reply_threads_on_every_channel (B := healthy) [] [1]
              (callSend "a") b io0 m "b" (selfFresh_new _) Self_not_AB NoDup_AB
              Hroom Hn Hok) as (calls & msgs & calls' & _ & Hlen & _ & Htr & Hreq).
  exists msgs, calls'. split; [exact Hlen|]. split; [exact Htr | exact Hreq].
Defined.

(** X6 at work: a Reply, relayed from A, to a message a new Bridge over
    A, B and C has no record of. *)
Lemma relay_reply_unresolved_sends_witness :
  let b := mkBridge [chA; chB; chC] 0 [] in
  (∀ e c, e ∈ b_log b → c ∈ copies e →
          ¬ (to c = Some chA ∧ Message_ID (msg c) = Message_ID hi)) ∧
  ∃ calls,
    trace (relay (B := healthy) [] b (mkevent chA (EvReply hi hey)) io0).1.2 = calls ∧
    request <$> calls ≡ₚ [ReqSend chB (OpSend "hey"); ReqSend chC (OpSend "hey")].
Proof.
  intros b.
  assert (Hmiss : ∀ e c, e ∈ b_log b → c ∈ copies e →
                         ¬ (to c = Some chA ∧ Message_ID (msg c) = Message_ID hi)).
  { intros e c He. by apply elem_of_nil in He. }
  split; [exact Hmiss|].
  destruct (relay_reply_unresolved_sends (B := healthy) [] b chA hi hey io0 Hmiss)
    as (calls & Htr & Hreq & _).
  exists calls. split; [exact Htr | exact Hreq].
Defined.

(** X8 at work: A and B each deliver a message; mux relays the first,
    recv takes it and Receive hands it out. *)
Lemma Receive_keeps_poll_order_witness :
  let ls := [LPoll chA (inr (EvMessage hi)); LPoll chB (inr (EvMessage hey));
             LMux mux_eventsMux []; LRecv recv_recvIn; LReceive Receive_recvOut] in
  ∃ s' o,
    run (B := healthy) ls (New (B := healthy) [chA; chB] 0) = Ret (s', o) ∧
    closeError_closed s' = false ∧
    received o `prefix_of` [EvMessage hi; EvMessage hey] ∧
    received o ++ unreceived s' ++ (what <$> eventsMux s')
    = [EvMessage hi; EvMessage hey].
Proof.
  intros ls.
  destruct (run (B := healthy) ls (New (B := healthy) [chA; chB] 0)) as [| |[s' o]] eqn:Hrun;
    [by vm_compute in Hrun..|].
  assert (Hmux : closeError_closed s' = false).
  { vm_compute in Hrun. by injection Hrun as <- <-. }
  destruct (Receive_keeps_poll_order (B := healthy) [chA; chB] 0 ls s' o Hrun)
    as [Hprefix Hall].
  exists s', o. split; [reflexivity|]. split; [exact Hmux|].
  split; [exact Hprefix | exact (Hall Hmux)].
Defined.

(** X9 at work: after Close, mux and recv return; Receive reports io.EOF. *)
Lemma Receive_reports_EOF_after_recv_returned_witness :
  let ls := [LCloseSignal; LMux mux_closed []; LRecv recv_Done] in
  ∃ s o,
    run (B := healthy) ls (New (B := healthy) [chA; chB] 0) = Ret (s, o) ∧
    recvOut_closed s = true ∧
    run (B := healthy) [LReceive Receive_recvOut] s
    = Ret (s, [ObsReceive (inl io_EOF)]) ∧
    Receive Receive_recvOut s = Ret (s, inl io_EOF).
Proof.
  intros ls.
  destruct (run (B := healthy) ls (New (B := healthy) [chA; chB] 0)) as [| |[s o]] eqn:Hrun;
    [by vm_compute in Hrun..|].
  assert (Hclosed : recvOut_closed s = true).
  { vm_compute in Hrun. by injection Hrun as <- <-. }
  assert (Hrun' : run (B := healthy) [LReceive Receive_recvOut] s
                  = Ret (s, [ObsReceive (inl io_EOF)])).
  { simpl. unfold Receive. by rewrite Hclosed. }
  destruct (Receive_reports_EOF_after_recv_returned (B := healthy) [chA; chB] 0 ls
              [LReceive Receive_recvOut] s s o [ObsReceive (inl io_EOF)]
              Hrun Hclosed Hrun') as (_ & _ & HEOF).
  exists s, o. split; [reflexivity|]. split; [exact Hclosed|].
  split; [exact Hrun' | exact HEOF].
Defined.


(** X12 at work: the poller of A queues [hi] on a new Bridge. *)
Lemma eventsMux_holds_at_most_100_witness :
  ∃ s' o,
    run (B := healthy) [LPoll chA (inr (EvMessage hi))] (New (B := healthy) [chA; chB] 0)
    = Ret (s', o) ∧
    length (eventsMux s') ≤ 100.
Proof.
  destruct (run (B := healthy) [LPoll chA (inr (EvMessage hi))]
              (New (B := healthy) [chA; chB] 0)) as [| |[s' o]] eqn:Hrun;
    [by vm_compute in Hrun..|].
  exists s', o. split; [reflexivity|].
  exact (proj1 (eventsMux_holds_at_most_100 (B := healthy) [chA; chB] 0 _ s' o Hrun)).
Defined.

(** X13 at work: Close on a new Bridge, and Close again. *)
Lemma Close_panics_exactly_when_called_twice_witness :
  ∃ s' o,
    run (B := healthy) [LCloseSignal] (New (B := healthy) [chA; chB] 0) = Ret (s', o) ∧
    Close_signal s' = Panics.
Proof.
  destruct (run (B := healthy) [LCloseSignal] (New (B := healthy) [chA; chB] 0))
    as [| |[s' o]] eqn:Hrun; [by vm_compute in Hrun..|].
  destruct (Close_panics_exactly_when_called_twice (B := healthy) [chA; chB] 0
              [LCloseSignal] s' o Hrun) as [Hpanic _].
  exists s', o. split; [reflexivity|]. apply Hpanic. by left.
Defined.

(** X14 at work: the log of a new Bridge over A and B after a relay. *)
Lemma log_entries_hold_a_copy_per_channel_witness :
  let b := mkBridge [chA; chB] 0 [] in
  let ev := mkevent chA (EvMessage hi) in
  logComplete b ∧ NoDup (b_channels b) ∧ ev_origin ev ∈ b_channels b ∧
  logComplete (relay (B := healthy) [] b ev io0).1.1.
Proof.
  intros b ev.
  assert (Hlog : logComplete b) by constructor.
  assert (Hin : ev_origin ev ∈ b_channels b) by (by left).
  split; [exact Hlog|]. split; [exact NoDup_AB|]. split; [exact Hin|].
  exact (proj1 (log_entries_hold_a_copy_per_channel (B := healthy) [] []
                  (callSend "a") ev b io0 io0 Hlog NoDup_AB Hin)).
Defined.

(** X15 at work: [hi] of A relayed by a new Bridge over A, B and C, and
    then deleted on A. *)
Lemma relayed_message_can_be_deleted_and_edited_witness :
  let b := mkBridge [chA; chB; chC] 0 [] in
  let r := relay (B := healthy) [] b (mkevent chA (EvMessage hi)) io0 in
  NoDup (b_channels b) ∧ length (b_log b) < 500 ∧
  findEntry (b_log b) chA (Message_ID hi) = None ∧ r.2 = None ∧
  ∃ msgs calls',
    length msgs = 2 ∧
    trace (relay (B := healthy) [1] r.1.1 (mkevent chA (EvDelete "1")) r.1.2).1.2
    = trace r.1.2 ++ calls' ∧
    request <$> calls'
    ≡ₚ zip_with (fun ch c' => ReqDelete ch (Message_ID (msg c'))) [chB; chC] msgs.
Proof.
  intros b r.
  assert (Hroom : length (b_log b) < 500) by (simpl; lia).
  assert (Hnew : findEntry (b_log b) chA (Message_ID hi) = None) by reflexivity.
  assert (Hok : r.2 = None) by reflexivity.
  split; [exact NoDup_ABC|]. split; [exact Hroom|]. split; [exact Hnew|].
  split; [exact Hok|].
  destruct (relayed_message_can_be_deleted_and_edited (B := healthy) [] [1] []
              b chA hi "1" "hi!" io0 NoDup_ABC Hroom Hnew Hok)
    as (calls & msgs & _ & Hlen & _ & (calls' & Htr & Hreq) & _).
  exists msgs, calls'. split; [exact Hlen|]. split; [exact Htr | exact Hreq].
Defined.

End MoreBridgeTheory.

(** * More properties of the Telegram channel *)
Module MoreTelegramTheory.
Import strconv telegram telegram_more TelegramExamples TelegramTheory.

Section MoreMappingTheory.
Variable TrimSpace : string → string.
Variable joinURL : string → string → string.

(** X16: the mapping of an Update panics in one case only, the one of a
    member leaving: on a Message that is not older than the channel (nor
    is an EditedMessage of the same Update), has a From, is no reply to a
    message with a From, and carries a LeftChatMember and no
    NewChatMember.  Every Update of that kind makes it panic, and no
    other Update does. *)
Theorem chatEvent_panics_exactly_on_leave (ch : channel) (u : Update) :
  chatEvent TrimSpace joinURL ch u = Panic ↔
  ∃ m, Update_Message u = Some m ∧
       ¬ (Time m < created ch)%Z ∧
       (∀ e, EditedMessage u = Some e → ¬ (Time e < created ch)%Z) ∧
       From m ≠ None ∧
       hasFrom (ReplyToMessage m) = false ∧
       NewChatMember m = None ∧
       LeftChatMember m ≠ None.
Proof.
  split.
  - unfold telegram.chatEvent, telegram.chatMessage, telegram.chatUser,
      mbind, Go_bind, hasFrom, notNil.
    intros H.
    repeat (first [case_match | case_decide]; simplify_eq/=; try done).
    all: eexists; (split; [done|]); split_and!; try done.
    all: try (intros e ?; by simplify_eq).
    all: try congruence.
    all: by repeat (case_match; simplify_eq/=).
  - intros (m & Hm & Hnew & Hedit & Hfrom & Hreply & Hjoin & Hleft).
    destruct (From m) as [from|] eqn:Hf; [|done].
    destruct (LeftChatMember m) as [left|] eqn:Hl; [|done].
    eapply chatEvent_Leave_panics; try done.
    destruct (EditedMessage u) as [e|]; [by apply Hedit | done].
Qed.

Lemma chatMessage_Ok (c : Client) (m : Message) (x : chat.Message) :
  chatMessage TrimSpace joinURL c m = Ok x →
  ∃ from, From m = Some from ∧
          chatUser TrimSpace joinURL c (Some from) = Ok (chat.Message_From x) ∧
          chat.Message_ID x = Itoa (MessageID m) ∧
          chat.Message_Text x = messageText m.
Proof.
  unfold chatMessage, mbind, Go_bind.
  destruct (From m) as [from|]; [|done]. simpl. intros [= <-]. by exists from.
Qed.

(** X17: what an event the mapping returns tells about its Update.  A
    Message or a Reply comes from a Message of the Update that has a From
    and is not older than the channel, and carries the decimal MessageID
    of that Message (a Reply also that of the Message replied to); a Join
    carries the user made of NewChatMember; an Edit comes from an Update
    without a Message, of an EditedMessage not older than the channel,
    and its ID and NewID are both the decimal MessageID of that
    EditedMessage.  Delete, Leave and Rename events are never returned. *)
Theorem chatEvent_events (ch : channel) (u : Update) (ev : chat.Event) :
  chatEvent TrimSpace joinURL ch u = Ok (Some ev) →
  match ev with
  | chat.EvMessage m =>
      ∃ msg from, Update_Message u = Some msg ∧ ¬ (Time msg < created ch)%Z ∧
                  From msg = Some from ∧
                  chatUser TrimSpace joinURL (client ch) (Some from)
                  = Ok (chat.Message_From m) ∧
                  chat.Message_ID m = Itoa (MessageID msg)
  | chat.EvReply replyTo reply =>
      ∃ msg r, Update_Message u = Some msg ∧ ¬ (Time msg < created ch)%Z ∧
               ReplyToMessage msg = Some r ∧
               chatMessage TrimSpace joinURL (client ch) r = Ok replyTo ∧
               chatMessage TrimSpace joinURL (client ch) msg = Ok reply ∧
               chat.Message_ID replyTo = Itoa (MessageID r) ∧
               chat.Message_ID reply = Itoa (MessageID msg)
  | chat.EvJoin who =>
      ∃ msg, Update_Message u = Some msg ∧ ¬ (Time msg < created ch)%Z ∧
             NewChatMember msg ≠ None ∧
             chatUser TrimSpace joinURL (client ch) (NewChatMember msg) = Ok who
  | chat.EvEdit id newID text =>
      ∃ e, Update_Message u = None ∧ EditedMessage u = Some e ∧
           ¬ (Time e < created ch)%Z ∧
           id = Itoa (MessageID e) ∧ newID = id ∧ text = messageText e
  | _ => False
  end.
Proof.
  unfold chatEvent. intros H.
  destruct (Update_Message u) as [m|] eqn:Hm.
  - case_decide as Hold; [done|].
    destruct (match EditedMessage u with Some _ => _ | None => _ end); [done|].
    destruct (From m) as [from|] eqn:Hfrom; simpl in H; [|done].
    destruct (hasFrom (ReplyToMessage m)) eqn:Hreply.
    { destruct (ReplyToMessage m) as [r|] eqn:Hr; [|done].
      destruct (chatMessage TrimSpace joinURL (client ch) r) as [|rt] eqn:Hrt;
        [done|].
      destruct (chatMessage TrimSpace joinURL (client ch) m) as [|rp] eqn:Hrp;
        [done|].
      simpl in H. simplify_eq.
      destruct (chatMessage_Ok _ _ _ Hrt) as (? & _ & _ & Hid1 & _).
      destruct (chatMessage_Ok _ _ _ Hrp) as (? & _ & _ & Hid2 & _).
      by exists m, r. }
    destruct (NewChatMember m) as [nu|] eqn:Hj; simpl in H.
    { simplify_eq. exists m. rewrite Hj. by split_and!. }
    destruct (LeftChatMember m); [done|]. simpl in H.
    destruct (Message_Document m) as [d|].
    { destruct (mediaURL joinURL (client ch) (Document_FileID d)) as [url [|]];
        [|done].
      simplify_eq. by exists m, from. }
    destruct (Message_Sticker m) as [st|].
    { destruct (mediaURL joinURL (client ch) (Sticker_FileID st)) as [url [|]];
        [|done].
      simplify_eq. by exists m, from. }
    destruct (Text m) as [t|] eqn:Ht; [|done].
    destruct (chatMessage TrimSpace joinURL (client ch) m) as [|m'] eqn:Hm';
      [done|].
    simpl in H. simplify_eq.
    destruct (chatMessage_Ok _ _ _ Hm') as (from' & Hf' & Huser & Hid & _).
    rewrite Hfrom in Hf'. simplify_eq. by exists m, from'.
  - destruct (EditedMessage u) as [e|] eqn:He; [|done].
    case_decide; [done|]. simplify_eq. by exists e.
Qed.

(** X18: the Updates the mapping ignores, returning no event and no
    error: an Update with neither Message nor EditedMessage; one whose
    Message, or whose EditedMessage, is older than the channel, whatever
    the other is; one whose Message has no From; and, on a Client without
    a local URL, every Message with a Document or a Sticker that is
    neither a reply nor a membership change, caption or not. *)
Theorem chatEvent_ignores (ch : channel) (u : Update) :
  (Update_Message u = None ∧ EditedMessage u = None) ∨
  (∃ m, Update_Message u = Some m ∧ ((Time m < created ch)%Z ∨ From m = None)) ∨
  (∃ e, EditedMessage u = Some e ∧ (Time e < created ch)%Z) ∨
  (∃ m, Update_Message u = Some m ∧ localURL (client ch) = None ∧
        hasFrom (ReplyToMessage m) = false ∧
        NewChatMember m = None ∧ LeftChatMember m = None ∧
        (Message_Document m ≠ None ∨ Message_Sticker m ≠ None)) →
  chatEvent TrimSpace joinURL ch u = Ok None.
Proof.
  unfold telegram.chatEvent, telegram.chatMessage, telegram.chatUser,
    telegram.mediaURL, mbind, Go_bind, hasFrom, notNil.
  intros [[H1 H2]|[(m & Hm & H)|[(e & He & H)|(m & Hm & Hurl & Hr & Hj & Hl & H)]]].
  - by rewrite H1, H2.
  - rewrite Hm. destruct H as [H| ->].
    + by rewrite decide_True.
    + repeat (first [case_match | case_decide]; simplify_eq/=; try done).
  - rewrite He.
    destruct (Update_Message u) as [m|]; [|by rewrite decide_True].
    rewrite bool_decide_eq_true_2 by done. by case_decide.
  - rewrite Hm, Hurl, Hj, Hl.
    repeat (first [case_match | case_decide]; simplify_eq/=; try done);
      by destruct H.
Qed.

End MoreMappingTheory.

(** ** The profile photo *)

Lemma biggestPhoto_loop (seen l : list PhotoSize) (acc : Z * string) :
  let f := fun '(size, photo) ps =>
             if overLimit ps then (size, photo)
             else
               let sz := area ps in
               if decide (size < sz)%Z then (sz, PhotoSize_FileID ps)
               else (size, photo) in
  let J := fun (seen : list PhotoSize) (acc : Z * string) =>
             (∀ q, q ∈ seen → overLimit q = false → (area q ≤ acc.1)%Z) ∧
             ((acc.1 = 0%Z ∧ acc.2 = EmptyString) ∨
              ∃ best, best ∈ seen ∧ overLimit best = false ∧ area best = acc.1 ∧
                      (0 < acc.1)%Z ∧ PhotoSize_FileID best = acc.2) in
  J seen acc → J (seen ++ l) (foldl f acc l).
Proof.
  intros f J. revert seen acc.
  induction l as [|ps l IH]; intros seen [size photo] HJ; simpl.
  - by rewrite app_nil_r.
  - replace (seen ++ ps :: l) with ((seen ++ [ps]) ++ l) by by rewrite <- app_assoc.
    apply IH. destruct HJ as [Hmax Hbest]. simpl in *.
    destruct (overLimit ps) eqn:Hps.
    + split.
      * intros q Hq Hok. apply elem_of_app in Hq as [Hq|Hq]; [by apply Hmax|].
        apply list_elem_of_singleton in Hq as ->. congruence.
      * destruct Hbest as [?|(best & Hin & ?)]; [by left|].
        right. exists best. split; [|done]. apply elem_of_app. by left.
    + simpl. case_decide as Hlt; simpl.
      * split.
        { intros q Hq Hok. apply elem_of_app in Hq as [Hq|Hq].
          - specialize (Hmax q Hq Hok). simpl in *; lia.
          - apply list_elem_of_singleton in Hq as ->. simpl in *; lia. }
        right. exists ps. split; [apply elem_of_app; right; by left|].
        split; [done|]. split; [done|]. split; [|done].
        destruct Hbest as [[-> _]|(_ & _ & _ & _ & ? & _)]; simpl in *; lia.
      * split.
        { intros q Hq Hok. apply elem_of_app in Hq as [Hq|Hq]; [by apply Hmax|].
          apply list_elem_of_singleton in Hq as ->. simpl in *; lia. }
        destruct Hbest as [?|(best & Hin & ?)]; [by left|].
        right. exists best. split; [|done]. apply elem_of_app. by left.
Qed.

(** X19: biggestPhoto returns the empty string for no photos, and
    otherwise the FileID of one of the photos.  When a photo is under the
    size limit of 20 megabytes (or has no FileSize) and has a positive
    area, it is the FileID of such a photo of the largest area, unless
    that FileID is empty; when every photo is over the limit or has no
    positive area, and when the FileID found is empty, it is the FileID
    of the first photo, over the limit or not. *)
Theorem biggestPhoto_choice (photos : list PhotoSize) :
  (photos = [] → biggestPhoto photos = EmptyString) ∧
  (photos ≠ [] → biggestPhoto photos ∈ PhotoSize_FileID <$> photos) ∧
  (∀ first rest, photos = first :: rest →
     (∀ p, p ∈ photos → overLimit p = true ∨ (area p ≤ 0)%Z) →
     biggestPhoto photos = PhotoSize_FileID first) ∧
  (∀ p, p ∈ photos → overLimit p = false → (0 < area p)%Z →
     ∃ best, best ∈ photos ∧ overLimit best = false ∧
             (∀ q, q ∈ photos → overLimit q = false → (area q ≤ area best)%Z) ∧
             biggestPhoto photos
             = if decide (PhotoSize_FileID best = EmptyString)
               then default EmptyString (PhotoSize_FileID <$> head photos)
               else PhotoSize_FileID best).
Proof.
  pose proof (biggestPhoto_loop [] photos (0%Z, EmptyString)) as HJ.
  simpl in HJ. unfold biggestPhoto.
  destruct (foldl _ _ photos) as [size photo]. simpl in HJ.
  destruct HJ as [Hmax Hbest].
  { split; [|by left]. intros q Hq. by apply elem_of_nil in Hq. }
  split_and!.
  - intros ->. destruct Hbest as [[_ ->]|(best & Hin & _)]; [done|].
    by apply elem_of_nil in Hin.
  - intros Hne. destruct photos as [|first rest]; [done|].
    case_decide; [by left|].
    destruct Hbest as [[_ ?]|(best & Hin & _ & _ & _ & <-)]; [done|].
    by apply list_elem_of_fmap_2.
  - intros first rest -> Hnone.
    destruct Hbest as [[_ ->]|(best & Hin & Hok & Harea & Hpos & _)]; [done|].
    destruct (Hnone best Hin) as [?|?]; [congruence | lia].
  - intros p Hp Hok Hpos.
    destruct Hbest as [[-> _]|(best & Hin & Hbok & Harea & _ & <-)].
    { specialize (Hmax p Hp Hok). lia. }
    exists best. split; [done|]. split; [done|]. split.
    { intros q Hq Hqok. rewrite Harea. by apply Hmax. }
    case_decide as Hid; [|done]. by destruct photos.
Qed.

(** ** Polling *)

Lemma uint64_succ (z : Z) : (0 ≤ z < 2 ^ 64 - 1)%Z → uint64 (z + 1) = (z + 1)%Z.
Proof. intros Hz. unfold uint64. apply Z.mod_small. lia. Qed.

(** X20: poll gets through the Updates of a response (with UpdateIDs
    below the largest uint64) without panicking exactly when no UpdateID
    is below the offset of the request and the UpdateIDs strictly
    increase along the response.  It has then passed all of them to
    update, in order, and the offset of the next request is one more than
    the last UpdateID (the old offset for an empty response). *)
Theorem pollUpdates_in_order {C : Type} (update : Update → C → C)
    (updates : list Update) (offset : Z) (c : C) :
  Forall (fun u => (0 ≤ UpdateID u < 2 ^ 64 - 1)%Z) updates →
  ((∃ r, pollUpdates update updates offset c = Ok r) ↔
   Forall (fun u => (offset ≤ UpdateID u)%Z) updates ∧
   StronglySorted Z.lt (UpdateID <$> updates)) ∧
  (∀ r, pollUpdates update updates offset c = Ok r →
        r = (default offset (Z.succ <$> last (UpdateID <$> updates)),
             foldl (fun c u => update u c) c updates)).
Proof.
  intros Hrange. revert offset c.
  induction Hrange as [|u updates Hu _ IH]; intros offset c;
    cbn [pollUpdates]; rewrite ?fmap_cons.
  - split; [|by intros r [= <-]]. split; [|by eauto].
    intros _. split; constructor.
  - case_decide as Hlt.
    + split; [|done]. split; [by intros [r ?]|].
      intros [Hge _]. apply Forall_cons in Hge as [? _]. lia.
    + rewrite uint64_succ by done.
      destruct (IH (UpdateID u + 1)%Z (update u c)) as [Hiff Hr].
      split.
      * rewrite Hiff. split.
        -- intros [Hge Hsorted]. split.
           ++ constructor; [lia|]. eapply Forall_impl; [exact Hge|].
              simpl. intros; lia.
           ++ constructor; [done|]. rewrite Forall_fmap.
              eapply Forall_impl; [exact Hge|]. simpl. intros; lia.
        -- intros [Hge Hsorted]. apply StronglySorted_inv in Hsorted as [Hs Hall].
           split; [|done]. rewrite Forall_fmap in Hall.
           eapply Forall_impl; [exact Hall|]. simpl. intros; lia.
      * intros r Hok. rewrite (Hr r Hok). f_equal.
        destruct updates as [|u' updates']; [done|].
        rewrite !fmap_cons, last_cons_cons, last_cons.
        by destruct (last (UpdateID <$> updates')).
Qed.


(** ** Media files *)

(** X21: getMediaURL asks Telegram for a file only when it has no entry
    for it or the entry has not expired yet, and then records the answer
    with a new expiry time 50 minutes on.  Once the expiry time of an
    entry has passed it does not ask again: it returns the URL of the
    path recorded last, whatever getFile would say, and leaves the entry
    as it is.  So a file whose first getFile fails is recorded without a
    path and never asked for again: that call returns the error, every
    later one the empty URL and no error. *)
Theorem getMediaURL_asks_only_before_expiry
    (token fileID : string) (c : Media) :
  (∀ m getFile now now',
      c fileID = Some m → (expires m ≤ now)%Z →
      getMediaURL token getFile now now' fileID c = (c, (mediaURLOf token m, None))) ∧
  (∀ m f now now',
      c fileID = None ∨ (c fileID = Some m ∧ (now < expires m)%Z) →
      (getMediaURL token (inr f) now now' fileID c).2
      = (mediaURLOf token (mkmedia f (now' + 50 * minute)), None) ∧
      (getMediaURL token (inr f) now now' fileID c).1 fileID
      = Some (mkmedia f (now' + 50 * minute))) ∧
  (∀ err now now',
      c fileID = None →
      let c1 := (getMediaURL token (inl err) now now' fileID c).1 in
      (getMediaURL token (inl err) now now' fileID c).2 = (EmptyString, Some err) ∧
      ∀ getFile t t', (0 ≤ t)%Z →
        getMediaURL token getFile t t' fileID c1 = (c1, (EmptyString, None))).
Proof.
  assert (Hknown : ∀ (c : Media) m, c fileID = Some m →
            bool_decide (is_Some (c fileID)) = true).
  { intros c0 m Hm. apply bool_decide_eq_true_2. by eexists. }
  assert (Hnew : ∀ c : Media, c fileID = None →
            bool_decide (is_Some (c fileID)) = false).
  { intros c0 Hnone. apply bool_decide_eq_false_2. rewrite Hnone. by intros [? ?]. }
  split_and!.
  - intros m getFile now now' Hm Hexp. unfold getMediaURL.
    rewrite (Hknown c m Hm), Hm. simpl.
    by rewrite bool_decide_eq_false_2 by lia.
  - intros m f now now' [Hnone|[Hm Hexp]]; unfold getMediaURL.
    + rewrite (Hnew c Hnone), Hnone. simpl. split; [done|].
      unfold setMedia. by rewrite decide_True.
    + rewrite (Hknown c m Hm), Hm. simpl.
      rewrite bool_decide_eq_true_2 by done. simpl. split; [done|].
      unfold setMedia. by rewrite decide_True.
  - intros err now now' Hnone c1. subst c1.
    assert (Hfirst : getMediaURL token (inl err) now now' fileID c
                     = (setMedia fileID (mkmedia (mkFile None) 0)
                          (setMedia fileID zeroMedia c),
                        (EmptyString, Some err))).
    { unfold getMediaURL. by rewrite (Hnew c Hnone), Hnone. }
    rewrite Hfirst. simpl. split; [done|].
    intros getFile t t' Ht.
    set (c1 := setMedia fileID _ _).
    assert (Hc1 : c1 fileID = Some (mkmedia (mkFile None) 0)).
    { unfold c1, setMedia. by rewrite decide_True. }
    unfold getMediaURL. rewrite (Hknown c1 _ Hc1), Hc1. simpl.
    by rewrite bool_decide_eq_false_2 by lia.
Qed.

(** ** The queue of a channel *)

Section QueueTheory.
Variable TrimSpace : string → string.
Variable joinURL : string → string → string.

Lemma act_queue (a : Action) (s s1 : chanState) (o1 : list Took) (T P : list Update) :
  act TrimSpace joinURL a s = bridge.Ret (s1, o1) →
  T ++ cbatch s ++ default [] (cin s) = P →
  (cout_closed s = true → cin_closed s = true ∧ cbatch s = [] ∧ cin s = None) →
  ((T ++ (snd <$> taken o1)) ++ cbatch s1 ++ default [] (cin s1)
   = P ++ published [a]) ∧
  (cout_closed s1 = true → cin_closed s1 = true ∧ cbatch s1 = [] ∧ cin s1 = None) ∧
  returned o1 = omap (eventOf TrimSpace joinURL) (taken o1).
Proof.
  intros Hact <- Hclosed. destruct a as [u| | |c ch]; simpl in Hact.
  - unfold publish in Hact. destruct (cin_closed s) eqn:Hin; [done|].
    simplify_eq/=. rewrite !app_nil_r, <- !app_assoc. split; [done|].
    split; [|done]. intros Hout. destruct (Hclosed Hout) as [? _]. congruence.
  - unfold closeIn in Hact. destruct (cin_closed s) eqn:Hin; [done|].
    simplify_eq/=. rewrite !app_nil_r. split; [done|]. split; [|done].
    intros Hout. destruct (Hclosed Hout) as [? _]. congruence.
  - unfold forward in Hact. destruct (cout_closed s) eqn:Hout; [done|].
    destruct (cbatch s) as [|u rest] eqn:Hb; [|done].
    destruct (cin s) as [us|] eqn:Hin.
    + simplify_eq/=. by rewrite !app_nil_r.
    + destruct (cin_closed s); [|done]. simplify_eq/=. by rewrite !app_nil_r.
  - unfold Receive in Hact. destruct c as [err|].
    + simplify_eq/=. by rewrite !app_nil_r.
    + destruct (cbatch s) as [|u rest] eqn:Hb.
      * destruct (cout_closed s) eqn:Hout; [|done]. simplify_eq/=.
        rewrite Hb, Hout, !app_nil_r. done.
      * unfold eventOf.
        destruct (chatEvent TrimSpace joinURL ch u) as [|[ev|]] eqn:Hev; [done|..];
          simplify_eq/=; rewrite Hev, <- !app_assoc, app_nil_r;
          (split; [done|]); (split; [|done]); intros Hout;
          by destruct (Hclosed Hout) as (_ & ? & _).
Qed.

Lemma acts_queue (l : list Action) (s s' : chanState) (o : list Took)
    (T P : list Update) :
  acts TrimSpace joinURL l s = bridge.Ret (s', o) →
  T ++ cbatch s ++ default [] (cin s) = P →
  (cout_closed s = true → cin_closed s = true ∧ cbatch s = [] ∧ cin s = None) →
  ((T ++ (snd <$> taken o)) ++ cbatch s' ++ default [] (cin s')
   = P ++ published l) ∧
  (cout_closed s' = true → cin_closed s' = true ∧ cbatch s' = [] ∧ cin s' = None) ∧
  returned o = omap (eventOf TrimSpace joinURL) (taken o).
Proof.
  revert s o T P. induction l as [|a l IH]; intros s o T P Hacts HP Hclosed;
    simpl in Hacts.
  - simplify_eq. by rewrite !app_nil_r.
  - destruct (act TrimSpace joinURL a s) as [| |[s1 o1]] eqn:Hact; [done..|].
    destruct (acts TrimSpace joinURL l s1) as [| |[s2 o2]] eqn:Hrest; [done..|].
    simplify_eq.
    destruct (act_queue _ _ _ _ T _ Hact eq_refl Hclosed) as (H1 & H2 & H3).
    destruct (IH _ _ _ _ Hrest H1 H2) as (H1' & H2' & H3').
    unfold taken, returned, published in *.
    rewrite !omap_app, fmap_app, H3, H3'. split; [|done].
    rewrite (app_assoc T), H1', <- (app_assoc (T ++ _)). f_equal.
    by destruct a.
Qed.

(** X22: between update and Receive no Update of a channel is lost,
    repeated or reordered.  Over any run of a new channel the Updates the
    turns of Receive have taken, followed by those still queued, are the
    Updates published, in the order of publication, and the events
    Receive returned are those chatEvent makes of the Updates taken, the
    ignored ones skipped.  out is closed only once in is closed and every
    published Update has been taken; from then on Receive reports io.EOF
    and a further Update for the channel panics. *)
Theorem channel_keeps_update_order
    (l : list Action) (s' : chanState) (o : list Took) :
  acts TrimSpace joinURL l newChannel = bridge.Ret (s', o) →
  (snd <$> taken o) ++ cbatch s' ++ default [] (cin s') = published l ∧
  returned o = omap (eventOf TrimSpace joinURL) (taken o) ∧
  (cout_closed s' = true →
   snd <$> taken o = published l ∧
   (∀ ch, Receive TrimSpace joinURL Receive_out ch s'
          = bridge.Ret (s', Return (inl chat.io_EOF))) ∧
   (∀ u, publish u s' = bridge.Panics)).
Proof.
  intros Hacts.
  destruct (acts_queue _ _ _ _ [] [] Hacts eq_refl) as (HP & Hclosed & Hret);
    [done|].
  simpl in HP. split; [done|]. split; [done|].
  intros Hout. destruct (Hclosed Hout) as (Hin & Hb & Hc).
  rewrite Hb, Hc, app_nil_r in HP. split; [done|]. split.
  - intros ch. unfold Receive. by rewrite Hb, Hout.
  - intros u. unfold publish. by rewrite Hin.
Qed.

End QueueTheory.

(** X17 at work: an edited message. *)
Lemma chatEvent_events_witness :
  let edited := mkMessage 44 (Some carol) 100 None None None None None (Some "hi!") in
  chatEvent trim join room (mkUpdate 4 None (Some edited))
  = Ok (Some (chat.EvEdit "44" "44" "hi!")) ∧
  ∃ e, EditedMessage (mkUpdate 4 None (Some edited)) = Some e ∧
       "44" = Itoa (MessageID e).
Proof.
  intros edited.
  assert (H : chatEvent trim join room (mkUpdate 4 None (Some edited))
              = Ok (Some (chat.EvEdit "44" "44" "hi!"))) by reflexivity.
  split; [exact H|].
  destruct (chatEvent_events trim join room _ _ H) as (e & _ & He & _ & Hid & _).
  exists e. split; [exact He | exact Hid].
Defined.

(** X18 at work: a sticker on a Client without a local URL. *)
Lemma chatEvent_ignores_witness :
  let sticker := mkMessage 43 (Some carol) 100 None None None None
                           (Some (mkSticker "file7")) (Some "hello") in
  chatEvent trim join room (mkUpdate 3 (Some sticker) None) = Ok None.
Proof.
  intros sticker. apply chatEvent_ignores.
  right. right. right. exists sticker.
  split; [reflexivity|]. split; [reflexivity|]. split; [reflexivity|].
  split; [reflexivity|]. split; [reflexivity|]. by right.
Defined.

(** X20 at work: a response with the Updates 5 and 7, at offset 5. *)
Lemma pollUpdates_in_order_witness :
  let updates := [mkUpdate 5 None None; mkUpdate 7 None None] in
  let update := fun (u : Update) (c : list Z) => c ++ [UpdateID u] in
  Forall (fun u => (0 ≤ UpdateID u < 2 ^ 64 - 1)%Z) updates ∧
  pollUpdates update updates 5 [] = Ok (8%Z, [5%Z; 7%Z]) ∧
  Forall (fun u => (5 ≤ UpdateID u)%Z) updates.
Proof.
  intros updates update.
  assert (Hrange : Forall (fun u => (0 ≤ UpdateID u < 2 ^ 64 - 1)%Z) updates).
  { repeat constructor; simpl; lia. }
  split; [exact Hrange|]. split; [reflexivity|].
  destruct (pollUpdates_in_order update updates 5 [] Hrange) as [Hiff _].
  apply Hiff. by eexists.
Defined.

(** X22 at work: the join Update is published, forwarded and received. *)
Lemma channel_keeps_update_order_witness :
  let u := mkUpdate 2 (Some joinMessage) None in
  let l := [APublish u; AForward; AReceive Receive_out room] in
  ∃ s' o,
    acts trim join l newChannel = bridge.Ret (s', o) ∧
    (snd <$> taken o) ++ cbatch s' ++ default [] (cin s') = [u] ∧
    returned o = omap (eventOf trim join) (taken o).
Proof.
  intros u l.
  destruct (acts trim join l newChannel) as [| |[s' o]] eqn:Hacts;
    [by vm_compute in Hacts..|].
  destruct (channel_keeps_update_order trim join l s' o Hacts) as (Hall & Hret & _).
  exists s', o. split; [reflexivity|]. split; [exact Hall | exact Hret].
Defined.

End MoreTelegramTheory.

(** * Properties of the IRC client *)
Module IrcTheory.
Import chat irc.


(** ** Lines *)





Section ClientTheory.
Context {W : Type}.
Variable write : string → list string → W → W * option error.
Variables PING PONG PRIVMSG : string.

Lemma after_app (l1 l2 : list (string * list string)) (w : W) :
  after write (l1 ++ l2) w = after write l2 (after write l1 w).
Proof. apply foldl_app. Qed.



End ClientTheory.
End IrcTheory.
